(** * The tree-sequence simplifier of [simplify_work/simplify_algorithms.py]

    A shallow embedding of the [Simplifier] class: the segment pool, the
    ancestry map [A], the overlap map [S], the output tables with their
    one-slot squash buffer, and the sweep ([remove_ancestry],
    [merge_labeled_ancestors], [simplify]).

    Conventions of the embedding.
    - Python object identity of [Segment] instances is an address into
      an explicit object store ([self_store]); a field update of a
      segment is an update of the store at that address, so aliasing
      between chains is kept.
    - Python object identity of the two node ids that
      [merge_labeled_ancestors] compares with [is not] is
      [same_int_object]: equal values are one object up to 256 and two
      objects beyond.
    - Genome coordinates, times and positions are modelled by [Z]: the
      code only compares them, takes minima and forms [m + 1].
    - Python exceptions are the constructors of [exn]; [Stuck] is an
      outcome of the model only (fuel exhausted by a loop, or a reference
      that is not in the store), never a behaviour of the program.
    - [print_state] and the other printing helpers have no effect on the
      state and are left out. *)

From Stdlib Require Import ZArith Lia Sorted.
From stdpp Require Import base option list gmap strings.

Open Scope Z_scope.

(** ** Outcomes *)

Inductive exn : Type :=
  | KeyError
  | TypeError
  | AttributeError
  | IndexError
  | ValueError
  | AssertionError.

Inductive result (T : Type) : Type :=
  | Ok (v : T)
  | Raise (e : exn)
  | Stuck.

Arguments Ok {T} v.
Arguments Raise {T} e.
Arguments Stuck {T}.

Definition rbind {T U : Type} (c : result T) (k : T -> result U) : result U :=
  match c with
  | Ok v => k v
  | Raise e => Raise e
  | Stuck => Stuck
  end.

Definition of_option {T : Type} (o : option T) (e : exn) : result T :=
  match o with
  | Some v => Ok v
  | None => Raise e
  end.

Definition is_ok {T : Type} (c : result T) : bool :=
  match c with
  | Ok _ => true
  | _ => false
  end.

(** ** Data model *)

Abbreviation addr := nat.

Module Segment.
(** [class Segment]: [node] is the output node id. *)
Record t : Type := mk {
  left : Z;
  right : Z;
  node : nat;
  prev : option addr;
  next : option addr
}.

Definition set_left (v : Z) (s : t) : t := mk v (right s) (node s) (prev s) (next s).
Definition set_right (v : Z) (s : t) : t := mk (left s) v (node s) (prev s) (next s).
Definition set_prev (v : option addr) (s : t) : t := mk (left s) (right s) (node s) v (next s).
Definition set_next (v : option addr) (s : t) : t := mk (left s) (right s) (node s) (prev s) v.

(** [Segment.__lt__]: the third components compared are [self.node]
    on both sides, as the source writes it. *)
Definition lt (self other : t) : bool :=
  if negb (left self =? left other) then left self <? left other
  else if negb (right self =? right other) then right self <? right other
  else (node self <? node self)%nat.
End Segment.

Module Node.
Record t : Type := mk { flags : Z; time : Z; population : Z }.
End Node.

Module Edgeset.
Record t : Type := mk {
  left : Z;
  right : Z;
  parent : nat;
  children : list nat
}.
End Edgeset.

Module Mutation.
Record t : Type := mk {
  site : option nat;
  node : nat;
  derived_state : string
}.
End Mutation.

Module Site.
Record t : Type := mk {
  position : Z;
  ancestral_state : string;
  index : option nat;
  mutations : list Mutation.t
}.

Definition set_ancestral_state (v : string) (s : t) : t :=
  mk (position s) v (index s) (mutations s).
Definition append_mutation (mu : Mutation.t) (s : t) : t :=
  mk (position s) (ancestral_state s) (index s) (mutations s ++ [mu]).
End Site.

(** Modelled from the spec: the [NODE_IS_SAMPLE] flag bit of the msprime
    library, which is not part of the sources. *)
Definition NODE_IS_SAMPLE : Z := 1.

(** The read-only input adapter.  [allele_of_this_individual] is the
    method that [update_ancestral_state] calls on the input; nothing is
    assumed about it, it is a field so that every behaviour (a value or
    an exception) can be supplied. *)
Record TreeSequence : Type := mkTreeSequence {
  ts_nodes : list Node.t;
  ts_edgesets : list Edgeset.t;
  ts_sites : list Site.t;
  sequence_length : Z;
  allele_of_this_individual : nat -> result string
}.

Definition num_nodes (ts : TreeSequence) : nat := length (ts_nodes ts).

(** Modelled from the spec: [ts.node(id)] is defined for the ids
    [0 .. num_nodes - 1]; outside this range the lookup raises. *)
Definition ts_node (ts : TreeSequence) (id : nat) : result Node.t :=
  of_option (ts_nodes ts !! id) IndexError.

(** Output tables. *)
Record NodeRow : Type := mkNodeRow {
  row_flags : Z; row_time : Z; row_population : Z }.

Record EdgesetRow : Type := mkEdgesetRow {
  row_left : Z; row_right : Z; row_parent : nat; row_children : list nat }.

Record SiteRow : Type := mkSiteRow {
  row_position : Z; row_ancestral_state : string }.

Record MutationRow : Type := mkMutationRow {
  row_site : nat; row_node : nat; row_derived_state : string }.

Record Tables : Type := mkTables {
  nodes : list NodeRow;
  edgesets : list EdgesetRow;
  sites : list SiteRow;
  mutations : list MutationRow
}.

#[global] Instance EdgesetRow_eq_dec : EqDecision EdgesetRow.
Proof. solve_decision. Defined.

(** ** The simplifier object *)

Record Simplifier : Type := mkSimplifier {
  self_ts : TreeSequence;
  self_sample : list nat;
  self_n : nat;
  self_m : Z;
  self_A : gmap nat addr;
  self_node_table : list NodeRow;
  self_edgeset_table : list EdgesetRow;
  self_sites : gmap Z Site.t;
  self_last_edgeset : option EdgesetRow;
  self_num_output_nodes : nat;
  self_num_output_mutations : nat;
  self_num_output_sites : nat;
  self_num_used_segments : Z;
  self_S : gmap Z Z;
  self_store : list Segment.t
}.

Section Setters.
Variable s : Simplifier.

Definition set_A (v : gmap nat addr) : Simplifier :=
  mkSimplifier (self_ts s) (self_sample s) (self_n s) (self_m s) v
    (self_node_table s) (self_edgeset_table s) (self_sites s)
    (self_last_edgeset s) (self_num_output_nodes s)
    (self_num_output_mutations s) (self_num_output_sites s)
    (self_num_used_segments s) (self_S s) (self_store s).

Definition set_node_table (v : list NodeRow) : Simplifier :=
  mkSimplifier (self_ts s) (self_sample s) (self_n s) (self_m s) (self_A s)
    v (self_edgeset_table s) (self_sites s)
    (self_last_edgeset s) (self_num_output_nodes s)
    (self_num_output_mutations s) (self_num_output_sites s)
    (self_num_used_segments s) (self_S s) (self_store s).

Definition set_edgeset_table (v : list EdgesetRow) : Simplifier :=
  mkSimplifier (self_ts s) (self_sample s) (self_n s) (self_m s) (self_A s)
    (self_node_table s) v (self_sites s)
    (self_last_edgeset s) (self_num_output_nodes s)
    (self_num_output_mutations s) (self_num_output_sites s)
    (self_num_used_segments s) (self_S s) (self_store s).

Definition set_sites (v : gmap Z Site.t) : Simplifier :=
  mkSimplifier (self_ts s) (self_sample s) (self_n s) (self_m s) (self_A s)
    (self_node_table s) (self_edgeset_table s) v
    (self_last_edgeset s) (self_num_output_nodes s)
    (self_num_output_mutations s) (self_num_output_sites s)
    (self_num_used_segments s) (self_S s) (self_store s).

Definition set_last_edgeset (v : option EdgesetRow) : Simplifier :=
  mkSimplifier (self_ts s) (self_sample s) (self_n s) (self_m s) (self_A s)
    (self_node_table s) (self_edgeset_table s) (self_sites s)
    v (self_num_output_nodes s)
    (self_num_output_mutations s) (self_num_output_sites s)
    (self_num_used_segments s) (self_S s) (self_store s).

Definition set_num_output_nodes (v : nat) : Simplifier :=
  mkSimplifier (self_ts s) (self_sample s) (self_n s) (self_m s) (self_A s)
    (self_node_table s) (self_edgeset_table s) (self_sites s)
    (self_last_edgeset s) v
    (self_num_output_mutations s) (self_num_output_sites s)
    (self_num_used_segments s) (self_S s) (self_store s).

Definition set_num_output_mutations (v : nat) : Simplifier :=
  mkSimplifier (self_ts s) (self_sample s) (self_n s) (self_m s) (self_A s)
    (self_node_table s) (self_edgeset_table s) (self_sites s)
    (self_last_edgeset s) (self_num_output_nodes s)
    v (self_num_output_sites s)
    (self_num_used_segments s) (self_S s) (self_store s).

Definition set_num_output_sites (v : nat) : Simplifier :=
  mkSimplifier (self_ts s) (self_sample s) (self_n s) (self_m s) (self_A s)
    (self_node_table s) (self_edgeset_table s) (self_sites s)
    (self_last_edgeset s) (self_num_output_nodes s)
    (self_num_output_mutations s) v
    (self_num_used_segments s) (self_S s) (self_store s).

Definition set_num_used_segments (v : Z) : Simplifier :=
  mkSimplifier (self_ts s) (self_sample s) (self_n s) (self_m s) (self_A s)
    (self_node_table s) (self_edgeset_table s) (self_sites s)
    (self_last_edgeset s) (self_num_output_nodes s)
    (self_num_output_mutations s) (self_num_output_sites s)
    v (self_S s) (self_store s).

Definition set_S (v : gmap Z Z) : Simplifier :=
  mkSimplifier (self_ts s) (self_sample s) (self_n s) (self_m s) (self_A s)
    (self_node_table s) (self_edgeset_table s) (self_sites s)
    (self_last_edgeset s) (self_num_output_nodes s)
    (self_num_output_mutations s) (self_num_output_sites s)
    (self_num_used_segments s) v (self_store s).

Definition set_store (v : list Segment.t) : Simplifier :=
  mkSimplifier (self_ts s) (self_sample s) (self_n s) (self_m s) (self_A s)
    (self_node_table s) (self_edgeset_table s) (self_sites s)
    (self_last_edgeset s) (self_num_output_nodes s)
    (self_num_output_mutations s) (self_num_output_sites s)
    (self_num_used_segments s) (self_S s) v.
End Setters.

(** ** A state and exception monad for the methods *)

Definition M (T : Type) : Type := Simplifier -> result (T * Simplifier).

Definition ret {T : Type} (v : T) : M T := fun s => Ok (v, s).

Definition bind {T U : Type} (c : M T) (k : T -> M U) : M U :=
  fun s =>
    match c s with
    | Ok (v, s') => k v s'
    | Raise e => Raise e
    | Stuck => Stuck
    end.

Definition raise {T : Type} (e : exn) : M T := fun _ => Raise e.
Definition stuck {T : Type} : M T := fun _ => Stuck.
Definition get : M Simplifier := fun s => Ok (s, s).
Definition modify (f : Simplifier -> Simplifier) : M unit := fun s => Ok (tt, f s).
Definition lift {T : Type} (c : result T) : M T :=
  fun s => rbind c (fun v => Ok (v, s)).

Declare Scope simp_scope.
Delimit Scope simp_scope with simp.
Notation "x <- c ;; k" := (bind c (fun x => k))
  (at level 100, c at next level, right associativity) : simp_scope.
Notation "c ;;; k" := (bind c (fun _ => k))
  (at level 100, right associativity) : simp_scope.
Open Scope simp_scope.

(** [for v in l: body v] *)
Fixpoint for_each {T : Type} (l : list T) (body : T -> M unit) : M unit :=
  match l with
  | [] => ret tt
  | v :: l' => body v ;;; for_each l' body
  end.

(** ** The object store of segments *)

Definition load (a : addr) : M Segment.t :=
  fun s =>
    match self_store s !! a with
    | Some x => Ok (x, s)
    | None => Stuck
    end.

Definition update (a : addr) (f : Segment.t -> Segment.t) : M unit :=
  fun s =>
    match self_store s !! a with
    | Some x => Ok (tt, set_store s (<[a := f x]> (self_store s)))
    | None => Stuck
    end.

(** ** SegmentPool: [alloc_segment] and [free_segment] *)

Definition alloc_segment (left right : Z) (node : nat)
    (prev next : option addr) : M addr :=
  fun s =>
    let a := length (self_store s) in
    let s1 := set_store s (self_store s ++ [Segment.mk left right node prev next]) in
    Ok (a, set_num_used_segments s1 (self_num_used_segments s1 + 1)).

Definition free_segment (u : addr) : M unit :=
  modify (fun s => set_num_used_segments s (self_num_used_segments s - 1)).

(** ** [heapq] on lists of [(left, segment)] pairs

    [heapq] is Python's standard priority queue and not part of the
    sources.  It is modelled by a list kept in the order of Python's
    tuple comparison, so that [H[0]] and [heappop] give a least entry;
    the comparison of two entries is the one the program supplies
    (the key, then [Segment.__lt__]). *)

Abbreviation entry := (Z * addr)%type.

Definition entry_lt (store : list Segment.t) (e1 e2 : entry) : bool :=
  if negb (e1.1 =? e2.1) then e1.1 <? e2.1
  else if Nat.eqb e1.2 e2.2 then false
  else
    match store !! e1.2, store !! e2.2 with
    | Some x1, Some x2 => Segment.lt x1 x2
    | _, _ => false
    end.

Fixpoint heap_insert (store : list Segment.t) (e : entry) (H : list entry)
    : list entry :=
  match H with
  | [] => [e]
  | e' :: H' =>
      if entry_lt store e e' then e :: H
      else e' :: heap_insert store e H'
  end.

Definition heappush (H : list entry) (e : entry) : M (list entry) :=
  fun s => Ok (heap_insert (self_store s) e H, s).

Definition heappop (H : list entry) : result (entry * list entry) :=
  match H with
  | [] => Raise IndexError
  | e :: H' => Ok (e, H')
  end.

(** ** OverlapMap: the ordered map [S]

    Modelled from the spec: [bintrees.AVLTree] is not part of the
    sources; [floor_key k] is the greatest stored key [<= k],
    [succ_key k] the least stored key [> k], and both raise [KeyError]
    when there is no such key, as does the lookup of an absent key. *)

Definition keys {V : Type} (S : gmap Z V) : list Z := (map_to_list S).*1.

Definition greatest (l : list Z) : option Z :=
  foldr (fun k acc => Some (match acc with Some a => Z.max k a | None => k end)) None l.

Definition least (l : list Z) : option Z :=
  foldr (fun k acc => Some (match acc with Some a => Z.min k a | None => k end)) None l.

Definition floor_key (S : gmap Z Z) (k : Z) : result Z :=
  of_option (greatest (filter (fun k' => k' <= k) (keys S))) KeyError.

Definition succ_key (S : gmap Z Z) (k : Z) : result Z :=
  of_option (least (filter (fun k' => k < k') (keys S))) KeyError.

Definition S_get (k : Z) : M Z :=
  fun s => rbind (of_option (self_S s !! k) KeyError) (fun v => Ok (v, s)).

Definition S_set (k v : Z) : M unit :=
  modify (fun s => set_S s (<[k := v]> (self_S s))).

Definition S_floor_key (k : Z) : M Z :=
  fun s => rbind (floor_key (self_S s) k) (fun v => Ok (v, s)).

Definition S_succ_key (k : Z) : M Z :=
  fun s => rbind (succ_key (self_S s) k) (fun v => Ok (v, s)).

(** ** Sorting

    [sorted] and [list.sort] of the Python library, on keys that are
    totally ordered: insertion sort gives the same list. *)

Fixpoint insert_sorted {T : Type} (le : T -> T -> bool) (v : T) (l : list T)
    : list T :=
  match l with
  | [] => [v]
  | w :: l' => if le v w then v :: l else w :: insert_sorted le v l'
  end.

Definition sort_by {T : Type} (le : T -> T -> bool) (l : list T) : list T :=
  foldr (insert_sorted le) [] l.

Definition sorted_nat (l : list nat) : list nat := sort_by Nat.leb l.
Definition sorted_Z (l : list Z) : list Z := sort_by Z.leb l.

(** Tuple order on [(time, input_id)]. *)
Definition parent_le (p q : Z * nat) : bool :=
  if negb (p.1 =? q.1) then p.1 <? q.1 else Nat.leb p.2 q.2.

(** [list.index] *)
Fixpoint list_index (v : nat) (l : list nat) : option nat :=
  match l with
  | [] => None
  | w :: l' => if Nat.eqb w v then Some 0%nat else S <$> list_index v l'
  end.

Definition in_list (v : nat) (l : list nat) : bool :=
  existsb (Nat.eqb v) l.

(** ** Output nodes *)

Definition record_sample_node (input_id : nat) : M unit :=
  s <- get ;;
  node <- lift (ts_node (self_ts s) input_id) ;;
  let flags := Z.land (Node.flags node) NODE_IS_SAMPLE in
  modify (fun s => set_node_table s
    (self_node_table s ++ [mkNodeRow flags (Node.time node) (Node.population node)])) ;;;
  modify (fun s => set_num_output_nodes s (self_num_output_nodes s + 1)%nat).

(** The local [flags] is computed and then not used: the row is added
    with [node.flags]. *)
Definition check_or_record_node (input_id : nat) : M nat :=
  s <- get ;;
  if negb (in_list input_id (self_sample s)) then
    node <- lift (ts_node (self_ts s) input_id) ;;
    let flags := Z.land (Node.flags node) (Z.lnot NODE_IS_SAMPLE) in
    modify (fun s => set_node_table s
      (self_node_table s ++
         [mkNodeRow (Node.flags node) (Node.time node) (Node.population node)])) ;;;
    modify (fun s => set_num_output_nodes s (self_num_output_nodes s + 1)%nat) ;;;
    s <- get ;;
    ret (self_num_output_nodes s - 1)%nat
  else
    lift (of_option (list_index input_id (self_sample s)) ValueError).

(** ** Edgesets and the squash buffer *)

Definition squash_condition (last : EdgesetRow) (left : Z) (parent : nat)
    (sorted_children : list nat) : bool :=
  Nat.eqb (row_parent last) parent
  && bool_decide (row_children last = sorted_children)
  && (row_right last =? left).

Definition record_edgeset (left right : Z) (parent : nat) (children : list nat)
    : M unit :=
  let sorted_children := sorted_nat children in
  s <- get ;;
  match self_last_edgeset s with
  | None =>
      modify (fun s => set_last_edgeset s
        (Some (mkEdgesetRow left right parent sorted_children)))
  | Some last =>
      if squash_condition last left parent sorted_children then
        modify (fun s => set_last_edgeset s
          (Some (mkEdgesetRow (row_left last) right parent sorted_children)))
      else
        modify (fun s => set_edgeset_table s (self_edgeset_table s ++ [last])) ;;;
        modify (fun s => set_last_edgeset s
          (Some (mkEdgesetRow left right parent sorted_children)))
  end.

(** ** Mutations and sites

    When the position is not yet a key of [self.sites] the source builds
    a fresh [Site] object, appends the mutation to that object and never
    stores it in the dictionary; when the position is a key, [new_site]
    is the stored object itself and the append is seen through the
    dictionary. *)

Definition record_mutation_at (site : Site.t) (mutation : Mutation.t)
    (input_id output_id : nat) : M unit :=
  if Nat.eqb (Mutation.node mutation) input_id then
    s <- get ;;
    let new_mutation :=
      Mutation.mk None output_id (Mutation.derived_state mutation) in
    match self_sites s !! Site.position site with
    | None =>
        let new_site :=
          Site.append_mutation new_mutation
            (Site.mk (Site.position site) (Site.ancestral_state site) None []) in
        modify (fun s => set_num_output_sites s (self_num_output_sites s + 1)%nat)
    | Some stored =>
        modify (fun s => set_sites s
          (<[Site.position site := Site.append_mutation new_mutation stored]>
             (self_sites s)))
    end ;;;
    modify (fun s => set_num_output_mutations s (self_num_output_mutations s + 1)%nat)
  else ret tt.

Definition record_mutations (input_id : nat) (left right : Z) (output_id : nat)
    : M unit :=
  s <- get ;;
  for_each (ts_sites (self_ts s)) (fun site =>
    if (left <=? Site.position site) && (Site.position site <? right) then
      for_each (Site.mutations site) (fun mutation =>
        record_mutation_at site mutation input_id output_id)
    else ret tt).

Definition update_ancestral_state (input_id : nat) (left right : Z) : M unit :=
  s <- get ;;
  for_each (ts_sites (self_ts s)) (fun site =>
    s <- get ;;
    match self_sites s !! Site.position site with
    | Some stored =>
        if (left <=? Site.position site) && (Site.position site <? right) then
          new_ancestral_state <-
            lift (allele_of_this_individual (self_ts s) input_id) ;;
          modify (fun s => set_sites s
            (<[Site.position site :=
                 Site.set_ancestral_state new_ancestral_state stored]>
               (self_sites s)))
        else ret tt
    | None => ret tt
    end).

(** ** [Simplifier.__init__] *)

Definition init_sample (j sample_id : nat) : M unit :=
  s <- get ;;
  x <- alloc_segment 0 (self_m s) j None None ;;
  modify (fun s => set_A s (<[sample_id := x]> (self_A s))) ;;;
  record_sample_node sample_id ;;;
  s <- get ;;
  record_mutations sample_id 0 (self_m s) (self_num_output_nodes s - 1)%nat.

Fixpoint init_samples (j : nat) (sample : list nat) : M unit :=
  match sample with
  | [] => ret tt
  | sample_id :: rest => init_sample j sample_id ;;; init_samples (S j) rest
  end.

Definition empty_simplifier (ts : TreeSequence) (sample : list nat) : Simplifier :=
  mkSimplifier ts sample (length sample) (sequence_length ts) ∅ [] [] ∅ None
    0%nat 0%nat 0%nat 0 ∅ [].

Definition init_body (sample : list nat) : M unit :=
  init_samples 0 sample ;;;
  s <- get ;;
  S_set 0 (Z.of_nat (self_n s)) ;;;
  S_set (self_m s) (-1).

Definition init (ts : TreeSequence) (sample : list nat) : result Simplifier :=
  match init_body sample (empty_simplifier ts sample) with
  | Ok (_, s) => Ok s
  | Raise e => Raise e
  | Stuck => Stuck
  end.

(** ** [remove_ancestry] *)

(** First loop: the segments to the left of [edgeset.left]. *)
Fixpoint remove_left (fuel : nat) (e_left : Z) (x y : option addr)
    : M (option addr * option addr) :=
  match x with
  | None => ret (x, y)
  | Some xa =>
      xs <- load xa ;;
      if Segment.left xs <? e_left then
        match fuel with
        | O => stuck
        | S fuel' =>
            if Segment.right xs >? e_left then
              x' <- alloc_segment e_left (Segment.right xs) (Segment.node xs)
                      None (Segment.next xs) ;;
              update xa (Segment.set_right e_left) ;;;
              update xa (Segment.set_next None) ;;;
              remove_left fuel' e_left (Some x') (Some xa)
            else
              remove_left fuel' e_left (Segment.next xs) (Some xa)
        end
      else ret (x, y)
  end.

(** Second loop: the segments inside [[edgeset.left, edgeset.right)]. *)
Fixpoint remove_inside (fuel : nat) (e_right : Z) (x w : option addr)
    (H : list entry) : M (option addr * option addr * list entry) :=
  match x with
  | None => ret (x, w, H)
  | Some xa =>
      xs <- load xa ;;
      if Segment.left xs <? e_right then
        match fuel with
        | O => stuck
        | S fuel' =>
            let out_left := Segment.left xs in
            let out_right := Z.min e_right (Segment.right xs) in
            next_w <- alloc_segment out_left out_right (Segment.node xs) w None ;;
            H' <- match w with
                  | None =>
                      ws <- load next_w ;;
                      heappush H (Segment.left ws, next_w)
                  | Some wa =>
                      update wa (Segment.set_next (Some next_w)) ;;; ret H
                  end ;;
            xs <- load xa ;;
            if Segment.right xs <=? out_right then
              let next_x := Segment.next xs in
              free_segment xa ;;;
              remove_inside fuel' e_right next_x (Some next_w) H'
            else
              update xa (Segment.set_left e_right) ;;;
              ret (x, Some next_w, H')
        end
      else ret (x, w, H)
  end.

(** The wrap-up after the two loops. *)
Definition remove_stitch (child : nat) (x y w : option addr) : M unit :=
  match w with
  | None => ret tt
  | Some _ =>
      match y with
      | Some ya => update ya (Segment.set_next x)
      | None => ret tt
      end ;;;
      match x with
      | Some xa => update xa (Segment.set_prev y)
      | None => ret tt
      end ;;;
      match y, x with
      | None, None => modify (fun s => set_A s (delete child (self_A s)))
      | None, Some xa => modify (fun s => set_A s (<[child := xa]> (self_A s)))
      | Some _, _ => ret tt
      end
  end.

Definition remove_child (fuel : nat) (edgeset : Edgeset.t) (child : nat)
    (H : list entry) : M (list entry) :=
  s <- get ;;
  match self_A s !! child with
  | None => ret H
  | Some xa =>
      p <- remove_left fuel (Edgeset.left edgeset) (Some xa) None ;;
      let '(x, y) := p in
      q <- remove_inside fuel (Edgeset.right edgeset) x None H ;;
      let '(x, w, H') := q in
      remove_stitch child x y w ;;;
      ret H'
  end.

Fixpoint remove_children (fuel : nat) (edgeset : Edgeset.t) (children : list nat)
    (H : list entry) : M (list entry) :=
  match children with
  | [] => ret H
  | child :: rest =>
      H' <- remove_child fuel edgeset child H ;;
      remove_children fuel edgeset rest H'
  end.

Fixpoint remove_edgesets (fuel : nat) (edgesets : list Edgeset.t)
    (H : list entry) : M (list entry) :=
  match edgesets with
  | [] => ret H
  | edgeset :: rest =>
      H' <- remove_children fuel edgeset (Edgeset.children edgeset) H ;;
      remove_edgesets fuel rest H'
  end.

Definition remove_ancestry (fuel : nat) (edgesets : list Edgeset.t)
    : M (list entry) :=
  remove_edgesets fuel edgesets [].

(** ** [merge_labeled_ancestors] *)

(** [while len(H) > 0 and H[0][0] == l]: pop the heads that start at [l]. *)
Fixpoint drain (l : Z) (H : list entry) (X : list addr) (r_max : Z)
    : M (list entry * list addr * Z) :=
  match H with
  | [] => ret (H, X, r_max)
  | (k, x) :: H' =>
      if k =? l then
        xs <- load x ;;
        drain l H' (X ++ [x]) (Z.min r_max (Segment.right xs))
      else ret (H, X, r_max)
  end.

(** The [else] part of the branch [len(X) == 1]: [x] itself becomes
    [alpha] and the rest of its chain goes back on the heap. *)
Definition singleton_take (H : list entry) (x : addr) (xs : Segment.t)
    : M (list entry * option addr) :=
  H' <- match Segment.next xs with
        | Some y => ys <- load y ;; heappush H (Segment.left ys, y)
        | None => ret H
        end ;;
  update x (Segment.set_next None) ;;;
  ret (H', Some x).

(** The branch [len(X) == 1]; returns the heap and [alpha]. *)
Definition merge_singleton (H : list entry) (x : addr)
    : M (list entry * option addr) :=
  xs <- load x ;;
  match H with
  | (k, _) :: _ =>
      if k <? Segment.right xs then
        alpha <- alloc_segment (Segment.left xs) k (Segment.node xs) None None ;;
        update x (Segment.set_left k) ;;;
        xs' <- load x ;;
        H' <- heappush H (Segment.left xs', x) ;;
        ret (H', Some alpha)
      else singleton_take H x xs
  | [] => singleton_take H x xs
  end.

(** [if k not in self.S: j = self.S.floor_key(k); self.S[k] = self.S[j]] *)
Definition S_ensure (k : Z) : M unit :=
  s <- get ;;
  match self_S s !! k with
  | Some _ => ret tt
  | None =>
      j <- S_floor_key k ;;
      v <- S_get j ;;
      S_set k v
  end.

(** [while r < r_max and self.S[r] != len(X)] *)
Fixpoint overlap_walk (fuel : nat) (r r_max : Z) (lenX : Z) : M Z :=
  if r <? r_max then
    v <- S_get r ;;
    if negb (v =? lenX) then
      match fuel with
      | O => stuck
      | S fuel' =>
          S_set r (v - (lenX - 1)) ;;;
          r' <- S_succ_key r ;;
          overlap_walk fuel' r' r_max lenX
      end
    else ret r
  else ret r
.

(** [a is b] for two output node ids that were computed separately.
    The test compares the two objects, not their values.  CPython keeps
    one object for every int from -5 to 256, so that up to 256 the test
    is the test on the values.  A larger int is a new object each time
    it is computed, and the two ids that [merge_labeled_ancestors]
    compares are computed separately: [u] by [check_or_record_node]
    during the call, as [self.num_output_nodes - 1] or as
    [self.sample.index(input_id)], and the label of a segment of [X]
    before the call, by [enumerate] in the constructor or during an
    earlier call.  From 257 on the two are never the same object. *)
Definition same_int_object (a b : nat) : bool :=
  Nat.eqb a b && Nat.leb a 256.

(** [for x in X] at the end of the overlap branch; the test on the
    label is [x.node is not u]. *)
Fixpoint overlap_update (X : list addr) (r : Z) (u : nat) (H : list entry)
    (children : list nat) : M (list entry * list nat) :=
  match X with
  | [] => ret (H, children)
  | x :: rest =>
      xs <- load x ;;
      let children' :=
        if negb (same_int_object (Segment.node xs) u)
        then children ++ [Segment.node xs] else children in
      H' <- (if Segment.right xs =? r then
               free_segment x ;;;
               match Segment.next xs with
               | Some y => ys <- load y ;; heappush H (Segment.left ys, y)
               | None => ret H
               end
             else if Segment.right xs >? r then
               update x (Segment.set_left r) ;;;
               xs' <- load x ;;
               heappush H (Segment.left xs', x)
             else ret H) ;;
      overlap_update rest r u H' children'
  end.

(** The right endpoint [r] and [alpha] of the branch [len(X) >= 2]. *)
Definition overlap_endpoint (fuel : nat) (input_id : nat) (l r_max : Z)
    (lenX : Z) (u : nat) : M (Z * option addr) :=
  S_ensure l ;;;
  S_ensure r_max ;;;
  v <- S_get l ;;
  if v =? lenX then
    S_set l 0 ;;;
    r <- S_succ_key l ;;
    update_ancestral_state input_id l r ;;;
    ret (r, None)
  else
    r <- overlap_walk fuel l r_max lenX ;;
    alpha <- alloc_segment l r u None None ;;
    ret (r, Some alpha).

Record merge_locals : Type := mkLocals {
  loc_H : list entry;
  loc_coalescence : bool;
  loc_z : option addr;
  loc_u : option nat
}.

(** The branch [len(X) >= 2]. *)
Definition merge_overlap (fuel : nat) (input_id : nat) (l r_max : Z)
    (H : list entry) (X : list addr) (coalescence : bool) (u : option nat)
    : M (list entry * option addr * option nat) :=
  u1 <- (if negb coalescence
         then v <- check_or_record_node input_id ;; ret (Some v)
         else ret u) ;;
  match u1 with
  | None => raise AssertionError
  | Some u =>
      p <- overlap_endpoint fuel input_id l r_max (Z.of_nat (length X)) u ;;
      let '(r, alpha) := p in
      q <- overlap_update X r u H [] ;;
      let '(H', children) := q in
      record_edgeset l r u children ;;;
      ret (H', alpha, Some u)
  end.

(** The loop tail: link [alpha] into the chain of [input_id]. *)
Definition merge_tail (input_id : nat) (alpha z : option addr)
    : M (option addr) :=
  match alpha with
  | None => ret z
  | Some a =>
      match z with
      | None => modify (fun s => set_A s (<[input_id := a]> (self_A s)))
      | Some za => update za (Segment.set_next alpha)
      end ;;;
      update a (Segment.set_prev z) ;;;
      als <- load a ;;
      record_mutations input_id (Segment.left als) (Segment.right als)
        (Segment.node als) ;;;
      ret alpha
  end.

(** [if len(H) > 0: r_max = min(r_max, H[0][0])] *)
Definition tighten (r_max : Z) (H : list entry) : Z :=
  match H with
  | (k, _) :: _ => Z.min r_max k
  | [] => r_max
  end.

(** One iteration of [while len(H) > 0]; [H] starts with [(l, _)]. *)
Definition merge_iteration (fuel : nat) (input_id : nat) (l : Z)
    (loc : merge_locals) : M merge_locals :=
  s <- get ;;
  p <- drain l (loc_H loc) [] (self_m s + 1) ;;
  let '(H, X, r_max0) := p in
  let r_max := tighten r_max0 H in
  match X with
  | [x] =>
      q <- merge_singleton H x ;;
      let '(H', alpha) := q in
      z' <- merge_tail input_id alpha (loc_z loc) ;;
      ret (mkLocals H' (loc_coalescence loc) z' (loc_u loc))
  | _ =>
      q <- merge_overlap fuel input_id l r_max H X
             (loc_coalescence loc) (loc_u loc) ;;
      let '(H', alpha, u') := q in
      z' <- merge_tail input_id alpha (loc_z loc) ;;
      ret (mkLocals H' true z' u')
  end.

Fixpoint merge_loop (fuel : nat) (input_id : nat) (loc : merge_locals)
    : M unit :=
  match loc_H loc with
  | [] => ret tt
  | (l, _) :: _ =>
      match fuel with
      | O => stuck
      | S fuel' =>
          loc' <- merge_iteration fuel input_id l loc ;;
          merge_loop fuel' input_id loc'
      end
  end.

Definition merge_labeled_ancestors (fuel : nat) (H : list entry)
    (input_id : nat) : M unit :=
  merge_loop fuel input_id (mkLocals H false None None).

(** ** [simplify] *)

Fixpoint enumerate_from {T : Type} (k : nat) (l : list T) : list (nat * T) :=
  match l with
  | [] => []
  | v :: l' => (k, v) :: enumerate_from (S k) l'
  end.

Definition the_parents (ts : TreeSequence) : list (Z * nat) :=
  sort_by parent_le
    (map (fun p => (Node.time p.2, p.1)) (enumerate_from 0 (ts_nodes ts))).

(** The body of the main loop for one parent (after the test on [A]). *)
Definition process_parent (fuel : nat) (input_id : nat) : M unit :=
  s <- get ;;
  let edgesets :=
    filter (fun x => Edgeset.parent x = input_id) (ts_edgesets (self_ts s)) in
  match edgesets with
  | [] => ret tt
  | _ :: _ =>
      H <- remove_ancestry fuel edgesets ;;
      merge_labeled_ancestors fuel H input_id
  end.

(** [for time, input_id in the_parents], with its [break]. *)
Fixpoint main_loop (fuel : nat) (parents : list (Z * nat)) : M unit :=
  match parents with
  | [] => ret tt
  | (_, input_id) :: rest =>
      s <- get ;;
      if bool_decide (self_A s = ∅) then ret tt
      else process_parent fuel input_id ;;; main_loop fuel rest
  end.

(** The class sets no attribute [ancestral_state] on the simplifier;
    reading [self.ancestral_state] raises. *)
Definition self_ancestral_state : M string := raise AttributeError.

Fixpoint site_rows (k : nat) (positions : list Z)
    (site_table : list SiteRow) (mutation_table : list MutationRow)
    : M (list SiteRow * list MutationRow) :=
  match positions with
  | [] => ret (site_table, mutation_table)
  | pos :: rest =>
      s <- get ;;
      site <- lift (of_option (self_sites s !! pos) KeyError) ;;
      a <- self_ancestral_state ;;
      let site_table' := site_table ++ [mkSiteRow (Site.position site) a] in
      let mutation_table' :=
        mutation_table ++
        map (fun mu => mkMutationRow k (Mutation.node mu) (Mutation.derived_state mu))
            (Site.mutations site) in
      site_rows (S k) rest site_table' mutation_table'
  end.

(** Everything after the main loop.  [msprime.load_tables] is outside
    the sources; the result is the four tables handed to it. *)
Definition finalise : M Tables :=
  s <- get ;;
  match self_last_edgeset s with
  | None => raise TypeError
  | Some last =>
      modify (fun s => set_edgeset_table s (self_edgeset_table s ++ [last])) ;;;
      s <- get ;;
      p <- site_rows 0 (sorted_Z (keys (self_sites s))) [] [] ;;
      let '(site_table, mutation_table) := p in
      s <- get ;;
      ret (mkTables (self_node_table s) (self_edgeset_table s)
             site_table mutation_table)
  end.

Definition run (fuel : nat) : M Tables :=
  s <- get ;;
  main_loop fuel (the_parents (self_ts s)) ;;;
  finalise.

(** [Simplifier(ts, sample).simplify()]: the output tables and the
    simplifier object as it is when [simplify] returns. *)
Definition simplify (fuel : nat) (ts : TreeSequence) (sample : list nat)
    : result (Tables * Simplifier) :=
  rbind (init ts sample) (run fuel).

(** ** Examples of inputs *)

Definition no_allele : nat -> result string := fun _ => Raise AttributeError.

(** Four leaves coalescing pairwise on [[0, 10)]. *)
Definition ts_pairwise : TreeSequence :=
  mkTreeSequence
    [Node.mk 1 0 0; Node.mk 1 0 0; Node.mk 1 0 0; Node.mk 1 0 0;
     Node.mk 0 1 0; Node.mk 0 1 0; Node.mk 0 2 0]
    [Edgeset.mk 0 10 4 [0; 1]%nat; Edgeset.mk 0 10 5 [2; 3]%nat;
     Edgeset.mk 0 10 6 [4; 5]%nat]
    []
    10
    no_allele.

Definition ts_flagged_parent : TreeSequence :=
  mkTreeSequence
    [Node.mk 1 0 0; Node.mk 1 0 0; Node.mk 1 1 0]
    [Edgeset.mk 0 10 2 [0; 1]%nat]
    []
    10
    no_allele.

(** Two samples under one parent; a site at 3 with a mutation on the
    parent and a site at 7 with a mutation on sample 0. *)
Definition ts_two_sites (f : nat -> result string) : TreeSequence :=
  mkTreeSequence
    [Node.mk 1 0 0; Node.mk 1 0 0; Node.mk 0 1 0]
    [Edgeset.mk 0 10 2 [0; 1]%nat]
    [Site.mk 3 "0" None [Mutation.mk None 2%nat "1"];
     Site.mk 7 "0" None [Mutation.mk None 0%nat "1"]]
    10
    f.

(** Samples 0 and 1 coalesce in node 3; sample 2 has no parent. *)
Definition ts_uncoalesced : TreeSequence :=
  mkTreeSequence
    [Node.mk 1 0 0; Node.mk 1 0 0; Node.mk 1 0 0; Node.mk 0 1 0]
    [Edgeset.mk 0 10 3 [0; 1]%nat]
    []
    10
    no_allele.

(** Modelled from the spec: the allele carried by an input node at a
    site, which the sources leave to a method they do not have.  Walk
    from the node towards the root of the tree at the position of the
    site; the last mutation of the site on the first node that has one
    gives the allele, and the ancestral state is the allele when no
    node on the way has a mutation. *)
Definition parent_at (ts : TreeSequence) (pos : Z) (u : nat) : option nat :=
  Edgeset.parent <$>
    List.find (fun e => (Edgeset.left e <=? pos) && (pos <? Edgeset.right e)
                        && in_list u (Edgeset.children e))
      (ts_edgesets ts).

Fixpoint allele_at (fuel : nat) (ts : TreeSequence) (site : Site.t) (u : nat)
    : string :=
  match last (List.filter (fun mu => Nat.eqb (Mutation.node mu) u)
                (Site.mutations site)) with
  | Some mu => Mutation.derived_state mu
  | None =>
      match fuel with
      | O => Site.ancestral_state site
      | S fuel' =>
          match parent_at ts (Site.position site) u with
          | Some p => allele_at fuel' ts site p
          | None => Site.ancestral_state site
          end
      end
  end.

(** Every input site in [[left, right)] that is recorded in the output
    carries the allele of [input_id]. *)
Definition alleles_updated (s : Simplifier) (input_id : nat) (left right : Z)
    : bool :=
  forallb (fun site =>
      match self_sites s !! Site.position site with
      | Some stored =>
          if (left <=? Site.position site) && (Site.position site <? right)
          then String.eqb (Site.ancestral_state stored)
                 (allele_at (num_nodes (self_ts s)) (self_ts s) site input_id)
          else true
      | None => true
      end)
    (ts_sites (self_ts s)).

(** The rows that the finalisation is to emit for a sites map, in the
    words of the specification: one site row per entry of the map, in
    ascending order of position, with the site's own position and
    ancestral state, and the mutations of each site with the index
    that this order gives the site. *)
Definition sites_ascending (sites : gmap Z Site.t) : list Site.t :=
  omap (fun pos => sites !! pos) (sorted_Z (keys sites)).

Definition expected_site_rows (sites : gmap Z Site.t) : list SiteRow :=
  map (fun site => mkSiteRow (Site.position site) (Site.ancestral_state site))
    (sites_ascending sites).

Definition expected_mutation_rows (sites : gmap Z Site.t) : list MutationRow :=
  flat_map (fun p : nat * Site.t =>
      map (fun mu =>
             mkMutationRow p.1 (Mutation.node mu) (Mutation.derived_state mu))
        (Site.mutations p.2))
    (enumerate_from 0 (sites_ascending sites)).

(** The overlap count that the test [self.S[l] == len(X)] reads: the
    value at [l] once [l] and [r_max] have been entered in [S]. *)
Definition ensure_key (S : gmap Z Z) (k : Z) : result (gmap Z Z) :=
  match S !! k with
  | Some _ => Ok S
  | None =>
      rbind (floor_key S k) (fun j =>
      rbind (of_option (S !! j) KeyError) (fun v => Ok (<[k := v]> S)))
  end.

Definition overlap_count (S : gmap Z Z) (l r_max : Z) : result Z :=
  rbind (ensure_key S l) (fun S1 =>
  rbind (ensure_key S1 r_max) (fun S2 => of_option (S2 !! l) KeyError)).

(** ** Predicates used in the statements *)

(** What a method keeps true: if [P] holds before and the method
    returns, [P] holds after. *)
Definition preserves {T : Type} (P : Simplifier -> Prop) (c : M T) : Prop :=
  forall s v s', P s -> c s = Ok (v, s') -> P s'.

(** Two rows that squashing would merge. *)
Definition squashable (e1 e2 : EdgesetRow) : Prop :=
  row_parent e1 = row_parent e2 /\
  row_children e1 = row_children e2 /\
  row_right e1 = row_left e2.

Definition no_adjacent_squashable (tbl : list EdgesetRow) : Prop :=
  forall (i : nat) e1 e2,
    tbl !! i = Some e1 -> tbl !! S i = Some e2 -> ~ squashable e1 e2.

(** The emitted rows followed by the pending one. *)
Definition emitted (s : Simplifier) : list EdgesetRow :=
  self_edgeset_table s ++ option_list (self_last_edgeset s).

Definition squash_inv (s : Simplifier) : Prop :=
  no_adjacent_squashable (emitted s) /\
  (self_last_edgeset s = None -> self_edgeset_table s = []).

(** The store, [A], the segment counter and [m] are the same. *)
Definition same_segments (s s' : Simplifier) : Prop :=
  self_store s' = self_store s /\ self_A s' = self_A s /\
  self_num_used_segments s' = self_num_used_segments s /\
  self_m s' = self_m s.

(** ** Chains of segments *)

(** [reach st a b]: [b] is on the chain that starts at [a]. *)
Inductive reach (st : list Segment.t) : addr -> addr -> Prop :=
  | reach_here a : reach st a a
  | reach_next a b c x :
      st !! a = Some x -> Segment.next x = Some b -> reach st b c ->
      reach st a c.

(** The segment at [a] has [left < right] and ends before its
    successor starts. *)
Definition segment_ok (st : list Segment.t) (a : addr) : Prop :=
  exists x, st !! a = Some x /\
    Segment.left x < Segment.right x /\
    forall b, Segment.next x = Some b ->
      exists y, st !! b = Some y /\ Segment.right x <= Segment.left y.

(** Every chain reachable from [A] or from the heap [H] is sorted and
    non-overlapping. *)
Definition chains_sorted (s : Simplifier) (H : list entry) : Prop :=
  forall root,
    (exists c, self_A s !! c = Some root) \/ (exists k, (k, root) ∈ H) ->
    forall a, reach (self_store s) root a -> segment_ok (self_store s) a.

(** The points of the sweep at which the chains are observed: after
    the constructor, after the removal of the ancestry of one child,
    after [remove_ancestry], after each iteration of the loop of
    [merge_labeled_ancestors], and after [merge_labeled_ancestors].
    The third component is [z], the tail of the chain that a merge is
    building; it is [None] outside a merge. *)
Inductive sweep_state (ts : TreeSequence) (sample : list nat)
    : Simplifier -> list entry -> option addr -> Prop :=
  | sweep_init s0 :
      init ts sample = Ok s0 -> sweep_state ts sample s0 [] None
  | sweep_remove_child fuel edgeset child s H s' H' :
      sweep_state ts sample s H None ->
      remove_child fuel edgeset child H s = Ok (H', s') ->
      sweep_state ts sample s' H' None
  | sweep_remove_ancestry fuel edgesets s s' H :
      sweep_state ts sample s [] None ->
      remove_ancestry fuel edgesets s = Ok (H, s') ->
      sweep_state ts sample s' H None
  | sweep_merge_iteration fuel input_id l x T loc s loc' s' :
      sweep_state ts sample s (loc_H loc) (loc_z loc) ->
      loc_H loc = (l, x) :: T ->
      merge_iteration fuel input_id l loc s = Ok (loc', s') ->
      sweep_state ts sample s' (loc_H loc') (loc_z loc')
  | sweep_merge fuel input_id s H s' :
      sweep_state ts sample s H None ->
      merge_labeled_ancestors fuel H input_id s = Ok (tt, s') ->
      sweep_state ts sample s' [] None.

(** The states that a run of the simplifier on [ts] and [sample] goes
    through, and possibly more: the state that the constructor
    returns, and every state made from such a state by a write to the
    segments, to the segment counter, to [A], to [S], to the node
    table or to the node counter, or by a call of one of the three
    recording methods.  The sweep changes the simplifier in no other
    way. *)
Inductive run_state (ts : TreeSequence) (sample : list nat)
    : Simplifier -> Prop :=
  | run_init s0 : init ts sample = Ok s0 -> run_state ts sample s0
  | run_store s v : run_state ts sample s -> run_state ts sample (set_store s v)
  | run_used s v :
      run_state ts sample s -> run_state ts sample (set_num_used_segments s v)
  | run_A s v : run_state ts sample s -> run_state ts sample (set_A s v)
  | run_S s v : run_state ts sample s -> run_state ts sample (set_S s v)
  | run_node_table s v :
      run_state ts sample s -> run_state ts sample (set_node_table s v)
  | run_num_output_nodes s v :
      run_state ts sample s -> run_state ts sample (set_num_output_nodes s v)
  | run_record_edgeset l r p c s v s' :
      run_state ts sample s -> record_edgeset l r p c s = Ok (v, s') ->
      run_state ts sample s'
  | run_record_mutations i l r o s v s' :
      run_state ts sample s -> record_mutations i l r o s = Ok (v, s') ->
      run_state ts sample s'
  | run_update_ancestral_state i l r s v s' :
      run_state ts sample s -> update_ancestral_state i l r s = Ok (v, s') ->
      run_state ts sample s'.

(** The invariant behind [chains_sorted]. The segments in use are
    split in two regions, [PA] for the chains of [A] and [PH] for the
    chains of the heap; each region is closed under [next], the regions
    are disjoint, and in [PH] no two segments share a successor and no
    head has a predecessor, so that the heap chains are disjoint from
    each other. *)
Definition seg_valid (m : Z) (x : Segment.t) : Prop :=
  Segment.left x < Segment.right x /\ Segment.right x <= m.

Definition linked (m : Z) (st : list Segment.t) (P : gset addr) (a : addr)
    : Prop :=
  exists x, st !! a = Some x /\ seg_valid m x /\
    forall b, Segment.next x = Some b ->
      b ∈ P /\ exists y, st !! b = Some y /\ Segment.right x <= Segment.left y.

Definition no_pred (st : list Segment.t) (P : gset addr) (x : addr) : Prop :=
  forall a y, a ∈ P -> st !! a = Some y -> Segment.next y <> Some x.

Definition next_injective (st : list Segment.t) (P : gset addr) : Prop :=
  forall a b c x y,
    a ∈ P -> b ∈ P -> st !! a = Some x -> st !! b = Some y ->
    Segment.next x = Some c -> Segment.next y = Some c -> a = b.

(** The segments of [P] have in [st'] the successor they have in [st]. *)
Definition same_next (P : gset addr) (st st' : list Segment.t) : Prop :=
  forall b y', b ∈ P -> st' !! b = Some y' ->
    exists y, st !! b = Some y /\ Segment.next y = Segment.next y'.

Definition head_ok (st : list Segment.t) (P : gset addr) (e : entry) : Prop :=
  e.2 ∈ P /\
  (exists sg, st !! e.2 = Some sg /\ Segment.left sg = e.1) /\
  no_pred st P e.2.

Record wf (m : Z) (st : list Segment.t) (A : gmap nat addr) (E : list entry)
    (PA PH : gset addr) : Prop := mk_wf {
  wf_disjoint : PA ## PH;
  wf_A : forall c x, A !! c = Some x -> x ∈ PA;
  wf_PA : forall a, a ∈ PA -> linked m st PA a;
  wf_PH : forall a, a ∈ PH -> linked m st PH a;
  wf_inj : next_injective st PH;
  wf_nodup : NoDup E.*2;
  wf_heads : forall e, e ∈ E -> head_ok st PH e
}.

Fixpoint keys_sorted (H : list entry) : Prop :=
  match H with
  | [] => True
  | e :: H' => (forall e', e' ∈ H' -> e.1 <= e'.1) /\ keys_sorted H'
  end.

Definition Inv (s : Simplifier) (H : list entry) : Prop :=
  exists PA PH,
    wf (self_m s) (self_store s) (self_A s) H PA PH /\ keys_sorted H.

(** The invariant on a simplifier, for given regions. *)
Definition swf (s : Simplifier) (E : list entry) (PA PH : gset addr) : Prop :=
  wf (self_m s) (self_store s) (self_A s) E PA PH.

Definition opt_in (o : option addr) (P : gset addr) : Prop :=
  forall a, o = Some a -> a ∈ P.

(** [B] is not to the right of the segment [x], if there is one. *)
Definition left_bound (st : list Segment.t) (B : Z) (x : option addr) : Prop :=
  forall xa sx, x = Some xa -> st !! xa = Some sx -> B <= Segment.left sx.

(** [y] ends before [x] starts, if both are there. *)
Definition before (st : list Segment.t) (y x : option addr) : Prop :=
  forall ya sy, y = Some ya -> st !! ya = Some sy ->
    left_bound st (Segment.right sy) x.

(** No update between [st] and [st'] has moved a right end. *)
Definition rights_kept (st st' : list Segment.t) : Prop :=
  forall a sg, st !! a = Some sg ->
    exists sg', st' !! a = Some sg' /\ Segment.right sg' = Segment.right sg.

(** The tail [z] of the chain under construction ends before every
    heap entry starts. *)
Definition z_ok (st : list Segment.t) (PA : gset addr) (z : option addr)
    (E : list entry) : Prop :=
  forall za, z = Some za ->
    za ∈ PA /\
    exists sz, st !! za = Some sz /\ forall e, e ∈ E -> Segment.right sz <= e.1.

(** What one branch of a merge iteration at [l] achieves: [alpha], if
    any, starts at or after [l] and ends before every heap entry. *)
Definition merged (l : Z) (s s' : Simplifier) (PA : gset addr)
    (H' : list entry) (alpha : option addr) : Prop :=
  self_m s' = self_m s /\ self_A s' = self_A s /\
  (forall a, a ∈ PA -> self_store s' !! a = self_store s !! a) /\
  (forall e, e ∈ H' -> l <= e.1) /\
  exists PA' PH',
    PA ⊆ PA' /\ swf s' H' PA' PH' /\ keys_sorted H' /\
    forall a, alpha = Some a ->
      a ∈ PA' /\
      exists sa, self_store s' !! a = Some sa /\ l <= Segment.left sa /\
                 forall e, e ∈ H' -> Segment.right sa <= e.1.

(** ** Predicates for the further properties *)

(** The row that [record_sample_node] writes for an input node. *)
Definition sample_row (node : Node.t) : NodeRow :=
  mkNodeRow (Z.land (Node.flags node) NODE_IS_SAMPLE)
    (Node.time node) (Node.population node).

(** The row at position [j] of a table is the sample row of the input
    node [id]. *)
Definition is_sample_row (ts : TreeSequence) (id : nat) (row : NodeRow) : Prop :=
  exists node, ts_nodes ts !! id = Some node /\ row = sample_row node.

(** Only the sites map and the two counters of sites and mutations
    differ between [s] and [s']. *)
Definition only_sites (s s' : Simplifier) : Prop :=
  s' = set_num_output_mutations
         (set_num_output_sites (set_sites s (self_sites s'))
            (self_num_output_sites s'))
         (self_num_output_mutations s').

(** Only the store, [A] and the segment counter differ. *)
Definition only_segments (s s' : Simplifier) : Prop :=
  s' = set_num_used_segments
         (set_A (set_store s (self_store s')) (self_A s'))
         (self_num_used_segments s').

(** The length of genome that a list of rows covers, with
    multiplicity. *)
Definition span_total (rows : list EdgesetRow) : Z :=
  foldr (fun row acc => (row_right row - row_left row) + acc) 0 rows.

(** The test [left <= site.position < right] of the two site loops. *)
Definition in_range (left right : Z) (site : Site.t) : bool :=
  (left <=? Site.position site) && (Site.position site <? right).

(** The input mutations that [record_mutations] copies: those on
    [input_id] at the sites in range, in the order of the input; with
    [at_position p], only those at position [p]. *)
Definition copied_mutations (ts : TreeSequence) (input_id : nat)
    (left right : Z) (keep : Site.t -> bool) : list Mutation.t :=
  flat_map (fun site =>
      if in_range left right site && keep site
      then List.filter (fun mu => Nat.eqb (Mutation.node mu) input_id)
             (Site.mutations site)
      else [])
    (ts_sites ts).

Definition at_position (p : Z) (site : Site.t) : bool :=
  Site.position site =? p.

(** An input site in range sits at position [p]. *)
Definition touched (ts : TreeSequence) (left right : Z) (p : Z) : bool :=
  existsb (fun site => in_range left right site && at_position p site)
    (ts_sites ts).

(** Some input site in range is recorded in the output. *)
Definition recorded_in_range (s : Simplifier) (left right : Z) : bool :=
  existsb (fun site =>
      in_range left right site &&
      bool_decide (is_Some (self_sites s !! Site.position site)))
    (ts_sites (self_ts s)).

(** Lexicographic order on [(time, input_id)]. *)
Definition parent_before (p q : Z * nat) : Prop :=
  p.1 < q.1 \/ (p.1 = q.1 /\ (p.2 <= q.2)%nat).

(** The stored site [stored] after [record_mutations] has appended to
    it the copies, on [output_id], of the input mutations [extra]. *)
Definition add_mutations (output_id : nat) (extra : list Mutation.t)
    (stored : Site.t) : Site.t :=
  Site.mk (Site.position stored) (Site.ancestral_state stored)
    (Site.index stored)
    (Site.mutations stored ++
     map (fun mu => Mutation.mk None output_id (Mutation.derived_state mu))
       extra).

(** [s'] is [s] after the copies of the mutations [extra p] were
    appended to the site recorded at each position [p], with [nm] more
    mutations and [ns] more sites counted; nothing else differs. *)
Definition mutations_added (output_id : nat) (extra : Z -> list Mutation.t)
    (nm ns : nat) (s s' : Simplifier) : Prop :=
  only_sites s s' /\
  (forall p, self_sites s' !! p
             = add_mutations output_id (extra p) <$> self_sites s !! p) /\
  self_num_output_mutations s' = (self_num_output_mutations s + nm)%nat /\
  self_num_output_sites s' = (self_num_output_sites s + ns)%nat.

(** The position of the site is not yet a key of [self.sites]. *)
Definition unrecorded (s : Simplifier) (site : Site.t) : bool :=
  bool_decide (self_sites s !! Site.position site = None).

(** The row that [check_or_record_node] writes for an input node: the
    flags are copied as they are. *)
Definition copied_row (node : Node.t) : NodeRow :=
  mkNodeRow (Node.flags node) (Node.time node) (Node.population node).

Definition is_copied_row (ts : TreeSequence) (id : nat) (row : NodeRow) : Prop :=
  exists node, ts_nodes ts !! id = Some node /\ row = copied_row node.

(** The node table, the node counter, the input and the sample list
    are the same. *)
Definition same_nodes (s s' : Simplifier) : Prop :=
  self_node_table s' = self_node_table s /\
  self_num_output_nodes s' = self_num_output_nodes s /\
  self_ts s' = self_ts s /\ self_sample s' = self_sample s.

(** [s'] has the node rows [rows] more than [s], those of the input
    nodes [ids], none of which is in the sample list. *)
Definition more_nodes (ids : list nat) (rows : list NodeRow)
    (s s' : Simplifier) : Prop :=
  Forall (fun id => id ∉ self_sample s) ids /\
  Forall2 (is_copied_row (self_ts s)) ids rows /\
  self_node_table s' = self_node_table s ++ rows /\
  self_num_output_nodes s' = (self_num_output_nodes s + length rows)%nat /\
  self_ts s' = self_ts s /\ self_sample s' = self_sample s.

(** The row refers to output nodes below [n] only, and a child is the
    parent itself only where the test [x.node is not u] compares two
    int objects of the same value, from 257 on. *)
Definition row_ok (n : nat) (row : EdgesetRow) : Prop :=
  (row_parent row < n)%nat /\
  Forall (fun c => (c < n)%nat /\ (c = row_parent row -> (256 < c)%nat))
    (row_children row).

(** 258 samples, the last of which is given as its own child. *)
Definition ts_own_child : TreeSequence :=
  mkTreeSequence
    (replicate 257 (Node.mk 1 0 0) ++ [Node.mk 1 1 0])
    [Edgeset.mk 0 10 257 [0; 257]%nat]
    []
    10
    no_allele.

(** The node table has [n] rows, counted by [num_output_nodes]; every
    segment is labelled with one of them, and every edgeset row,
    emitted or pending, refers to them only. *)
Definition refs_ok (n : nat) (s : Simplifier) : Prop :=
  Forall (fun x => (Segment.node x < n)%nat) (self_store s) /\
  Forall (row_ok n) (emitted s) /\
  self_num_output_nodes s = n /\ length (self_node_table s) = n /\
  (length (self_sample s) <= n)%nat.

(** The row covers a non-empty interval that ends within the genome. *)
Definition row_valid (m : Z) (row : EdgesetRow) : Prop :=
  row_left row < row_right row <= m.

(** The sequence length is [m] and a key of the overlap map, and every
    edgeset row, emitted or pending, is valid. *)
Definition rows_ok (m : Z) (s : Simplifier) : Prop :=
  self_m s = m /\ Forall (row_valid m) (emitted s) /\
  is_Some (self_S s !! m).

(** The time of the output node [u], read in the node table. *)
Definition node_time (tbl : list NodeRow) (u : nat) : option Z :=
  row_time <$> tbl !! u.

(** [times] are the times of the parents of [rows], row by row. *)
Definition parent_times (tbl : list NodeRow) (rows : list EdgesetRow)
    (times : list Z) : Prop :=
  Forall2 (fun row tm => node_time tbl (row_parent row) = Some tm) rows times.

(** The node table starts with the rows of the sample list, and the
    edgeset rows, emitted and pending, are in nondecreasing order of
    the time of their parent, none later than [b]. *)
Definition timed (ts : TreeSequence) (sample : list nat) (b : Z)
    (s : Simplifier) : Prop :=
  self_ts s = ts /\ self_sample s = sample /\
  self_num_output_nodes s = length (self_node_table s) /\
  (forall j id, sample !! j = Some id ->
     exists node, ts_nodes ts !! id = Some node /\
                  node_time (self_node_table s) j = Some (Node.time node)) /\
  exists times,
    parent_times (self_node_table s) (emitted s) times /\
    Sorted Z.le times /\ Forall (fun tm => tm <= b) times.

(** [s] with the store [st] and [used] segments in use. *)
Definition with_store (s : Simplifier) (st : list Segment.t) (used : Z)
    : Simplifier :=
  set_num_used_segments (set_store s st) used.

(** * Properties *)

(** ** The monad *)

Lemma bind_ok {T U : Type} (c : M T) (k : T -> M U) s v s' :
  bind c k s = Ok (v, s') ->
  exists w s1, c s = Ok (w, s1) /\ k w s1 = Ok (v, s').
Proof.
  unfold bind. destruct (c s) as [[w s1]| |]; try discriminate. eauto.
Qed.

Lemma preserves_ret {T : Type} P (v : T) : preserves P (ret v).
Proof. intros s w s' HP [= <- <-]. exact HP. Qed.

Lemma preserves_bind {T U : Type} P (c : M T) (k : T -> M U) :
  preserves P c -> (forall v, preserves P (k v)) -> preserves P (bind c k).
Proof.
  intros Hc Hk s v s' HP Hb. apply bind_ok in Hb as (w & s1 & H1 & H2).
  eapply Hk; [|exact H2]. eapply Hc; eauto.
Qed.

Lemma preserves_get P : preserves P get.
Proof. intros s w s' HP [= <- <-]. exact HP. Qed.

Lemma preserves_lift {T : Type} P (c : result T) : preserves P (lift c).
Proof.
  intros s w s' HP. unfold lift. destruct c; simpl; try discriminate.
  intros [= <- <-]. exact HP.
Qed.

Lemma preserves_raise {T : Type} P e : preserves P (@raise T e).
Proof. intros s w s' _ [=]. Qed.

Lemma preserves_stuck {T : Type} P : preserves P (@stuck T).
Proof. intros s w s' _ [=]. Qed.

Lemma preserves_modify P f :
  (forall s, P s -> P (f s)) -> preserves P (modify f).
Proof. intros Hf s w s' HP [= <- <-]. auto. Qed.

Lemma preserves_for_each {T : Type} P (l : list T) body :
  (forall v, preserves P (body v)) -> preserves P (for_each l body).
Proof.
  intros Hb. induction l as [|v l IH]; simpl.
  - apply preserves_ret.
  - apply preserves_bind; auto.
Qed.

Create HintDb pres discriminated.
#[global] Hint Resolve preserves_ret preserves_get preserves_lift
  preserves_raise preserves_stuck : pres.

(** Splits a goal [preserves P c] along the syntax of [c]. *)
Ltac pres_step :=
  match goal with
  | |- preserves _ (bind _ _) => apply preserves_bind; [|intros ?]
  | |- preserves _ (ret _) => apply preserves_ret
  | |- preserves _ get => apply preserves_get
  | |- preserves _ (lift _) => apply preserves_lift
  | |- preserves _ (raise _) => apply preserves_raise
  | |- preserves _ stuck => apply preserves_stuck
  | |- preserves _ (for_each _ _) => apply preserves_for_each; intros ?
  | |- preserves _ (if ?b then _ else _) => destruct b
  | |- preserves _ (match ?o with Some _ => _ | None => _ end) => destruct o
  | |- preserves _ (match ?o with [] => _ | _ :: _ => _ end) => destruct o
  | |- preserves _ (let '(_, _) := ?p in _) => destruct p
  end.

Ltac pres := repeat pres_step; eauto with pres.

(** ** Frame properties of the sweep

    A property that survives the updates of the store, of the segment
    counter, of [A], of [S] and of the node table, and that the three
    recording methods keep, is kept by the whole sweep. *)

Section Frame.
Variable P : Simplifier -> Prop.
Hypothesis P_store : forall s v, P s -> P (set_store s v).
Hypothesis P_used : forall s v, P s -> P (set_num_used_segments s v).
Hypothesis P_A : forall s v, P s -> P (set_A s v).
Hypothesis P_S : forall s v, P s -> P (set_S s v).
Hypothesis P_node_table : forall s v, P s -> P (set_node_table s v).
Hypothesis P_num_output_nodes : forall s v, P s -> P (set_num_output_nodes s v).
Hypothesis P_record_edgeset :
  forall l r p c, preserves P (record_edgeset l r p c).
Hypothesis P_record_mutations :
  forall i l r o, preserves P (record_mutations i l r o).
Hypothesis P_update_ancestral_state :
  forall i l r, preserves P (update_ancestral_state i l r).

Lemma frame_load a : preserves P (load a).
Proof.
  intros s v s' HP. unfold load. destruct (self_store s !! a); [|discriminate].
  intros [= <- <-]. exact HP.
Qed.

Lemma frame_update a f : preserves P (update a f).
Proof.
  intros s v s' HP. unfold update. destruct (self_store s !! a); [|discriminate].
  intros [= <- <-]. auto.
Qed.

Lemma frame_alloc l r n p q : preserves P (alloc_segment l r n p q).
Proof. intros s v s' HP [= <- <-]. auto. Qed.

Lemma frame_free u : preserves P (free_segment u).
Proof. apply preserves_modify. auto. Qed.

Lemma frame_heappush H e : preserves P (heappush H e).
Proof. intros s v s' HP [= <- <-]. exact HP. Qed.

Lemma frame_S_get k : preserves P (S_get k).
Proof.
  intros s v s' HP. unfold S_get. destruct (self_S s !! k); simpl; [|discriminate].
  intros [= <- <-]. exact HP.
Qed.

Lemma frame_S_set k v : preserves P (S_set k v).
Proof. apply preserves_modify. auto. Qed.

Lemma frame_S_floor_key k : preserves P (S_floor_key k).
Proof.
  intros s v s' HP. unfold S_floor_key. destruct (floor_key (self_S s) k);
    simpl; try discriminate. intros [= <- <-]. exact HP.
Qed.

Lemma frame_S_succ_key k : preserves P (S_succ_key k).
Proof.
  intros s v s' HP. unfold S_succ_key. destruct (succ_key (self_S s) k);
    simpl; try discriminate. intros [= <- <-]. exact HP.
Qed.

Hint Resolve frame_load frame_update frame_alloc frame_free frame_heappush
  frame_S_get frame_S_set frame_S_floor_key frame_S_succ_key
  P_record_edgeset P_record_mutations P_update_ancestral_state : pres.

Lemma frame_check_or_record_node i : preserves P (check_or_record_node i).
Proof.
  unfold check_or_record_node. pres; apply preserves_modify; auto.
Qed.

Lemma frame_remove_left fuel e x y : preserves P (remove_left fuel e x y).
Proof.
  revert x y. induction fuel as [|fuel IH]; intros x y; simpl; pres.
Qed.

Lemma frame_remove_inside fuel e x w H :
  preserves P (remove_inside fuel e x w H).
Proof.
  revert x w H. induction fuel as [|fuel IH]; intros x w H; simpl; pres.
Qed.

Lemma frame_remove_stitch c x y w : preserves P (remove_stitch c x y w).
Proof.
  unfold remove_stitch. destruct w; [|pres].
  repeat (apply preserves_bind; [|intros ?]).
  - destruct y; pres.
  - destruct x; pres.
  - destruct y, x; pres; apply preserves_modify; auto.
Qed.

Hint Resolve frame_check_or_record_node frame_remove_left
  frame_remove_inside frame_remove_stitch : pres.

Lemma frame_remove_ancestry fuel edgesets :
  preserves P (remove_ancestry fuel edgesets).
Proof.
  unfold remove_ancestry. generalize (@nil entry) as H.
  induction edgesets as [|e rest IH]; intros H; simpl; pres.
  generalize (Edgeset.children e) as cs. clear IH.
  intros cs. revert H. induction cs as [|c cs IH]; intros H; simpl; pres.
  unfold remove_child. pres.
Qed.

Lemma frame_drain l H X r : preserves P (drain l H X r).
Proof.
  revert X r. induction H as [|[k x] H IH]; intros X r; simpl; pres.
Qed.

Lemma frame_merge_singleton H x : preserves P (merge_singleton H x).
Proof.
  unfold merge_singleton, singleton_take. pres_step; [pres|].
  destruct H as [|[k y] H]; pres.
Qed.

Lemma frame_S_ensure k : preserves P (S_ensure k).
Proof. unfold S_ensure. pres. Qed.

Lemma frame_overlap_walk fuel r r_max n :
  preserves P (overlap_walk fuel r r_max n).
Proof.
  revert r. induction fuel as [|fuel IH]; intros r; simpl; pres.
Qed.

Lemma frame_overlap_update X r u H cs :
  preserves P (overlap_update X r u H cs).
Proof.
  revert H cs. induction X as [|x X IH]; intros H cs; simpl; pres.
Qed.

Hint Resolve frame_drain frame_merge_singleton frame_S_ensure
  frame_overlap_walk frame_overlap_update : pres.

Lemma frame_merge_tail i alpha z : preserves P (merge_tail i alpha z).
Proof.
  unfold merge_tail. destruct alpha; [|pres].
  apply preserves_bind; [|intros ?; pres].
  destruct z; pres. apply preserves_modify; auto.
Qed.

Lemma frame_merge_overlap fuel i l r H X c u :
  preserves P (merge_overlap fuel i l r H X c u).
Proof. unfold merge_overlap, overlap_endpoint. pres. Qed.

Hint Resolve frame_merge_tail frame_merge_overlap : pres.

Lemma frame_merge_iteration fuel i l loc :
  preserves P (merge_iteration fuel i l loc).
Proof.
  unfold merge_iteration. pres_step; [pres|]. pres_step; [pres|].
  destruct v0 as [[H X] r]. destruct X as [|x [|x' X]]; pres.
  all: destruct p as [[? ?] ?]; pres.
Qed.

Lemma frame_merge_labeled_ancestors fuel H i :
  preserves P (merge_labeled_ancestors fuel H i).
Proof.
  unfold merge_labeled_ancestors. generalize (mkLocals H false None None).
  induction fuel as [|fuel IH]; intros loc; simpl.
  - destruct (loc_H loc) as [|[l x] ?]; pres.
  - destruct (loc_H loc) as [|[l x] ?]; pres.
    apply frame_merge_iteration.
Qed.

Lemma frame_process_parent fuel i : preserves P (process_parent fuel i).
Proof.
  unfold process_parent. pres_step; [pres|].
  destruct (filter _ _); pres.
  - apply frame_remove_ancestry.
  - apply frame_merge_labeled_ancestors.
Qed.

Lemma frame_main_loop fuel parents : preserves P (main_loop fuel parents).
Proof.
  induction parents as [|[t i] rest IH]; simpl; pres.
  apply frame_process_parent.
Qed.
End Frame.

(** ** Methods that only touch the sites and their counters *)

Section FrameSites.
Variable P : Simplifier -> Prop.
Hypothesis P_sites : forall s v, P s -> P (set_sites s v).
Hypothesis P_num_output_sites :
  forall s v, P s -> P (set_num_output_sites s v).
Hypothesis P_num_output_mutations :
  forall s v, P s -> P (set_num_output_mutations s v).

Lemma frame_record_mutations i l r o : preserves P (record_mutations i l r o).
Proof.
  unfold record_mutations, record_mutation_at. pres;
    apply preserves_modify; auto.
Qed.

Lemma frame_update_ancestral_state i l r :
  preserves P (update_ancestral_state i l r).
Proof.
  unfold update_ancestral_state. pres; apply preserves_modify; auto.
Qed.
End FrameSites.

Lemma record_mutation_at_dom site mu i o s v s' :
  record_mutation_at site mu i o s = Ok (v, s') ->
  dom (self_sites s') = dom (self_sites s).
Proof.
  unfold record_mutation_at. destruct (Nat.eqb _ _).
  - unfold bind, get, modify.
    destruct (self_sites s !! Site.position site) as [stored|] eqn:E;
      intros [= <- <-]; simpl; [|reflexivity].
    apply dom_insert_lookup_L. rewrite E. eauto.
  - intros [= <- <-]. reflexivity.
Qed.

Lemma frame_record_mutations_dom (d : gset Z) i l r o :
  preserves (fun s => d = dom (self_sites s)) (record_mutations i l r o).
Proof.
  unfold record_mutations. pres.
  intros s0 u s1 -> Hr. symmetry. eapply record_mutation_at_dom. exact Hr.
Qed.

Lemma init_frame (P : Simplifier -> Prop) :
  (forall s v, P s -> P (set_store s v)) ->
  (forall s v, P s -> P (set_num_used_segments s v)) ->
  (forall s v, P s -> P (set_A s v)) ->
  (forall s v, P s -> P (set_S s v)) ->
  (forall s v, P s -> P (set_node_table s v)) ->
  (forall s v, P s -> P (set_num_output_nodes s v)) ->
  (forall i l r o, preserves P (record_mutations i l r o)) ->
  forall ts sample s,
    P (empty_simplifier ts sample) -> init ts sample = Ok s -> P s.
Proof.
  intros P1 P2 P3 P4 P5 P6 P7 ts sample s H0 Hi.
  assert (Hp : preserves P (init_body sample)).
  { clear Hi H0. unfold init_body.
    pres; try (apply preserves_modify; auto).
    generalize 0%nat. induction sample as [|a l IH]; intros j; simpl; pres.
    unfold init_sample, record_sample_node.
    pres; try (apply preserves_modify; auto).
    intros ? ? ? Hq [= <- <-]. auto. }
  unfold init in Hi.
  destruct (init_body sample (empty_simplifier ts sample)) as [[u s1]| |] eqn:E;
    try discriminate.
  injection Hi as <-. eapply Hp; [exact H0|exact E].
Qed.

(** ** Squashing *)

Lemma squash_condition_spec last left parent sorted_children :
  squash_condition last left parent sorted_children = true <->
  row_parent last = parent /\ row_children last = sorted_children /\
  row_right last = left.
Proof.
  unfold squash_condition. rewrite !andb_true_iff, Nat.eqb_eq, Z.eqb_eq,
    bool_decide_eq_true. tauto.
Qed.

Lemma no_adjacent_squashable_snoc tbl e1 e2 :
  no_adjacent_squashable (tbl ++ [e1]) ->
  ~ squashable e1 e2 ->
  no_adjacent_squashable ((tbl ++ [e1]) ++ [e2]).
Proof.
  intros Hn Hne i a b Ha Hb.
  destruct (decide (S i < length (tbl ++ [e1]))%nat) as [Hlt|Hge].
  - rewrite lookup_app_l in Ha by lia. rewrite lookup_app_l in Hb by lia.
    eauto.
  - assert (Hi : S i = length (tbl ++ [e1])).
    { apply lookup_lt_Some in Hb. rewrite length_app in Hb. simpl in Hb.
      rewrite length_app in *. simpl in *. lia. }
    rewrite Hi, list_lookup_middle in Hb by reflexivity.
    rewrite lookup_app_l in Ha by lia.
    assert (Hi' : i = length tbl) by (rewrite length_app in Hi; simpl in Hi; lia).
    rewrite Hi', list_lookup_middle in Ha by reflexivity.
    congruence.
Qed.

Lemma no_adjacent_squashable_last tbl e e' :
  no_adjacent_squashable (tbl ++ [e]) ->
  row_parent e' = row_parent e -> row_children e' = row_children e ->
  row_left e' = row_left e ->
  no_adjacent_squashable (tbl ++ [e']).
Proof.
  intros Hn Hp Hc Hl i a b Ha Hb.
  destruct (decide (S i < length tbl)%nat) as [Hlt|Hge].
  - rewrite lookup_app_l in Ha by lia. rewrite lookup_app_l in Hb by lia.
    apply (Hn i a b); rewrite lookup_app_l by lia; assumption.
  - assert (Hi : S i = length tbl).
    { apply lookup_lt_Some in Hb. rewrite length_app in Hb. simpl in Hb. lia. }
    rewrite Hi, list_lookup_middle in Hb by reflexivity.
    rewrite lookup_app_l in Ha by lia.
    injection Hb as <-.
    specialize (Hn i a e). rewrite lookup_app_l in Hn by lia.
    rewrite Hi, list_lookup_middle in Hn by reflexivity.
    specialize (Hn Ha eq_refl). unfold squashable in *. rewrite Hp, Hc, Hl.
    exact Hn.
Qed.

Lemma record_edgeset_pending left right parent children s :
  exists s', record_edgeset left right parent children s = Ok (tt, s') /\
             self_last_edgeset s' <> None.
Proof.
  unfold record_edgeset, bind, get, modify.
  destruct (self_last_edgeset s) as [last|]; [|eexists; split; [reflexivity|easy]].
  destruct (squash_condition _ _ _ _); eexists; (split; [reflexivity|easy]).
Qed.

Lemma record_edgeset_squash_inv left right parent children :
  preserves squash_inv (record_edgeset left right parent children).
Proof.
  intros s v s' [Hn He]. unfold record_edgeset, bind, get, modify.
  destruct (self_last_edgeset s) as [last|] eqn:El.
  - destruct (squash_condition _ _ _ _) eqn:Ec; intros [= <- <-];
      (split; [|discriminate]); unfold emitted in *; simpl; rewrite El in Hn;
      simpl in Hn.
    + apply squash_condition_spec in Ec as (Hp & Hc & Hr).
      eapply no_adjacent_squashable_last; eauto.
    + apply no_adjacent_squashable_snoc; [exact Hn|].
      intros Hs. apply not_true_iff_false in Ec. apply Ec.
      apply squash_condition_spec. exact Hs.
  - intros [= <- <-]. split; [|discriminate]. unfold emitted. simpl.
    rewrite (He eq_refl). intros [|i] a b Ha Hb; simpl in *; discriminate.
Qed.

Lemma squash_inv_sweep fuel parents : preserves squash_inv (main_loop fuel parents).
Proof.
  apply frame_main_loop; try (intros; assumption).
  - apply record_edgeset_squash_inv.
  - intros. apply frame_record_mutations; intros; assumption.
  - intros. apply frame_update_ancestral_state; intros; assumption.
Qed.

Lemma init_emitted ts sample s :
  init ts sample = Ok s ->
  self_edgeset_table s = [] /\ self_last_edgeset s = None.
Proof.
  apply (init_frame
    (fun s => self_edgeset_table s = [] /\ self_last_edgeset s = None));
    try (intros; assumption).
  - intros. apply frame_record_mutations; intros; assumption.
  - split; reflexivity.
Qed.

Lemma site_rows_state k ps st mt v s s' :
  site_rows k ps st mt s = Ok (v, s') -> s' = s.
Proof.
  revert k st mt. induction ps as [|p ps IH]; intros k st mt; simpl.
  - intros [= <- <-]. reflexivity.
  - unfold bind at 1. simpl. unfold bind at 1, lift.
    destruct (of_option _ _); simpl; discriminate.
Qed.

Lemma finalise_edgesets s t s' :
  finalise s = Ok (t, s') -> edgesets t = emitted s.
Proof.
  unfold finalise, bind at 1, get. unfold emitted.
  destruct (self_last_edgeset s) as [last|]; [|discriminate].
  intros Hf. apply bind_ok in Hf as (u & s1 & H1 & Hf). injection H1 as <- <-.
  apply bind_ok in Hf as (s2 & s3 & H1 & Hf). injection H1 as <- <-.
  apply bind_ok in Hf as ([st mt] & s3 & H1 & Hf).
  apply site_rows_state in H1 as ->. injection Hf as <- <-. reflexivity.
Qed.

(** C5. [record_edgeset] squashes exactly when the pending row
    [(L, R, P, C)] has [P == parent], [C == sorted(children)] and
    [R == left], replacing it by [(L, right, P, C)] (otherwise the pending
    row is flushed and replaced by the new one); and the edgeset table
    that [simplify] returns has no two adjacent rows with the same
    parent and children and [R1 == L2]. *)
Theorem record_edgeset_squashing :
  (forall s left right parent children last,
     self_last_edgeset s = Some last ->
     record_edgeset left right parent children s =
     Ok (tt,
         if decide (row_parent last = parent /\
                    row_children last = sorted_nat children /\
                    row_right last = left)
         then set_last_edgeset s
                (Some (mkEdgesetRow (row_left last) right
                         (row_parent last) (row_children last)))
         else set_last_edgeset
                (set_edgeset_table s (self_edgeset_table s ++ [last]))
                (Some (mkEdgesetRow left right parent (sorted_nat children)))))
  /\
  (forall fuel ts sample t s,
     simplify fuel ts sample = Ok (t, s) ->
     no_adjacent_squashable (edgesets t)).
Proof.
  split.
  - intros s left right parent children last El.
    unfold record_edgeset, bind, get, modify. rewrite El.
    destruct (squash_condition _ _ _ _) eqn:Ec.
    + apply squash_condition_spec in Ec as Hc.
      rewrite decide_True by exact Hc. destruct Hc as (<- & <- & _).
      reflexivity.
    + rewrite decide_False; [reflexivity|].
      intros Hc. apply squash_condition_spec in Hc. congruence.
  - intros fuel ts sample t s Hs. unfold simplify in Hs.
    destruct (init ts sample) as [s0| |] eqn:Ei; try discriminate.
    simpl in Hs. unfold run in Hs.
    apply bind_ok in Hs as (s0' & s1 & H1 & Hs). injection H1 as <- <-.
    apply bind_ok in Hs as (u & s1 & Hl & Hf).
    apply finalise_edgesets in Hf as ->.
    apply init_emitted in Ei as [Et El].
    eapply squash_inv_sweep; [|exact Hl].
    split; [|intros _; exact Et]. unfold emitted. rewrite Et, El.
    intros [|i] a b Ha Hb; discriminate.
Qed.

Lemma record_edgeset_squashing_witness :
  exists t s, simplify 50 ts_pairwise [0; 1; 2; 3]%nat = Ok (t, s) /\
              no_adjacent_squashable (edgesets t).
Proof.
  destruct (simplify 50 ts_pairwise [0; 1; 2; 3]%nat) as [[t s]|e|] eqn:E;
    [|vm_compute in E; discriminate..].
  exists t, s. split; [reflexivity|].
  exact (proj2 record_edgeset_squashing _ _ _ _ _ E).
Defined.

(** ** The segment counter at return *)

(** C1 (the code departs from it). On the four-leaf tree with the
    sample list [0, 1, 4], and on a tree sequence in which sample 2
    never coalesces, [simplify] returns and the counter
    [num_used_segments] is 2: the segments still chained in [A] when
    the main loop ends are not freed. *)
Theorem segments_outstanding_at_return :
  (exists t s, simplify 50 ts_pairwise [0; 1; 4]%nat = Ok (t, s) /\
               self_num_used_segments s = 2 /\ self_A s <> ∅) /\
  (exists t s, simplify 50 ts_uncoalesced [0; 1; 2]%nat = Ok (t, s) /\
               self_num_used_segments s = 2 /\ self_A s <> ∅).
Proof.
  split.
  - destruct (simplify 50 ts_pairwise [0; 1; 4]%nat) as [[t s]|e|] eqn:E;
      [|vm_compute in E; discriminate..].
    exists t, s. split; [reflexivity|].
    assert (Hv : match simplify 50 ts_pairwise [0; 1; 4]%nat with
                 | Ok q => (self_num_used_segments q.2,
                            bool_decide (self_A q.2 = ∅)) = (2, false)
                 | _ => False
                 end) by (vm_compute; reflexivity).
    rewrite E in Hv. simpl in Hv. injection Hv as H1 H2.
    split; [exact H1|]. apply bool_decide_eq_false in H2. exact H2.
  - destruct (simplify 50 ts_uncoalesced [0; 1; 2]%nat) as [[t s]|e|] eqn:E;
      [|vm_compute in E; discriminate..].
    exists t, s. split; [reflexivity|].
    assert (Hv : match simplify 50 ts_uncoalesced [0; 1; 2]%nat with
                 | Ok q => (self_num_used_segments q.2,
                            bool_decide (self_A q.2 = ∅)) = (2, false)
                 | _ => False
                 end) by (vm_compute; reflexivity).
    rewrite E in Hv. simpl in Hv. injection Hv as H1 H2.
    split; [exact H1|]. apply bool_decide_eq_false in H2. exact H2.
Qed.

(** ** Output nodes *)

Lemma check_or_record_node_spec input_id s :
  (in_list input_id (self_sample s) = true ->
   exists j, list_index input_id (self_sample s) = Some j /\
             check_or_record_node input_id s = Ok (j, s)) /\
  (in_list input_id (self_sample s) = false ->
   forall node, ts_nodes (self_ts s) !! input_id = Some node ->
   check_or_record_node input_id s =
   Ok (self_num_output_nodes s + 1 - 1,
       set_num_output_nodes
         (set_node_table s
            (self_node_table s ++
               [mkNodeRow (Node.flags node) (Node.time node) (Node.population node)]))
         (self_num_output_nodes s + 1))%nat).
Proof.
  unfold check_or_record_node, bind, get. split.
  - intros Hin. rewrite Hin. simpl.
    assert (Hj : exists j, list_index input_id (self_sample s) = Some j).
    { revert Hin. unfold in_list. induction (self_sample s) as [|w l IH]; simpl.
      - discriminate.
      - rewrite (Nat.eqb_sym input_id w). destruct (Nat.eqb w input_id); eauto.
        simpl. intros Hin. destruct (IH Hin) as [j ->]. simpl. eauto. }
    destruct Hj as [j Hj]. exists j. split; [exact Hj|].
    unfold lift. rewrite Hj. reflexivity.
  - intros Hin node Hn. rewrite Hin. simpl. unfold lift, ts_node. rewrite Hn.
    reflexivity.
Qed.

(** C6 (the code departs from it). Node 2 of [ts_flagged_parent] is
    not in the sample list and has the [IS_SAMPLE] bit set: the call
    appends one row and returns its id, but the row carries the flags
    of the input node unchanged (1), not the flags with the bit
    cleared (0); the same row is in the node table that [simplify]
    returns. *)
Theorem check_or_record_node_flags_not_cleared :
  (exists s0 s1,
     init ts_flagged_parent [0; 1]%nat = Ok s0 /\
     check_or_record_node 2 s0 = Ok (2%nat, s1) /\
     self_node_table s1 = self_node_table s0 ++ [mkNodeRow 1 1 0] /\
     Z.land 1 (Z.lnot NODE_IS_SAMPLE) = 0) /\
  (exists t s, simplify 50 ts_flagged_parent [0; 1]%nat = Ok (t, s) /\
               nodes t !! 2%nat = Some (mkNodeRow 1 1 0)).
Proof.
  split.
  - destruct (init ts_flagged_parent [0; 1]%nat) as [s0|e|] eqn:E;
      [|vm_compute in E; discriminate..].
    assert (Hs : self_sample s0 = [0; 1]%nat /\
                 ts_nodes (self_ts s0) !! 2%nat = Some (Node.mk 1 1 0) /\
                 self_num_output_nodes s0 = 2%nat).
    { assert (Hv : match init ts_flagged_parent [0; 1]%nat with
                   | Ok q => self_sample q = [0; 1]%nat /\
                             ts_nodes (self_ts q) !! 2%nat = Some (Node.mk 1 1 0) /\
                             self_num_output_nodes q = 2%nat
                   | _ => False
                   end) by (vm_compute; auto).
      rewrite E in Hv. exact Hv. }
    destruct Hs as (Hsample & Hnode & Hnum).
    destruct (check_or_record_node_spec 2 s0) as [_ Hout].
    rewrite Hsample in Hout. specialize (Hout eq_refl _ Hnode).
    rewrite Hnum in Hout. simpl in Hout.
    eexists s0, _. repeat split; [exact Hout|reflexivity].
  - destruct (simplify 50 ts_flagged_parent [0; 1]%nat) as [[t s]|e|] eqn:E;
      [|vm_compute in E; discriminate..].
    exists t, s. split; [reflexivity|].
    assert (Hv : match simplify 50 ts_flagged_parent [0; 1]%nat with
                 | Ok q => nodes q.1 !! 2%nat = Some (mkNodeRow 1 1 0)
                 | _ => False
                 end) by (vm_compute; reflexivity).
    rewrite E in Hv. exact Hv.
Qed.

(** ** Mutations and sites *)

Lemma record_mutations_sites_dom input_id left right output_id s v s' :
  record_mutations input_id left right output_id s = Ok (v, s') ->
  dom (self_sites s') = dom (self_sites s).
Proof.
  intros Hr. symmetry.
  set (d := dom (self_sites s)).
  apply (frame_record_mutations_dom d input_id left right output_id s v s');
    [reflexivity|exact Hr].
Qed.

(** C2 (the code departs from it). Site 7 of [ts_two_sites] has a
    mutation on node 0 and lies in [[0, 10)]; after
    [record_mutations(0, 0, 10, 0)] on a simplifier without recorded
    sites the counters say that one site and one mutation were added,
    but the sites map is still empty: the new [Site] is never stored
    under its position. *)
Theorem record_mutations_does_not_store_site :
  exists s',
    record_mutations 0 0 10 0
      (empty_simplifier (ts_two_sites no_allele) [0; 1]%nat) = Ok (tt, s') /\
    self_sites s' !! 7 = None /\
    self_sites s' = ∅ /\
    self_num_output_sites s' = 1%nat /\
    self_num_output_mutations s' = 1%nat.
Proof.
  eexists. split; [vm_compute; reflexivity|]. simpl.
  repeat split; reflexivity.
Qed.

Lemma update_ancestral_state_sites_dom (d : gset Z) i l r :
  preserves (fun s => d = dom (self_sites s)) (update_ancestral_state i l r).
Proof.
  unfold update_ancestral_state.
  apply preserves_bind; [apply preserves_get|intros ?].
  apply preserves_for_each. intros site.
  intros s0 u s1 ->. unfold bind, get.
  destruct (self_sites s0 !! Site.position site) as [stored|] eqn:E.
  - destruct (_ && _).
    + unfold lift. destruct (allele_of_this_individual _ _); simpl;
        try discriminate.
      intros [= <- <-]. simpl. symmetry. apply dom_insert_lookup_L.
      rewrite E. eauto.
    + intros [= <- <-]. reflexivity.
  - intros [= <- <-]. reflexivity.
Qed.

(** No run of the sweep records a site: the sites map of the
    simplifier is empty when the main loop ends. *)
Lemma sweep_records_no_site fuel ts sample s0 u s1 :
  init ts sample = Ok s0 ->
  main_loop fuel (the_parents (self_ts s0)) s0 = Ok (u, s1) ->
  self_sites s1 = ∅.
Proof.
  intros Hi Hl.
  assert (H0 : (∅ : gset Z) = dom (self_sites s0)).
  { revert Hi. apply (init_frame (fun s => (∅ : gset Z) = dom (self_sites s)));
      try (intros; assumption).
    - intros. apply frame_record_mutations_dom.
    - simpl. rewrite dom_empty_L. reflexivity. }
  assert (H1 : (∅ : gset Z) = dom (self_sites s1)).
  { assert (Hp : preserves (fun s => (∅ : gset Z) = dom (self_sites s))
                   (main_loop fuel (the_parents (self_ts s0))));
      [|exact (Hp _ _ _ H0 Hl)].
    apply frame_main_loop; try (intros; assumption).
    - intros. apply preserves_bind; [apply preserves_get|intros ?].
      unfold record_edgeset. simpl. destruct (self_last_edgeset v);
        [destruct (squash_condition _ _ _ _)|]; pres;
        apply preserves_modify; intros; assumption.
    - intros. apply frame_record_mutations_dom.
    - intros. apply update_ancestral_state_sites_dom. }
  apply dom_empty_inv_L. symmetry. exact H1.
Qed.

(** ** Finalisation *)

Lemma elem_of_insert_sorted {T : Type} (le : T -> T -> bool) v l x :
  x ∈ insert_sorted le v l <-> x = v \/ x ∈ l.
Proof.
  induction l as [|w l IH]; simpl.
  - rewrite list_elem_of_singleton, elem_of_nil. tauto.
  - destruct (le v w).
    + rewrite elem_of_cons. tauto.
    + rewrite !elem_of_cons, IH. tauto.
Qed.

Lemma elem_of_sort_by {T : Type} (le : T -> T -> bool) l x :
  x ∈ sort_by le l <-> x ∈ l.
Proof.
  unfold sort_by. induction l as [|w l IH]; simpl; [tauto|].
  rewrite elem_of_insert_sorted, elem_of_cons, IH. tauto.
Qed.

Lemma elem_of_keys {V : Type} (S : gmap Z V) k :
  k ∈ keys S <-> is_Some (S !! k).
Proof.
  unfold keys. rewrite list_elem_of_fmap. split.
  - intros ([k' v] & -> & Hin). apply elem_of_map_to_list in Hin. eauto.
  - intros [v Hv]. exists (k, v). split; [reflexivity|].
    apply elem_of_map_to_list. exact Hv.
Qed.

(** With a pending edgeset and at least one recorded site the
    finalisation raises: the first site row reads
    [self.ancestral_state]. *)
Lemma finalise_with_sites s last :
  self_last_edgeset s = Some last ->
  self_sites s <> ∅ ->
  finalise s = Raise AttributeError.
Proof.
  intros El Hne. unfold finalise, bind at 1, get. rewrite El.
  unfold bind at 1, modify. unfold bind at 1, get. simpl.
  destruct (sorted_Z (keys (self_sites s))) as [|pos rest] eqn:Ek.
  - exfalso. apply Hne. apply map_empty. intros k.
    destruct (self_sites s !! k) as [v|] eqn:Ev; [|reflexivity].
    assert (Hin : k ∈ sorted_Z (keys (self_sites s))).
    { apply elem_of_sort_by, elem_of_keys. eauto. }
    rewrite Ek in Hin. apply elem_of_nil in Hin. contradiction.
  - assert (Hin : pos ∈ sorted_Z (keys (self_sites s))).
    { rewrite Ek. apply elem_of_cons. auto. }
    apply elem_of_sort_by, elem_of_keys in Hin as [site Hsite].
    unfold bind at 1. simpl. unfold bind at 1, get. unfold bind at 1, lift.
    simpl. rewrite Hsite. reflexivity.
Qed.

(** Every state of a run has an empty sites map. *)
Lemma run_state_no_site ts sample s : run_state ts sample s -> self_sites s = ∅.
Proof.
  intros Hr. apply dom_empty_inv_L. symmetry.
  induction Hr as [s0 Hi| | | | | | |l r p c s v s' _ IH He|
                   i l r o s v s' _ IH He|i l r s v s' _ IH He];
    try assumption.
  - revert Hi. apply (init_frame (fun s => (∅ : gset Z) = dom (self_sites s)));
      try (intros; assumption).
    + intros. apply frame_record_mutations_dom.
    + simpl. rewrite dom_empty_L. reflexivity.
  - revert He. unfold record_edgeset, bind, get, modify.
    destruct (self_last_edgeset s); [destruct (squash_condition _ _ _ _)|];
      intros [= <- <-]; exact IH.
  - exact (frame_record_mutations_dom _ _ _ _ _ _ _ _ IH He).
  - exact (update_ancestral_state_sites_dom _ _ _ _ _ _ _ IH He).
Qed.

(** The sweep takes states of a run to states of a run. *)
Lemma run_state_main_loop ts sample fuel parents :
  preserves (run_state ts sample) (main_loop fuel parents).
Proof.
  apply frame_main_loop.
  - apply run_store.
  - apply run_used.
  - apply run_A.
  - apply run_S.
  - apply run_node_table.
  - apply run_num_output_nodes.
  - intros l r p c s v s'. apply run_record_edgeset.
  - intros i l r o s v s'. apply run_record_mutations.
  - intros i l r s v s'. apply run_update_ancestral_state.
Qed.

Lemma run_state_remove_ancestry ts sample fuel edgesets :
  preserves (run_state ts sample) (remove_ancestry fuel edgesets).
Proof.
  apply frame_remove_ancestry; [apply run_store|apply run_used|apply run_A].
Qed.

Lemma run_state_check_or_record_node ts sample i :
  preserves (run_state ts sample) (check_or_record_node i).
Proof.
  apply frame_check_or_record_node;
    [apply run_node_table|apply run_num_output_nodes].
Qed.

Lemma run_state_overlap_endpoint ts sample fuel i l r_max n u :
  preserves (run_state ts sample) (overlap_endpoint fuel i l r_max n u).
Proof.
  unfold overlap_endpoint.
  apply preserves_bind; [apply frame_S_ensure, run_S|intros _].
  apply preserves_bind; [apply frame_S_ensure, run_S|intros _].
  apply preserves_bind; [apply frame_S_get|intros v].
  destruct (v =? n).
  - apply preserves_bind; [apply frame_S_set, run_S|intros _].
    apply preserves_bind; [apply frame_S_succ_key|intros r].
    apply preserves_bind; [|intros _; apply preserves_ret].
    intros s w s'. apply run_update_ancestral_state.
  - apply preserves_bind; [apply frame_overlap_walk, run_S|intros r].
    apply preserves_bind;
      [apply frame_alloc; [apply run_store|apply run_used]|intros a].
    apply preserves_ret.
Qed.



(** Without a recorded site [update_ancestral_state] returns at once:
    no site passes the test [site.position in self.sites], and the
    allele of [input_id] is not asked for. *)
Lemma update_ancestral_state_no_site i l r s :
  self_sites s = ∅ -> update_ancestral_state i l r s = Ok (tt, s).
Proof.
  intros He. unfold update_ancestral_state, bind at 1, get.
  induction (ts_sites (self_ts s)) as [|site sites IH]; simpl; [reflexivity|].
  unfold bind at 1. unfold bind at 1, get.
  rewrite He, lookup_empty. simpl. exact IH.
Qed.

Lemma alleles_updated_no_site s i l r :
  self_sites s = ∅ -> alleles_updated s i l r = true.
Proof.
  intros He. unfold alleles_updated. apply forallb_forall. intros site _.
  rewrite He, lookup_empty. reflexivity.
Qed.



(** ** Finalisation without any recorded edgeset *)

(** C10. When the main loop ends with the squash buffer still [None]
    (no call of [record_edgeset] has happened, since every call leaves
    the buffer filled), [simplify] does not return tables: the unpacking
    of [self.last_edgeset] raises [TypeError]. *)
Theorem simplify_fails_without_edgeset :
  forall fuel ts sample s0 s1,
    init ts sample = Ok s0 ->
    main_loop fuel (the_parents ts) s0 = Ok (tt, s1) ->
    self_last_edgeset s1 = None ->
    simplify fuel ts sample = Raise TypeError.
Proof.
  intros fuel ts sample s0 s1 Hi Hl Hn.
  assert (Hts : self_ts s0 = ts).
  { revert Hi. apply (init_frame (fun s => self_ts s = ts));
      try (intros; assumption).
    - intros. apply frame_record_mutations; intros; assumption.
    - reflexivity. }
  unfold simplify. rewrite Hi. simpl. unfold run, bind at 1, get.
  rewrite Hts. unfold bind. rewrite Hl. unfold finalise, bind, get.
  rewrite Hn. reflexivity.
Qed.

Lemma simplify_fails_without_edgeset_witness :
  simplify 50 ts_pairwise [0]%nat = Raise TypeError.
Proof.
  destruct (init ts_pairwise [0]%nat) as [s0|e|] eqn:Ei;
    [|vm_compute in Ei; discriminate..].
  destruct (main_loop 50 (the_parents ts_pairwise) s0) as [[[] s1]|e|] eqn:El.
  - apply (simplify_fails_without_edgeset 50 ts_pairwise [0]%nat s0 s1 Ei El).
    assert (Hv : match rbind (init ts_pairwise [0]%nat)
                         (main_loop 50 (the_parents ts_pairwise)) with
                 | Ok q => self_last_edgeset q.2 = None
                 | _ => False
                 end) by (vm_compute; reflexivity).
    rewrite Ei in Hv. unfold rbind in Hv. rewrite El in Hv. exact Hv.
  - exfalso.
    assert (Hv : is_ok (rbind (init ts_pairwise [0]%nat)
                          (main_loop 50 (the_parents ts_pairwise))) = true)
      by (vm_compute; reflexivity).
    rewrite Ei in Hv. unfold rbind in Hv. rewrite El in Hv. discriminate Hv.
  - exfalso.
    assert (Hv : is_ok (rbind (init ts_pairwise [0]%nat)
                          (main_loop 50 (the_parents ts_pairwise))) = true)
      by (vm_compute; reflexivity).
    rewrite Ei in Hv. unfold rbind in Hv. rewrite El in Hv. discriminate Hv.
Defined.

(** ** The sample list is not validated *)

Lemma for_each_ok {T : Type} (I : Simplifier -> Prop) (l : list T) body :
  (forall v s, I s -> exists s', body v s = Ok (tt, s') /\ I s') ->
  forall s, I s -> exists s', for_each l body s = Ok (tt, s') /\ I s'.
Proof.
  intros Hb. induction l as [|v l IH]; intros s Hs; simpl.
  - exists s. split; [reflexivity|exact Hs].
  - destruct (Hb v s Hs) as (s1 & E1 & H1). unfold bind. rewrite E1.
    apply IH. exact H1.
Qed.

Lemma record_mutations_ok input_id left right output_id s :
  exists s',
    record_mutations input_id left right output_id s = Ok (tt, s') /\
    self_ts s' = self_ts s /\
    self_node_table s' = self_node_table s /\
    self_num_output_nodes s' = self_num_output_nodes s /\
    self_num_used_segments s' = self_num_used_segments s /\
    self_m s' = self_m s.
Proof.
  set (I := fun s' : Simplifier =>
              self_ts s' = self_ts s /\
              self_node_table s' = self_node_table s /\
              self_num_output_nodes s' = self_num_output_nodes s /\
              self_num_used_segments s' = self_num_used_segments s /\
              self_m s' = self_m s).
  unfold record_mutations, bind at 1, get.
  apply (for_each_ok I); [|repeat split].
  intros site s1 H1. destruct (_ && _); [|exists s1; split; [reflexivity|exact H1]].
  apply (for_each_ok I); [|exact H1].
  intros mu s2 H2. unfold record_mutation_at.
  destruct (Nat.eqb _ _); [|exists s2; split; [reflexivity|exact H2]].
  unfold bind, get, modify.
  destruct (self_sites s2 !! Site.position site);
    (eexists; split; [reflexivity|exact H2]).
Qed.

Lemma init_sample_ok j sample_id s node :
  ts_nodes (self_ts s) !! sample_id = Some node ->
  exists s',
    init_sample j sample_id s = Ok (tt, s') /\
    self_ts s' = self_ts s /\
    length (self_node_table s') = S (length (self_node_table s)) /\
    self_num_used_segments s' = self_num_used_segments s + 1.
Proof.
  intros Hn. unfold init_sample, record_sample_node, bind, get, alloc_segment,
    modify, lift, ts_node. simpl. rewrite Hn. simpl.
  match goal with
  | |- exists s', record_mutations ?i ?l ?r ?o ?s1 = _ /\ _ =>
      destruct (record_mutations_ok i l r o s1) as (s' & E & H1 & H2 & _ & H4 & _)
  end.
  exists s'. split; [exact E|]. rewrite H1, H2, H4. simpl.
  rewrite length_app. simpl. repeat split; lia.
Qed.

Lemma init_sample_bad j sample_id s :
  ts_nodes (self_ts s) !! sample_id = None ->
  init_sample j sample_id s = Raise IndexError.
Proof.
  intros Hn. unfold init_sample, record_sample_node, bind, get, alloc_segment,
    modify, lift, ts_node. simpl. rewrite Hn. reflexivity.
Qed.

Lemma init_samples_ok sample : forall j s,
  Forall (fun id => (id < num_nodes (self_ts s))%nat) sample ->
  exists s',
    init_samples j sample s = Ok (tt, s') /\
    length (self_node_table s')
      = (length (self_node_table s) + length sample)%nat /\
    self_num_used_segments s'
      = self_num_used_segments s + Z.of_nat (length sample).
Proof.
  induction sample as [|id rest IH]; intros j s Hall; simpl.
  - exists s. repeat split; lia.
  - inversion Hall as [|? ? Hid Hrest]; subst.
    destruct (lookup_lt_is_Some_2 (ts_nodes (self_ts s)) id Hid) as [node Hn].
    destruct (init_sample_ok j id s node Hn) as (s1 & E1 & Hts & Hlen & Hused).
    unfold bind. rewrite E1.
    destruct (IH (S j) s1) as (s2 & E2 & Hlen2 & Hused2).
    { rewrite Hts. exact Hrest. }
    exists s2. split; [exact E2|]. split; lia.
Qed.

Lemma init_samples_bad sample : forall j s,
  Exists (fun id => (num_nodes (self_ts s) <= id)%nat) sample ->
  init_samples j sample s = Raise IndexError.
Proof.
  induction sample as [|id rest IH]; intros j s Hex; simpl.
  - inversion Hex.
  - unfold bind.
    destruct (ts_nodes (self_ts s) !! id) as [node|] eqn:Hn.
    + destruct (init_sample_ok j id s node Hn) as (s1 & E1 & Hts & _).
      rewrite E1. apply IH. rewrite Hts.
      inversion Hex as [? ? Hid|? ? Hrest]; subst; [|exact Hrest].
      apply lookup_lt_Some in Hn. unfold num_nodes in Hid. lia.
    + rewrite (init_sample_bad j id s Hn). reflexivity.
Qed.

(** C8, a sample list with a duplicate is accepted. *)
Lemma duplicate_sample_accepted :
  ~ NoDup [0; 0; 1]%nat /\
  is_ok (simplify 50 ts_pairwise [0; 0; 1]%nat) = true.
Proof.
  split; [|vm_compute; reflexivity].
  intros Hd. apply NoDup_cons in Hd as [Hn _]. apply Hn. left.
Qed.

(** C8, as amended. The constructor does not look for duplicates: for
    every sample list whose ids are all below [num_nodes], duplicates
    or not, it succeeds, with one node row and one allocated segment
    per list entry.  A list that contains an id [>= num_nodes] makes
    [simplify] fail in the node lookup of the constructor, before the
    sweep. *)
Theorem sample_list_checks :
  forall ts sample,
    (Forall (fun id => (id < num_nodes ts)%nat) sample ->
     exists s, init ts sample = Ok s /\
               length (self_node_table s) = length sample /\
               self_num_used_segments s = Z.of_nat (length sample)) /\
    (Exists (fun id => (num_nodes ts <= id)%nat) sample ->
     forall fuel, simplify fuel ts sample = Raise IndexError).
Proof.
  intros ts sample. split.
  - intros Hall.
    destruct (init_samples_ok sample 0 (empty_simplifier ts sample) Hall)
      as (s1 & E1 & Hlen & Hused).
    unfold init, init_body, bind. rewrite E1. simpl.
    eexists. split; [reflexivity|]. simpl. simpl in Hlen, Hused. split; lia.
  - intros Hex fuel. unfold simplify, init, init_body, bind.
    rewrite (init_samples_bad sample 0 (empty_simplifier ts sample) Hex).
    reflexivity.
Qed.

Lemma sample_list_checks_witness :
  (exists s, init ts_pairwise [0; 0; 1]%nat = Ok s /\
             length (self_node_table s) = 3%nat /\
             self_num_used_segments s = 3) /\
  simplify 50 ts_pairwise [0; 9]%nat = Raise IndexError.
Proof.
  split.
  - apply (proj1 (sample_list_checks ts_pairwise [0; 0; 1]%nat)).
    repeat constructor.
  - apply (proj2 (sample_list_checks ts_pairwise [0; 9]%nat)).
    right. left. unfold num_nodes. simpl. lia.
Defined.

(** ** Inversion of the primitive operations *)

Lemma ret_ok {T : Type} (v w : T) s s' :
  ret v s = Ok (w, s') -> w = v /\ s' = s.
Proof. intros [= <- <-]. auto. Qed.

Lemma get_ok s w s' : get s = Ok (w, s') -> w = s /\ s' = s.
Proof. intros [= <- <-]. auto. Qed.

Lemma modify_ok f s w s' : modify f s = Ok (w, s') -> s' = f s.
Proof. intros [= <- <-]. auto. Qed.

Lemma load_ok a s x s' :
  load a s = Ok (x, s') -> s' = s /\ self_store s !! a = Some x.
Proof.
  unfold load. destruct (self_store s !! a); [|discriminate].
  intros [= <- <-]. auto.
Qed.

Lemma update_ok a f s w s' :
  update a f s = Ok (w, s') ->
  exists x, self_store s !! a = Some x /\
            s' = set_store s (<[a := f x]> (self_store s)).
Proof.
  unfold update. destruct (self_store s !! a) as [x|]; [|discriminate].
  intros [= <- <-]. eauto.
Qed.

Lemma alloc_ok l r n p q s a s' :
  alloc_segment l r n p q s = Ok (a, s') ->
  a = length (self_store s) /\
  s' = set_num_used_segments
         (set_store s (self_store s ++ [Segment.mk l r n p q]))
         (self_num_used_segments s + 1).
Proof. intros [= <- <-]. auto. Qed.

Lemma free_ok u s w s' :
  free_segment u s = Ok (w, s') ->
  s' = set_num_used_segments s (self_num_used_segments s - 1).
Proof. intros [= <- <-]. auto. Qed.

Lemma heappush_ok H e s H' s' :
  heappush H e s = Ok (H', s') ->
  H' = heap_insert (self_store s) e H /\ s' = s.
Proof. intros [= <- <-]. auto. Qed.

Lemma S_get_ok k s v s' :
  S_get k s = Ok (v, s') -> s' = s /\ self_S s !! k = Some v.
Proof.
  unfold S_get. destruct (self_S s !! k); simpl; [|discriminate].
  intros [= <- <-]. auto.
Qed.

Lemma S_set_ok k v s w s' :
  S_set k v s = Ok (w, s') -> s' = set_S s (<[k := v]> (self_S s)).
Proof. intros [= <- <-]. auto. Qed.

Lemma S_floor_key_ok k s v s' :
  S_floor_key k s = Ok (v, s') -> s' = s /\ floor_key (self_S s) k = Ok v.
Proof.
  unfold S_floor_key. destruct (floor_key (self_S s) k); simpl; try discriminate.
  intros [= <- <-]. auto.
Qed.

Lemma S_succ_key_ok k s v s' :
  S_succ_key k s = Ok (v, s') -> s' = s /\ succ_key (self_S s) k = Ok v.
Proof.
  unfold S_succ_key. destruct (succ_key (self_S s) k); simpl; try discriminate.
  intros [= <- <-]. auto.
Qed.

(** Decomposes a hypothesis that says a monadic computation returned. *)
Ltac minv_step :=
  match goal with
  | H : bind _ _ _ = Ok _ |- _ =>
      let w := fresh "w" in let s := fresh "s" in
      let H1 := fresh "Hm" in let H2 := fresh "Hm" in
      apply bind_ok in H as (w & s & H1 & H2)
  | H : ret _ _ = Ok _ |- _ => apply ret_ok in H as [? ?]; subst
  | H : get _ = Ok _ |- _ => apply get_ok in H as [? ?]; subst
  | H : modify _ _ = Ok _ |- _ => apply modify_ok in H; subst
  | H : load _ _ = Ok _ |- _ =>
      let E := fresh "Hload" in apply load_ok in H as [? E]; subst
  | H : update _ _ _ = Ok _ |- _ =>
      let x := fresh "x" in let E := fresh "Hupd" in
      apply update_ok in H as (x & E & ?); subst
  | H : alloc_segment _ _ _ _ _ _ = Ok _ |- _ =>
      apply alloc_ok in H as [? ?]; subst
  | H : free_segment _ _ = Ok _ |- _ => apply free_ok in H; subst
  | H : heappush _ _ _ = Ok _ |- _ => apply heappush_ok in H as [? ?]; subst
  | H : S_get _ _ = Ok _ |- _ =>
      let E := fresh "HS" in apply S_get_ok in H as [? E]; subst
  | H : S_set _ _ _ = Ok _ |- _ => apply S_set_ok in H; subst
  | H : S_floor_key _ _ = Ok _ |- _ =>
      let E := fresh "Hfloor" in apply S_floor_key_ok in H as [? E]; subst
  | H : S_succ_key _ _ = Ok _ |- _ =>
      let E := fresh "Hsucc" in apply S_succ_key_ok in H as [? E]; subst
  | H : raise _ _ = Ok _ |- _ => discriminate H
  | H : stuck _ = Ok _ |- _ => discriminate H
  end.

Ltac minv := repeat minv_step.

(** ** Which fields the recording methods leave alone *)

Lemma same_segments_refl s : same_segments s s.
Proof. repeat split. Qed.

Lemma same_segments_trans s1 s2 s3 :
  same_segments s1 s2 -> same_segments s2 s3 -> same_segments s1 s3.
Proof.
  unfold same_segments. intros (-> & -> & -> & ->) (-> & -> & -> & ->). auto.
Qed.

Lemma record_mutations_same i l r o s v s' :
  record_mutations i l r o s = Ok (v, s') ->
  same_segments s s' /\ self_S s' = self_S s /\
  self_last_edgeset s' = self_last_edgeset s.
Proof.
  intros Hr.
  assert (Hp : preserves (fun s' => same_segments s s' /\ self_S s' = self_S s /\
                            self_last_edgeset s' = self_last_edgeset s)
                 (record_mutations i l r o)).
  { apply frame_record_mutations; intros; assumption. }
  eapply Hp; [|exact Hr]. repeat split.
Qed.

Lemma update_ancestral_state_same i l r s v s' :
  update_ancestral_state i l r s = Ok (v, s') ->
  same_segments s s' /\ self_S s' = self_S s /\
  self_last_edgeset s' = self_last_edgeset s.
Proof.
  intros Hr.
  assert (Hp : preserves (fun s' => same_segments s s' /\ self_S s' = self_S s /\
                            self_last_edgeset s' = self_last_edgeset s)
                 (update_ancestral_state i l r)).
  { apply frame_update_ancestral_state; intros; assumption. }
  eapply Hp; [|exact Hr]. repeat split.
Qed.

Lemma check_or_record_node_same i s v s' :
  check_or_record_node i s = Ok (v, s') ->
  same_segments s s' /\ self_S s' = self_S s /\
  self_last_edgeset s' = self_last_edgeset s.
Proof.
  intros Hr.
  assert (Hp : preserves (fun s' => same_segments s s' /\ self_S s' = self_S s /\
                            self_last_edgeset s' = self_last_edgeset s)
                 (check_or_record_node i)).
  { unfold check_or_record_node. pres; apply preserves_modify; intros; assumption. }
  eapply Hp; [|exact Hr]. repeat split.
Qed.

Lemma record_edgeset_same l r p c s v s' :
  record_edgeset l r p c s = Ok (v, s') ->
  same_segments s s' /\ self_S s' = self_S s /\
  exists row, self_last_edgeset s' = Some row /\
              row_right row = r /\ row_parent row = p.
Proof.
  unfold record_edgeset, bind, get, modify.
  destruct (self_last_edgeset s) as [last|].
  - destruct (squash_condition _ _ _ _); intros [= <- <-];
      (split; [repeat split|]; split; [reflexivity|]);
      eexists; simpl; repeat split.
  - intros [= <- <-]. split; [repeat split|]. split; [reflexivity|].
    eexists; simpl; repeat split.
Qed.

(** ** The segment [alpha] of an overlap iteration *)

Lemma drain_ok l H : forall X r_max s H' X' r' s',
  drain l H X r_max s = Ok (H', X', r', s') ->
  s' = s /\
  forall x, x ∈ X' -> x ∈ X \/ is_Some (self_store s !! x).
Proof.
  induction H as [|[k x] H IH]; intros X r_max s H' X' r' s'; simpl.
  - intros [= <- <- <- <-]. auto.
  - destruct (k =? l).
    + intros Hd. minv. apply IH in Hm0 as [-> Hx]. split; [reflexivity|].
      intros y Hy. destruct (Hx y Hy) as [Hin|Hs]; [|auto].
      apply elem_of_app in Hin as [Hin|Hin]; [auto|].
      apply list_elem_of_singleton in Hin as ->. right. eauto.
    + intros [= <- <- <- <-]. auto.
Qed.

Lemma S_ensure_ok k s w s' :
  S_ensure k s = Ok (w, s') ->
  ensure_key (self_S s) k = Ok (self_S s') /\
  same_segments s s' /\ self_last_edgeset s' = self_last_edgeset s.
Proof.
  unfold S_ensure, ensure_key. intros He. minv.
  destruct (self_S s !! k) as [v|] eqn:Ek.
  - minv. repeat split.
  - minv. rewrite Hfloor. simpl. rewrite HS. simpl. repeat split.
Qed.

Lemma overlap_walk_same fuel : forall r r_max n s v s',
  overlap_walk fuel r r_max n s = Ok (v, s') ->
  same_segments s s' /\ self_last_edgeset s' = self_last_edgeset s.
Proof.
  induction fuel as [|fuel IH]; intros r r_max n s v s'; simpl.
  - destruct (r <? r_max); intros Hw; minv; [|repeat split].
    destruct (negb _); minv. repeat split.
  - destruct (r <? r_max); intros Hw; minv; [|repeat split].
    destruct (negb _); minv; [|repeat split].
    match goal with
    | H : overlap_walk _ _ _ _ _ = Ok _ |- _ => apply IH in H as [Hs He]
    end.
    split; [|exact He].
    eapply same_segments_trans; [|exact Hs]. repeat split.
Qed.

Lemma overlap_endpoint_ok fuel input_id l r_max lenX u s r alpha s' :
  overlap_endpoint fuel input_id l r_max lenX u s = Ok (r, alpha, s') ->
  self_last_edgeset s' = self_last_edgeset s /\
  self_A s' = self_A s /\
  exists v, overlap_count (self_S s) l r_max = Ok v /\
    if v =? lenX
    then alpha = None /\ self_store s' = self_store s
    else alpha = Some (length (self_store s)) /\
         self_store s' = self_store s ++ [Segment.mk l r u None None].
Proof.
  unfold overlap_endpoint. intros He.
  apply bind_ok in He as (? & s1 & He1 & He).
  apply bind_ok in He as (? & s2 & He2 & He).
  apply bind_ok in He as (w1 & s3 & He3 & He).
  apply S_ensure_ok in He1 as (E1 & (St1 & A1 & _) & L1).
  apply S_ensure_ok in He2 as (E2 & (St2 & A2 & _) & L2).
  apply S_get_ok in He3 as [-> HS].
  assert (Hv : overlap_count (self_S s) l r_max = Ok w1).
  { unfold overlap_count. rewrite E1. simpl. rewrite E2. simpl. rewrite HS.
    reflexivity. }
  destruct (w1 =? lenX) eqn:Ev.
  - apply bind_ok in He as (? & s4 & He4 & He). apply S_set_ok in He4 as ->.
    apply bind_ok in He as (r' & s5 & He5 & He).
    apply S_succ_key_ok in He5 as [-> _].
    apply bind_ok in He as (? & s6 & He6 & He).
    apply update_ancestral_state_same in He6 as ((St3 & A3 & _) & _ & L3).
    apply ret_ok in He as [[= -> ->] ->].
    simpl in *. split; [congruence|]. split; [congruence|].
    exists w1. split; [exact Hv|]. rewrite Ev. split; [reflexivity|congruence].
  - apply bind_ok in He as (r' & s4 & He4 & He).
    apply overlap_walk_same in He4 as ((St3 & A3 & _) & L3).
    apply bind_ok in He as (a & s5 & He5 & He).
    apply alloc_ok in He5 as [-> ->]. apply ret_ok in He as [[= -> ->] ->].
    simpl. split; [congruence|]. split; [congruence|].
    exists w1. split; [exact Hv|]. rewrite Ev. rewrite St3, St2, St1.
    split; reflexivity.
Qed.

Lemma overlap_update_ok X r u : forall H cs s H' cs' s',
  overlap_update X r u H cs s = Ok (H', cs', s') ->
  length (self_store s') = length (self_store s) /\
  self_A s' = self_A s /\
  self_last_edgeset s' = self_last_edgeset s /\
  forall a, a ∉ X -> self_store s' !! a = self_store s !! a.
Proof.
  induction X as [|x X IH]; intros H cs s H' cs' s'; simpl.
  - intros [= <- <- <-]. auto.
  - intros Hu. apply bind_ok in Hu as (xs & s1 & Hl & Hu).
    apply load_ok in Hl as [-> Hx].
    apply bind_ok in Hu as (H1 & s2 & Hstep & Hu).
    assert (Hs2 : length (self_store s2) = length (self_store s) /\
                  self_A s2 = self_A s /\
                  self_last_edgeset s2 = self_last_edgeset s /\
                  forall a, a <> x -> self_store s2 !! a = self_store s !! a).
    { destruct (Segment.right xs =? r).
      - minv. destruct (Segment.next xs); minv; simpl; auto.
      - destruct (Segment.right xs >? r); minv; simpl; auto.
        rewrite length_insert. repeat split.
        intros a Ha. apply list_lookup_insert_ne. auto. }
    destruct Hs2 as (Hl & HA & HL & Hs).
    apply IH in Hu as (Hl' & HA' & HL' & Hs').
    split; [congruence|]. split; [congruence|]. split; [congruence|].
    intros a Ha. apply not_elem_of_cons in Ha as [Hax HaX].
    rewrite Hs' by exact HaX. apply Hs. exact Hax.
Qed.

Lemma merge_tail_ok input_id alpha z s z' s' :
  merge_tail input_id alpha z s = Ok (z', s') ->
  self_last_edgeset s' = self_last_edgeset s /\
  length (self_store s') = length (self_store s) /\
  match alpha with
  | None => z' = z /\ self_store s' = self_store s /\ self_A s' = self_A s
  | Some a =>
      z' = Some a /\
      (exists sg sg', self_store s !! a = Some sg /\
                      self_store s' !! a = Some sg' /\
                      Segment.left sg' = Segment.left sg /\
                      Segment.right sg' = Segment.right sg /\
                      Segment.node sg' = Segment.node sg) /\
      match z with
      | None => self_A s' = <[input_id := a]> (self_A s)
      | Some za =>
          self_A s' = self_A s /\
          exists zs, self_store s' !! za = Some zs /\ Segment.next zs = Some a
      end
  end.
Proof.
  unfold merge_tail. destruct alpha as [a|]; [|intros Hm; minv; auto].
  intros Hm. apply bind_ok in Hm as (u1 & s1 & Hz & Hm).
  apply bind_ok in Hm as (u2 & s2 & Hp & Hm).
  apply update_ok in Hp as (xa & Hx & ->).
  apply bind_ok in Hm as (als & s3 & Hl & Hm). apply load_ok in Hl as [-> Hals].
  apply bind_ok in Hm as (u3 & s4 & Hr & Hm).
  apply record_mutations_same in Hr as ((St & HA & _) & _ & HL).
  apply ret_ok in Hm as [-> ->]. rewrite HL, St, HA. simpl.
  rewrite length_insert.
  assert (Ha : (a < length (self_store s1))%nat) by (eapply lookup_lt_Some; eauto).
  destruct z as [za|].
  - apply update_ok in Hz as (zs & Hzs & ->). simpl in *.
    rewrite length_insert in *.
    split; [reflexivity|]. split; [reflexivity|]. split; [reflexivity|].
    assert (Hza : (za < length (self_store s))%nat)
      by (eapply lookup_lt_Some; eauto).
    destruct (decide (za = a)) as [->|Hne].
    + rewrite list_lookup_insert_eq in Hx by exact Hza.
      injection Hx as <-. split.
      * exists zs, (Segment.set_prev (Some a) (Segment.set_next (Some a) zs)).
        rewrite list_lookup_insert_eq by (rewrite length_insert; exact Hza).
        repeat split. exact Hzs.
      * split; [reflexivity|]. eexists.
        rewrite list_lookup_insert_eq by (rewrite length_insert; exact Hza).
        split; reflexivity.
    + rewrite list_lookup_insert_ne in Hx by exact Hne. split.
      * exists xa, (Segment.set_prev (Some za) xa).
        rewrite list_lookup_insert_eq by (rewrite length_insert; exact Ha).
        repeat split. exact Hx.
      * split; [reflexivity|]. exists (Segment.set_next (Some a) zs).
        rewrite list_lookup_insert_ne by (intros Heq; apply Hne; auto).
        rewrite list_lookup_insert_eq by exact Hza. split; reflexivity.
  - apply modify_ok in Hz as ->. simpl in *.
    split; [reflexivity|]. split; [reflexivity|]. split; [reflexivity|].
    split; [|reflexivity].
    exists xa, (Segment.set_prev None xa).
    rewrite list_lookup_insert_eq by exact Ha. repeat split. exact Hx.
Qed.

(** C3, the subcase in which the overlap count reaches unity. On the
    four-leaf tree with the sample list [0, 1], the merge under node 4
    has [X] of length 2 and [S[0] == 2]: the iteration allocates no
    segment, node 4 gets no chain in [A], and [z] stays [None]. *)
Lemma overlap_at_unity_allocates_nothing :
  exists s0 H s1 loc s2,
    init ts_pairwise [0; 1]%nat = Ok s0 /\
    remove_ancestry 50 [Edgeset.mk 0 10 4 [0; 1]%nat] s0 = Ok (H, s1) /\
    length H = 2%nat /\
    self_S s1 !! 0 = Some 2 /\
    merge_iteration 50 4 0 (mkLocals H false None None) s1 = Ok (loc, s2) /\
    length (self_store s2) = length (self_store s1) /\
    self_A s2 !! 4%nat = None /\
    loc_z loc = None.
Proof.
  eexists _, _, _, _, _.
  split; [vm_compute; reflexivity|].
  split; [vm_compute; reflexivity|].
  split; [reflexivity|].
  split; [vm_compute; reflexivity|].
  split; [vm_compute; reflexivity|].
  split; [reflexivity|].
  split; [vm_compute; reflexivity|].
  reflexivity.
Qed.

(** C3, as amended. In an iteration of [merge_labeled_ancestors] with
    [|X| >= 2], let [v] be the overlap count [S[l]] that the test reads.
    If [v <> |X|], a segment [alpha] is allocated with left [l], with
    the right endpoint and the parent of the recorded edgeset, i.e.
    [(l, r, u)], and it is appended to the chain of [input_id]: it
    becomes [A[input_id]] when [z] is [None] and [z.next] otherwise.
    If [v == |X|] (overlap count reaching unity), no segment is
    allocated and neither [A] nor [z] changes. *)
Theorem overlap_iteration_alpha :
  forall fuel input_id l loc s loc' s' H X r_max0,
    drain l (loc_H loc) [] (self_m s + 1) s = Ok (H, X, r_max0, s) ->
    (2 <= length X)%nat ->
    merge_iteration fuel input_id l loc s = Ok (loc', s') ->
    exists v,
      overlap_count (self_S s) l (tighten r_max0 H) = Ok v /\
      if v =? Z.of_nat (length X) then
        length (self_store s') = length (self_store s) /\
        self_A s' = self_A s /\
        loc_z loc' = loc_z loc
      else
        let a := length (self_store s) in
        loc_z loc' = Some a /\
        length (self_store s') = S a /\
        (exists sg row u,
           self_store s' !! a = Some sg /\
           Segment.left sg = l /\
           loc_u loc' = Some u /\
           Segment.node sg = u /\
           self_last_edgeset s' = Some row /\
           row_right row = Segment.right sg /\
           row_parent row = u) /\
        match loc_z loc with
        | None => self_A s' = <[input_id := a]> (self_A s)
        | Some za =>
            self_A s' = self_A s /\
            exists zs, self_store s' !! za = Some zs /\
                       Segment.next zs = Some a
        end.
Proof.
  intros fuel input_id l loc s loc' s' H X r_max0 Hd HX Hm.
  destruct (drain_ok _ _ _ _ _ _ _ _ _ Hd) as [_ HXs].
  unfold merge_iteration, bind at 1, get in Hm. unfold bind at 1 in Hm.
  rewrite Hd in Hm.
  destruct X as [|x [|x' X]]; [simpl in HX; lia..|].
  set (XX := x :: x' :: X) in *.
  apply bind_ok in Hm as ([[H' alpha] u'] & s1 & Ho & Hm).
  apply bind_ok in Hm as (z' & s2 & Ht & Hm).
  apply ret_ok in Hm as [-> ->]. cbn [loc_z loc_u].
  unfold merge_overlap in Ho.
  apply bind_ok in Ho as (u1 & sa & Hu & Ho).
  assert (Hsa : same_segments s sa /\ self_S sa = self_S s /\
                self_last_edgeset sa = self_last_edgeset s).
  { destruct (negb (loc_coalescence loc)).
    - apply bind_ok in Hu as (v & sv & Hc & Hu). apply ret_ok in Hu as [_ ->].
      apply check_or_record_node_same in Hc. exact Hc.
    - apply ret_ok in Hu as [_ ->]. repeat split. }
  destruct Hsa as ((Sta & Aa & _) & Sa & La).
  destruct u1 as [u|]; [|discriminate Ho].
  apply bind_ok in Ho as ([r alpha0] & sb & He & Ho).
  apply bind_ok in Ho as ([H2 children] & sc & Hupd & Ho).
  apply bind_ok in Ho as (uu & sd & Hrec & Ho).
  apply ret_ok in Ho as [[= -> -> ->] ->].
  apply overlap_endpoint_ok in He as (Lb & Ab & v & Hv & Hcase).
  apply overlap_update_ok in Hupd as (Lenc & Ac & Lc & Stc).
  apply record_edgeset_same in Hrec as ((Std & Ad & _) & _ & row & Hrow & Hrr & Hrp).
  apply merge_tail_ok in Ht as (Lt & Lent & Htail).
  exists v. rewrite <- Sa. split; [exact Hv|].
  destruct (v =? Z.of_nat (length XX)).
  - destruct Hcase as [-> Stb]. destruct Htail as (-> & St2 & A2).
    split; [congruence|]. split; [congruence|]. reflexivity.
  - destruct Hcase as [-> Stb].
    destruct Htail as (-> & (sg & sg' & Hsg & Hsg' & Hl & Hr & Hn) & Hz).
    rewrite <- Sta. split; [reflexivity|].
    split.
    { rewrite Lent, Std, Lenc, Stb, length_app. simpl. lia. }
    split.
    { exists sg', row, u. rewrite Std, Stc, Stb in Hsg.
      - rewrite list_lookup_middle in Hsg by reflexivity.
        injection Hsg as <-. simpl in *.
        repeat split; try assumption; try congruence.
      - intros Hin. destruct (HXs _ Hin) as [Hnil|Hsome].
        + apply elem_of_nil in Hnil. contradiction.
        + apply lookup_lt_is_Some in Hsome. rewrite Sta in Hsome. lia. }
    destruct (loc_z loc) as [za|].
    + destruct Hz as [A2 Hzs]. split; [congruence|exact Hzs].
    + rewrite Hz, Ad, Ac, Ab, Aa. reflexivity.
Qed.

Lemma overlap_iteration_alpha_witness :
  exists s0 H s1 loc s2,
    init ts_pairwise [0; 1; 2; 3]%nat = Ok s0 /\
    remove_ancestry 50 [Edgeset.mk 0 10 4 [0; 1]%nat] s0 = Ok (H, s1) /\
    merge_iteration 50 4 0 (mkLocals H false None None) s1 = Ok (loc, s2) /\
    loc_z loc = Some (length (self_store s1)) /\
    self_A s2 = <[4%nat := length (self_store s1)]> (self_A s1).
Proof.
  destruct (init ts_pairwise [0; 1; 2; 3]%nat) as [s0|e|] eqn:Ei;
    [|vm_compute in Ei; discriminate..].
  destruct (remove_ancestry 50 [Edgeset.mk 0 10 4 [0; 1]%nat] s0)
    as [[H s1]|e|] eqn:Er.
  2,3: exfalso;
    assert (Hv : is_ok (rbind (init ts_pairwise [0; 1; 2; 3]%nat)
                   (remove_ancestry 50 [Edgeset.mk 0 10 4 [0; 1]%nat])) = true)
      by (vm_compute; reflexivity);
    rewrite Ei in Hv; unfold rbind in Hv; rewrite Er in Hv; discriminate Hv.
  destruct (merge_iteration 50 4 0 (mkLocals H false None None) s1)
    as [[loc s2]|e|] eqn:Em.
  2,3: exfalso;
    assert (Hv : is_ok (rbind (rbind (init ts_pairwise [0; 1; 2; 3]%nat)
                   (remove_ancestry 50 [Edgeset.mk 0 10 4 [0; 1]%nat]))
                   (fun p => merge_iteration 50 4 0
                               (mkLocals p.1 false None None) p.2)) = true)
      by (vm_compute; reflexivity);
    rewrite Ei in Hv; unfold rbind in Hv; rewrite Er in Hv; simpl in Hv;
    rewrite Em in Hv; discriminate Hv.
  assert (Hfacts :
    match rbind (init ts_pairwise [0; 1; 2; 3]%nat)
            (remove_ancestry 50 [Edgeset.mk 0 10 4 [0; 1]%nat]) with
    | Ok (H, s1) =>
        exists H' X r_max0,
          drain 0 H [] (self_m s1 + 1) s1 = Ok (H', X, r_max0, s1) /\
          (2 <= length X)%nat /\
          overlap_count (self_S s1) 0 (tighten r_max0 H') = Ok 4 /\
          length X = 2%nat
    | _ => False
    end).
  { vm_compute. eexists _, _, _. split; [reflexivity|]. split; [lia|].
    split; reflexivity. }
  rewrite Ei in Hfacts. unfold rbind in Hfacts. rewrite Er in Hfacts.
  destruct Hfacts as (H' & X & r_max0 & Hd & HX & Hc & HlenX).
  exists s0, H, s1, loc, s2.
  split; [reflexivity|]. split; [exact Er|]. split; [exact Em|].
  destruct (overlap_iteration_alpha 50 4 0 (mkLocals H false None None)
              s1 loc s2 H' X r_max0 Hd HX Em) as (v & Hv & Hcase).
  rewrite Hc in Hv. injection Hv as <-. rewrite HlenX in Hcase.
  simpl in Hcase. destruct Hcase as (Hz & _ & _ & HA). split; assumption.
Defined.

(** ** Chain sortedness: the regions of the store *)

Lemma linked_lt m st P a : linked m st P a -> (a < length st)%nat.
Proof. intros (x & Hx & _). eapply lookup_lt_Some. exact Hx. Qed.

Lemma linked_mono m st (P P' : gset addr) a :
  P ⊆ P' -> linked m st P a -> linked m st P' a.
Proof.
  intros Hsub (x & Hx & Hv & Hn). exists x. split; [exact Hx|].
  split; [exact Hv|]. intros b Hb. destruct (Hn b Hb) as [Hin Hy].
  split; [apply Hsub; exact Hin|exact Hy].
Qed.

Lemma linked_app m st P a sg :
  linked m st P a -> linked m (st ++ [sg]) P a.
Proof.
  intros (x & Hx & Hv & Hn). exists x. split.
  - apply lookup_app_l_Some. exact Hx.
  - split; [exact Hv|]. intros b Hb. destruct (Hn b Hb) as (Hin & y & Hy & Hle).
    split; [exact Hin|]. exists y. split; [|exact Hle].
    apply lookup_app_l_Some. exact Hy.
Qed.

(** An update outside a region does not disturb it. *)
Lemma linked_insert_outside m st (P : gset addr) a0 x' a :
  a0 ∉ P -> a ∈ P -> linked m st P a -> linked m (<[a0 := x']> st) P a.
Proof.
  intros Hout Hin (x & Hx & Hv & Hn). exists x. split.
  - rewrite list_lookup_insert_ne; [exact Hx|]. intros ->. contradiction.
  - split; [exact Hv|]. intros b Hb. destruct (Hn b Hb) as (Hbin & y & Hy & Hle).
    split; [exact Hbin|]. exists y. split; [|exact Hle].
    rewrite list_lookup_insert_ne; [exact Hy|]. intros ->. contradiction.
Qed.

(** An update that does not move [left] down does not disturb the
    other segments. *)
Lemma linked_insert_left m st (P : gset addr) a0 x x' a :
  st !! a0 = Some x -> Segment.left x <= Segment.left x' ->
  a <> a0 -> linked m st P a -> linked m (<[a0 := x']> st) P a.
Proof.
  intros H0 Hl Hne (xa & Hx & Hv & Hn). exists xa. split.
  - rewrite list_lookup_insert_ne by auto. exact Hx.
  - split; [exact Hv|]. intros b Hb. destruct (Hn b Hb) as (Hbin & y & Hy & Hle).
    split; [exact Hbin|]. destruct (decide (b = a0)) as [->|Hb0].
    + exists x'. split.
      * apply list_lookup_insert_eq. eapply lookup_lt_Some. exact H0.
      * rewrite H0 in Hy. injection Hy as <-. lia.
    + exists y. split; [|exact Hle].
      rewrite list_lookup_insert_ne by auto. exact Hy.
Qed.

(** The updated segment itself, when its successor is unchanged and its
    interval shrinks. *)
Lemma linked_insert_shrink m st (P : gset addr) a x x' :
  st !! a = Some x -> linked m st P a ->
  Segment.left x <= Segment.left x' -> Segment.right x' <= Segment.right x ->
  Segment.left x' < Segment.right x' ->
  Segment.next x' = Segment.next x ->
  linked m (<[a := x']> st) P a.
Proof.
  intros H0 (x0 & Hx & [Hlt Hm] & Hn) Hl Hr Hv Hnx.
  rewrite H0 in Hx. injection Hx as <-.
  exists x'. split.
  - apply list_lookup_insert_eq. eapply lookup_lt_Some. exact H0.
  - split; [split; lia|]. intros b Hb. rewrite Hnx in Hb.
    destruct (Hn b Hb) as (Hbin & y & Hy & Hle). split; [exact Hbin|].
    destruct (decide (b = a)) as [->|Hne].
    + rewrite H0 in Hy. injection Hy as <-. lia.
    + exists y. split; [|lia]. rewrite list_lookup_insert_ne by auto. exact Hy.
Qed.

Lemma same_next_app (P : gset addr) m st sg :
  (forall a, a ∈ P -> linked m st P a) -> same_next P st (st ++ [sg]).
Proof.
  intros HP b y' Hb Hy'. exists y'. split; [|reflexivity].
  apply HP, linked_lt in Hb. rewrite lookup_app_l in Hy' by exact Hb.
  exact Hy'.
Qed.

Lemma same_next_insert (P : gset addr) st a x x' :
  st !! a = Some x -> (a ∈ P -> Segment.next x' = Segment.next x) ->
  same_next P st (<[a := x']> st).
Proof.
  intros H0 Hn b y' Hb Hy'. destruct (decide (b = a)) as [->|Hne].
  - rewrite list_lookup_insert_eq in Hy' by (eapply lookup_lt_Some; exact H0).
    injection Hy' as <-. exists x. split; [exact H0|]. symmetry. auto.
  - rewrite list_lookup_insert_ne in Hy' by auto. eauto.
Qed.

Lemma same_next_subset (P P' : gset addr) st st' :
  P' ⊆ P -> same_next P st st' -> same_next P' st st'.
Proof. intros Hsub Hs b y' Hb. apply Hs. apply Hsub. exact Hb. Qed.

Lemma next_injective_transfer (P : gset addr) st st' :
  same_next P st st' -> next_injective st P -> next_injective st' P.
Proof.
  intros Hs Hi a b c x y Ha Hb Hx Hy Hnx Hny.
  destruct (Hs a x Ha Hx) as (x0 & Hx0 & Ex).
  destruct (Hs b y Hb Hy) as (y0 & Hy0 & Ey).
  apply (Hi a b c x0 y0); try assumption; congruence.
Qed.

Lemma next_injective_subset (P P' : gset addr) st :
  P' ⊆ P -> next_injective st P -> next_injective st P'.
Proof.
  intros Hsub Hi a b c x y Ha Hb. apply Hi; apply Hsub; assumption.
Qed.

Lemma no_pred_transfer (P : gset addr) st st' x :
  same_next P st st' -> no_pred st P x -> no_pred st' P x.
Proof.
  intros Hs Hn a y Ha Hy. destruct (Hs a y Ha Hy) as (y0 & Hy0 & Ey).
  rewrite <- Ey. apply (Hn a y0 Ha Hy0).
Qed.

Lemma no_pred_subset (P P' : gset addr) st x :
  P' ⊆ P -> no_pred st P x -> no_pred st P' x.
Proof. intros Hsub Hn a y Ha. apply Hn. apply Hsub. exact Ha. Qed.

(** A fresh address has no predecessor in a region. *)
Lemma no_pred_fresh m st (P : gset addr) :
  (forall a, a ∈ P -> linked m st P a) -> no_pred st P (length st).
Proof.
  intros HP a y Ha Hy Hn. destruct (HP a Ha) as (x & Hx & _ & Hnx).
  rewrite Hy in Hx. injection Hx as <-.
  destruct (Hnx _ Hn) as (_ & z & Hz & _). apply lookup_lt_Some in Hz. lia.
Qed.

Lemma linked_insert_no_pred m st (P : gset addr) a0 x' a :
  no_pred st P a0 -> a ∈ P -> a <> a0 ->
  linked m st P a -> linked m (<[a0 := x']> st) P a.
Proof.
  intros Hnp Hin Hne (x & Hx & Hv & Hn). exists x. split.
  - rewrite list_lookup_insert_ne by auto. exact Hx.
  - split; [exact Hv|]. intros b Hb. destruct (Hn b Hb) as (Hbin & y & Hy & Hle).
    split; [exact Hbin|]. exists y. split; [|exact Hle].
    rewrite list_lookup_insert_ne; [exact Hy|].
    intros ->. exact (Hnp a x Hin Hx Hb).
Qed.

Lemma head_ok_transfer (P : gset addr) st st' e :
  same_next P st st' ->
  (forall sg, st !! e.2 = Some sg ->
     exists sg', st' !! e.2 = Some sg' /\ Segment.left sg' = Segment.left sg) ->
  head_ok st P e -> head_ok st' P e.
Proof.
  intros Hs Hl (Hin & (sg & Hsg & Hk) & Hnp). split; [exact Hin|]. split.
  - destruct (Hl sg Hsg) as (sg' & Hsg' & Hl'). exists sg'. split; [exact Hsg'|].
    congruence.
  - eapply no_pred_transfer; eauto.
Qed.

Lemma heap_insert_perm st e H : heap_insert st e H ≡ₚ e :: H.
Proof.
  induction H as [|e' H IH]; simpl; [reflexivity|].
  destruct (entry_lt st e e'); [reflexivity|].
  rewrite IH. apply Permutation_swap.
Qed.

Lemma entry_lt_keys st e e' :
  (entry_lt st e e' = true -> e.1 <= e'.1) /\
  (entry_lt st e e' = false -> e'.1 <= e.1).
Proof.
  unfold entry_lt. destruct (e.1 =? e'.1) eqn:Ek; simpl.
  - apply Z.eqb_eq in Ek. split; intros _; lia.
  - apply Z.eqb_neq in Ek. split; intros Hlt.
    + apply Z.ltb_lt in Hlt. lia.
    + apply Z.ltb_ge in Hlt. lia.
Qed.

Lemma keys_sorted_insert st e H :
  keys_sorted H -> keys_sorted (heap_insert st e H).
Proof.
  induction H as [|e' H IH]; simpl.
  - intros _. split; [|exact I]. intros e0 He0. apply elem_of_nil in He0.
    contradiction.
  - intros [Hle Hs]. destruct (entry_lt st e e') eqn:El.
    + simpl. split; [|split; assumption].
      intros e0 He0. apply entry_lt_keys in El.
      apply elem_of_cons in He0 as [->|He0]; [exact El|].
      specialize (Hle e0 He0). lia.
    + simpl. split; [|apply IH; exact Hs].
      intros e0 He0. rewrite heap_insert_perm in He0.
      apply elem_of_cons in He0 as [->|He0]; [|apply Hle; exact He0].
      apply entry_lt_keys in El. exact El.
Qed.

Lemma keys_sorted_lower H k :
  keys_sorted H -> (forall e, e ∈ H -> k <= e.1) ->
  forall st e, k <= e.1 -> forall e', e' ∈ heap_insert st e H -> k <= e'.1.
Proof.
  intros _ Hall st e He e' Hin. rewrite heap_insert_perm in Hin.
  apply elem_of_cons in Hin as [->|Hin]; auto.
Qed.

Section WfSteps.
Variable m : Z.

Lemma wf_perm st A E E' PA PH :
  E ≡ₚ E' -> wf m st A E PA PH -> wf m st A E' PA PH.
Proof.
  intros Hp [H1 H2 H3 H4 H5 H6 H7]. constructor; try assumption.
  - rewrite <- Hp. exact H6.
  - intros e He. apply H7. rewrite Hp. exact He.
Qed.

Lemma wf_push st A E PA PH e :
  wf m st A E PA PH -> head_ok st PH e -> e.2 ∉ E.*2 ->
  wf m st A (e :: E) PA PH.
Proof.
  intros [H1 H2 H3 H4 H5 H6 H7] He Hnin. constructor; try assumption.
  - simpl. apply NoDup_cons. split; assumption.
  - intros e' He'. apply elem_of_cons in He' as [->|He']; auto.
Qed.

Lemma wf_heappush st A E PA PH e :
  wf m st A E PA PH -> head_ok st PH e -> e.2 ∉ E.*2 ->
  wf m st A (heap_insert st e E) PA PH.
Proof.
  intros Hw He Hn. eapply wf_perm; [symmetry; apply heap_insert_perm|].
  apply wf_push; assumption.
Qed.

Lemma wf_set_A st A E PA PH c x :
  wf m st A E PA PH -> x ∈ PA -> wf m st (<[c := x]> A) E PA PH.
Proof.
  intros [H1 H2 H3 H4 H5 H6 H7] Hx. constructor; try assumption.
  intros c' x' Hl. destruct (decide (c' = c)) as [->|Hne].
  - rewrite lookup_insert_eq in Hl. injection Hl as <-. exact Hx.
  - rewrite lookup_insert_ne in Hl by auto. eauto.
Qed.

Lemma wf_delete_A st A E PA PH c :
  wf m st A E PA PH -> wf m st (delete c A) E PA PH.
Proof.
  intros [H1 H2 H3 H4 H5 H6 H7]. constructor; try assumption.
  intros c' x' Hl. apply lookup_delete_Some in Hl as [_ Hl]. eauto.
Qed.

Lemma wf_head_lt st A E PA PH e :
  wf m st A E PA PH -> e ∈ E -> (e.2 < length st)%nat.
Proof.
  intros Hw He. destruct (wf_heads _ _ _ _ _ _ Hw e He) as (_ & (sg & Hsg & _) & _).
  eapply lookup_lt_Some. exact Hsg.
Qed.

(** Allocation of a segment that joins the chains of [A]. *)
Lemma wf_alloc_A st A E PA PH sg :
  wf m st A E PA PH -> seg_valid m sg ->
  (forall b, Segment.next sg = Some b ->
     b ∈ PA /\ exists y, st !! b = Some y /\ Segment.right sg <= Segment.left y) ->
  wf m (st ++ [sg]) A E (PA ∪ {[length st]}) PH.
Proof.
  intros Hw Hv Hn. destruct Hw as [H1 H2 H3 H4 H5 H6 H7]. constructor.
  - apply disjoint_union_l. split; [exact H1|].
    apply disjoint_singleton_l. intros Hin. apply H4, linked_lt in Hin. lia.
  - intros c x Hc. apply elem_of_union_l. eauto.
  - intros a Ha. apply elem_of_union in Ha as [Ha|Ha].
    + eapply linked_mono; [|apply linked_app, H3, Ha]. apply union_subseteq_l.
    + apply elem_of_singleton in Ha as ->. exists sg. split.
      * apply list_lookup_middle. reflexivity.
      * split; [exact Hv|]. intros b Hb. destruct (Hn b Hb) as (Hin & y & Hy & Hle).
        split; [apply elem_of_union_l; exact Hin|]. exists y.
        split; [apply lookup_app_l_Some; exact Hy|exact Hle].
  - intros a Ha. apply linked_app, H4, Ha.
  - eapply next_injective_transfer; [|exact H5]. eapply same_next_app. exact H4.
  - exact H6.
  - intros e He. eapply head_ok_transfer; [eapply same_next_app; exact H4| |eauto].
    intros sg0 Hsg0. exists sg0. split; [|reflexivity].
    apply lookup_app_l_Some. exact Hsg0.
Qed.

(** Allocation of a segment that joins the heap chains, without a
    successor. *)
Lemma wf_alloc_H st A E PA PH sg :
  wf m st A E PA PH -> seg_valid m sg -> Segment.next sg = None ->
  wf m (st ++ [sg]) A E PA (PH ∪ {[length st]}).
Proof.
  intros Hw Hv Hn. destruct Hw as [H1 H2 H3 H4 H5 H6 H7].
  assert (Hnew : forall a x, a ∈ PH ∪ {[length st]} ->
            (st ++ [sg]) !! a = Some x ->
            (a ∈ PH /\ st !! a = Some x) \/ (a = length st /\ x = sg)).
  { intros a x Ha Hx. apply elem_of_union in Ha as [Ha|Ha].
    - left. split; [exact Ha|]. apply H4, linked_lt in Ha.
      rewrite lookup_app_l in Hx by exact Ha. exact Hx.
    - apply elem_of_singleton in Ha as ->. right. split; [reflexivity|].
      rewrite list_lookup_middle in Hx by reflexivity. congruence. }
  constructor.
  - apply disjoint_union_r. split; [exact H1|].
    apply disjoint_singleton_r. intros Hin. apply H3, linked_lt in Hin. lia.
  - exact H2.
  - intros a Ha. apply linked_app, H3, Ha.
  - intros a Ha. apply elem_of_union in Ha as [Ha|Ha].
    + eapply linked_mono; [|apply linked_app, H4, Ha]. apply union_subseteq_l.
    + apply elem_of_singleton in Ha as ->. exists sg. split.
      * apply list_lookup_middle. reflexivity.
      * split; [exact Hv|]. intros b Hb. congruence.
  - intros a b c x y Ha Hb Hx Hy Hnx Hny.
    destruct (Hnew a x Ha Hx) as [[Ha' Hx']|[-> ->]]; [|congruence].
    destruct (Hnew b y Hb Hy) as [[Hb' Hy']|[-> ->]]; [|congruence].
    eapply H5; eauto.
  - exact H6.
  - intros e He. destruct (H7 e He) as (Hin & (sg0 & Hsg0 & Hk) & Hnp).
    split; [apply elem_of_union_l; exact Hin|]. split.
    + exists sg0. split; [apply lookup_app_l_Some; exact Hsg0|exact Hk].
    + intros a y Ha Hy. destruct (Hnew a y Ha Hy) as [[Ha' Hy']|[-> ->]].
      * eapply Hnp; eauto.
      * congruence.
Qed.
End WfSteps.

Section WfUpdates.
Variable m : Z.

(** An update that keeps the successor and shrinks the interval; the
    left end of a head must stay. *)
Lemma wf_update_shrink st A E PA PH a x x' :
  wf m st A E PA PH -> st !! a = Some x ->
  Segment.left x <= Segment.left x' -> Segment.right x' <= Segment.right x ->
  Segment.left x' < Segment.right x' ->
  Segment.next x' = Segment.next x ->
  (a ∈ E.*2 -> Segment.left x' = Segment.left x) ->
  wf m (<[a := x']> st) A E PA PH.
Proof.
  intros [H1 H2 H3 H4 H5 H6 H7] Hx Hl Hr Hv Hn Hhead.
  assert (Hreg : forall P : gset addr,
            (forall b, b ∈ P -> linked m st P b) ->
            forall b, b ∈ P -> linked m (<[a := x']> st) P b).
  { intros P HP b Hb. destruct (decide (b = a)) as [->|Hne].
    - eapply linked_insert_shrink; eauto.
    - eapply linked_insert_left; eauto. }
  assert (Hsn : forall P, same_next P st (<[a := x']> st)).
  { intros P. eapply same_next_insert; eauto. }
  constructor; auto.
  - eapply next_injective_transfer; [apply Hsn|exact H5].
  - intros e He. eapply head_ok_transfer; [apply Hsn| |apply H7, He].
    intros sg Hsg. destruct (decide (e.2 = a)) as [Ea|Hne].
    + exists x'. rewrite Ea in Hsg |- *. split.
      * apply list_lookup_insert_eq. eapply lookup_lt_Some. exact Hx.
      * rewrite Hx in Hsg. injection Hsg as <-. apply Hhead.
        apply list_elem_of_fmap. exists e. split; [congruence|exact He].
    + exists sg. split; [|reflexivity].
      rewrite list_lookup_insert_ne by auto. exact Hsg.
Qed.

(** An update of a segment of the [A] region, possibly with a new
    successor. *)
Lemma wf_update_PA st A E PA PH a x x' :
  wf m st A E PA PH -> a ∈ PA -> st !! a = Some x ->
  Segment.left x <= Segment.left x' -> seg_valid m x' ->
  (forall b, Segment.next x' = Some b ->
     b ∈ PA /\ exists y, st !! b = Some y /\ Segment.right x' <= Segment.left y) ->
  wf m (<[a := x']> st) A E PA PH.
Proof.
  intros [H1 H2 H3 H4 H5 H6 H7] Ha Hx Hl Hv Hn.
  assert (HaH : a ∉ PH) by (intros Hin; apply (H1 a Ha Hin)).
  assert (Hsn : same_next PH st (<[a := x']> st)).
  { eapply same_next_insert; [exact Hx|]. intros Hin. contradiction. }
  constructor; auto.
  - intros b Hb. destruct (decide (b = a)) as [->|Hne].
    + exists x'. split.
      * apply list_lookup_insert_eq. eapply lookup_lt_Some. exact Hx.
      * split; [exact Hv|]. intros c Hc.
        destruct (Hn c Hc) as (Hcin & y & Hy & Hle). split; [exact Hcin|].
        destruct (decide (c = a)) as [->|Hca].
        -- rewrite Hx in Hy. injection Hy as <-. destruct Hv as [Hv _]. lia.
        -- exists y. split; [|exact Hle].
           rewrite list_lookup_insert_ne by auto. exact Hy.
    + eapply linked_insert_left; eauto.
  - intros b Hb. apply linked_insert_outside; auto.
  - eapply next_injective_transfer; [apply Hsn|exact H5].
  - intros e He. eapply head_ok_transfer; [apply Hsn| |apply H7, He].
    intros sg Hsg. exists sg. split; [|reflexivity].
    rewrite list_lookup_insert_ne; [exact Hsg|].
    intros ->. apply HaH. apply (H7 e He).
Qed.

(** An update of a segment that belongs to neither region. *)
Lemma wf_update_outside st A E PA PH a x' :
  wf m st A E PA PH -> a ∉ PA -> a ∉ PH -> (a < length st)%nat ->
  wf m (<[a := x']> st) A E PA PH.
Proof.
  intros [H1 H2 H3 H4 H5 H6 H7] HaA HaH Hlt.
  destruct (lookup_lt_is_Some_2 st a Hlt) as [x Hx].
  assert (Hsn : same_next PH st (<[a := x']> st)).
  { eapply same_next_insert; [exact Hx|]. intros Hin. contradiction. }
  constructor; auto.
  - intros b Hb. apply linked_insert_outside; auto.
  - intros b Hb. apply linked_insert_outside; auto.
  - eapply next_injective_transfer; [apply Hsn|exact H5].
  - intros e He. eapply head_ok_transfer; [apply Hsn| |apply H7, He].
    intros sg Hsg. exists sg. split; [|reflexivity].
    rewrite list_lookup_insert_ne; [exact Hsg|].
    intros ->. apply HaH. apply (H7 e He).
Qed.

(** [w.next = next_w] in the heap region. *)
Lemma wf_set_next_PH st A E PA PH wa x nw y :
  wf m st A E PA PH -> wa ∈ PH -> st !! wa = Some x ->
  nw ∈ PH -> st !! nw = Some y -> Segment.right x <= Segment.left y ->
  no_pred st PH nw -> nw ∉ E.*2 ->
  wf m (<[wa := Segment.set_next (Some nw) x]> st) A E PA PH.
Proof.
  intros [H1 H2 H3 H4 H5 H6 H7] Hwa Hx Hnw Hy Hle Hnp Hnhead.
  set (x' := Segment.set_next (Some nw) x).
  assert (Hwlt : (wa < length st)%nat) by (eapply lookup_lt_Some; exact Hx).
  assert (Hne : nw <> wa).
  { intros ->. rewrite Hx in Hy. injection Hy as <-.
    destruct (H4 wa Hwa) as (x0 & Hx0 & [Hv _] & _).
    rewrite Hx in Hx0. injection Hx0 as <-. lia. }
  assert (Hold : forall a z, a <> wa -> (<[wa := x']> st) !! a = Some z ->
                   st !! a = Some z).
  { intros a z Ha Hz. rewrite list_lookup_insert_ne in Hz by auto. exact Hz. }
  assert (Hnew : forall z, (<[wa := x']> st) !! wa = Some z -> z = x').
  { intros z Hz. rewrite list_lookup_insert_eq in Hz by exact Hwlt. congruence. }
  constructor; auto.
  - intros b Hb. apply linked_insert_outside; auto.
    intros Hin. apply (H1 wa Hin Hwa).
  - intros b Hb. destruct (decide (b = wa)) as [->|Hbw].
    + destruct (H4 wa Hwa) as (x0 & Hx0 & Hv & _).
      rewrite Hx in Hx0. injection Hx0 as <-.
      exists x'. split; [apply list_lookup_insert_eq; exact Hwlt|].
      split; [exact Hv|]. intros c Hc. simpl in Hc. injection Hc as <-.
      split; [exact Hnw|]. exists y. split; [|exact Hle].
      rewrite list_lookup_insert_ne by auto. exact Hy.
    + eapply linked_insert_left; eauto. simpl. lia.
  - intros a b c xa xb Ha Hb Hxa Hxb Hna Hnb.
    destruct (decide (a = wa)) as [->|Haw]; destruct (decide (b = wa)) as [->|Hbw];
      try reflexivity.
    + apply Hnew in Hxa as ->. simpl in Hna. injection Hna as <-.
      apply Hold in Hxb; [|exact Hbw]. exfalso. exact (Hnp b xb Hb Hxb Hnb).
    + apply Hnew in Hxb as ->. simpl in Hnb. injection Hnb as <-.
      apply Hold in Hxa; [|exact Haw]. exfalso. exact (Hnp a xa Ha Hxa Hna).
    + apply Hold in Hxa; [|exact Haw]. apply Hold in Hxb; [|exact Hbw].
      eapply H5; eauto.
  - intros e He. destruct (H7 e He) as (Hin & (sg & Hsg & Hk) & Hnpe).
    split; [exact Hin|]. split.
    + destruct (decide (e.2 = wa)) as [Ee|Hew].
      * exists x'. rewrite Ee in Hsg |- *.
        split; [apply list_lookup_insert_eq; exact Hwlt|].
        rewrite Hx in Hsg. injection Hsg as <-. exact Hk.
      * exists sg. split; [|exact Hk].
        rewrite list_lookup_insert_ne by auto. exact Hsg.
    + intros a z Ha Hz Hn. destruct (decide (a = wa)) as [->|Haw].
      * apply Hnew in Hz as ->. simpl in Hn. injection Hn as Hn.
        apply Hnhead. apply list_elem_of_fmap. exists e. split; [congruence|exact He].
      * apply Hold in Hz; [|exact Haw]. exact (Hnpe a z Ha Hz Hn).
Qed.

(** [x.left = k'] for a head [x]; its key follows. *)
Lemma wf_head_set_left st A E PA PH k x sg k' :
  wf m st A ((k, x) :: E) PA PH -> st !! x = Some sg ->
  k' < Segment.right sg ->
  wf m (<[x := Segment.set_left k' sg]> st) A ((k', x) :: E) PA PH.
Proof.
  intros [H1 H2 H3 H4 H5 H6 H7] Hx Hlt.
  set (sg' := Segment.set_left k' sg).
  destruct (H7 (k, x)) as (Hin & _ & Hnp); [apply elem_of_cons; auto|].
  simpl in Hin, Hnp.
  assert (Hxlt : (x < length st)%nat) by (eapply lookup_lt_Some; exact Hx).
  assert (HxA : x ∉ PA) by (intros Hin'; apply (H1 x Hin' Hin)).
  assert (Hsn : same_next PH st (<[x := sg']> st)).
  { eapply same_next_insert; [exact Hx|]. intros _. reflexivity. }
  constructor; auto.
  - intros b Hb. apply linked_insert_outside; auto.
  - intros b Hb. destruct (decide (b = x)) as [->|Hne].
    + destruct (H4 x Hin) as (x0 & Hx0 & [Hv Hm] & Hn).
      rewrite Hx in Hx0. injection Hx0 as <-.
      exists sg'. split; [apply list_lookup_insert_eq; exact Hxlt|].
      split; [split; simpl; lia|]. intros c Hc. simpl in Hc.
      destruct (Hn c Hc) as (Hcin & y & Hy & Hle). split; [exact Hcin|].
      exists y. split; [|exact Hle].
      rewrite list_lookup_insert_ne; [exact Hy|].
      intros ->. exact (Hnp c sg Hin Hx Hc).
    + apply linked_insert_no_pred; auto.
  - eapply next_injective_transfer; [apply Hsn|exact H5].
  - intros e He. apply elem_of_cons in He as [->|He].
    + split; [exact Hin|]. split.
      * exists sg'. split; [apply list_lookup_insert_eq; exact Hxlt|reflexivity].
      * eapply no_pred_transfer; [apply Hsn|exact Hnp].
    + eapply head_ok_transfer; [apply Hsn| |apply H7; apply elem_of_cons; auto].
      intros sg0 Hsg0. exists sg0. split; [|reflexivity].
      rewrite list_lookup_insert_ne; [exact Hsg0|].
      intros Heq. simpl in H6. apply NoDup_cons in H6 as [Hnin _]. apply Hnin.
      apply list_elem_of_fmap. exists e. split; [congruence|exact He].
Qed.

(** A head leaves the heap region; its successor, if any, is the new
    head of the rest of its chain. *)
Lemma wf_pop_advance st A E PA PH k x sg :
  wf m st A ((k, x) :: E) PA PH -> st !! x = Some sg ->
  match Segment.next sg with
  | None => wf m st A E PA (PH ∖ {[x]})
  | Some y =>
      exists sy, st !! y = Some sy /\
                 Segment.right sg <= Segment.left sy /\
                 wf m st A ((Segment.left sy, y) :: E) PA (PH ∖ {[x]})
  end.
Proof.
  intros [H1 H2 H3 H4 H5 H6 H7] Hx.
  destruct (H7 (k, x)) as (Hin & _ & Hnp); [apply elem_of_cons; auto|].
  simpl in Hin, Hnp. simpl in H6. apply NoDup_cons in H6 as [Hnin Hnd].
  assert (Hsub : PH ∖ {[x]} ⊆ PH) by apply subseteq_difference_l, reflexivity.
  assert (Hbase : wf m st A E PA (PH ∖ {[x]})).
  { constructor; auto.
    - intros a Ha Ha'. apply (H1 a Ha). apply Hsub. exact Ha'.
    - intros a Ha. apply elem_of_difference in Ha as [Ha Hax].
      destruct (H4 a Ha) as (xa & Hxa & Hv & Hn). exists xa.
      split; [exact Hxa|]. split; [exact Hv|]. intros b Hb.
      destruct (Hn b Hb) as (Hbin & Hy). split; [|exact Hy].
      apply elem_of_difference. split; [exact Hbin|].
      intros Hbx. apply elem_of_singleton in Hbx as ->.
      exact (Hnp a xa Ha Hxa Hb).
    - eapply next_injective_subset; eauto.
    - intros e He. destruct (H7 e) as (Hein & Hsg & Hnpe); [apply elem_of_cons; auto|].
      split; [|split; [exact Hsg|eapply no_pred_subset; eauto]].
      apply elem_of_difference. split; [exact Hein|].
      intros Hex. apply elem_of_singleton in Hex. apply Hnin.
      apply list_elem_of_fmap. exists e. split; [congruence|exact He]. }
  destruct (Segment.next sg) as [y|] eqn:Hny; [|exact Hbase].
  destruct (H4 x Hin) as (x0 & Hx0 & _ & Hn).
  rewrite Hx in Hx0. injection Hx0 as <-.
  destruct (Hn y Hny) as (Hyin & sy & Hsy & Hle).
  exists sy. split; [exact Hsy|]. split; [exact Hle|].
  apply wf_push; [exact Hbase| |].
  - split; [|split].
    + simpl. apply elem_of_difference. split; [exact Hyin|].
      intros Hyx. apply elem_of_singleton in Hyx as ->.
      exact (Hnp x sg Hin Hx Hny).
    + exists sy. split; [exact Hsy|reflexivity].
    + simpl. intros a z Ha Hz Hnz. apply elem_of_difference in Ha as [Ha Hax].
      apply Hax. apply elem_of_singleton.
      exact (H5 a x y z sg Ha Hin Hz Hx Hnz Hny).
  - simpl. intros Hyh. apply list_elem_of_fmap in Hyh as (e & Ee & He).
    destruct (H7 e) as (_ & _ & Hnpe); [apply elem_of_cons; auto|].
    rewrite <- Ee in Hnpe. exact (Hnpe x sg Hin Hx Hny).
Qed.

(** A head is dropped from the heap region. *)
Lemma wf_drop_head st A E PA PH k x :
  wf m st A ((k, x) :: E) PA PH -> wf m st A E PA (PH ∖ {[x]}) /\ x ∉ PA.
Proof.
  intros Hw.
  destruct (wf_heads _ _ _ _ _ _ Hw (k, x)) as (Hin & (sg & Hsg & _) & _);
    [apply elem_of_cons; auto|].
  split; [|intros HA; apply (wf_disjoint _ _ _ _ _ _ Hw x HA Hin)].
  pose proof (wf_pop_advance _ _ _ _ _ _ _ _ Hw Hsg) as Hp.
  destruct (Segment.next sg); [|exact Hp].
  destruct Hp as (sy & _ & _ & Hp). destruct Hp as [H1 H2 H3 H4 H5 H6 H7].
  constructor; auto.
  - simpl in H6. apply NoDup_cons in H6 as [_ H6]. exact H6.
  - intros e He. apply H7. apply elem_of_cons. auto.
Qed.

(** A segment outside both regions, without successor, joins the
    chains of [A]. *)
Lemma wf_adopt st A E PA PH a sg :
  wf m st A E PA PH -> a ∉ PH -> st !! a = Some sg ->
  seg_valid m sg -> Segment.next sg = None ->
  wf m st A E (PA ∪ {[a]}) PH.
Proof.
  intros [H1 H2 H3 H4 H5 H6 H7] HaH Hsg Hv Hn. constructor; auto.
  - apply disjoint_union_l. split; [exact H1|].
    apply disjoint_singleton_l. exact HaH.
  - intros c x Hc. apply elem_of_union_l. eauto.
  - intros b Hb. apply elem_of_union in Hb as [Hb|Hb].
    + eapply linked_mono; [|apply H3, Hb]. apply union_subseteq_l.
    + apply elem_of_singleton in Hb as ->. exists sg. split; [exact Hsg|].
      split; [exact Hv|]. intros c Hc. congruence.
Qed.
End WfUpdates.

(** ** Chain sortedness: the overlap map *)

Lemma least_spec l k :
  least l = Some k -> k ∈ l /\ forall k', k' ∈ l -> k <= k'.
Proof.
  revert k. induction l as [|a l IH]; intros k; simpl; [discriminate|].
  destruct (least l) as [b|] eqn:El.
  - intros [= <-]. destruct (IH b eq_refl) as [Hin Hle]. split.
    + destruct (Z.min_spec a b) as [[_ ->]|[_ ->]];
        [apply elem_of_cons; auto|apply elem_of_cons; auto].
    + intros k' Hk'. apply elem_of_cons in Hk' as [->|Hk']; [lia|].
      specialize (Hle k' Hk'). lia.
  - intros [= <-]. split; [apply elem_of_cons; auto|].
    intros k' Hk'. apply elem_of_cons in Hk' as [->|Hk']; [lia|].
    destruct l; [apply elem_of_nil in Hk'; contradiction|discriminate El].
Qed.

Lemma succ_key_spec (S : gmap Z Z) k k' :
  succ_key S k = Ok k' ->
  k < k' /\ is_Some (S !! k') /\
  forall k'', is_Some (S !! k'') -> k < k'' -> k' <= k''.
Proof.
  unfold succ_key, of_option.
  destruct (least _) as [j|] eqn:El; [|discriminate]. intros [= <-].
  apply least_spec in El as [Hin Hle].
  apply list_elem_of_filter in Hin as [Hlt Hin]. apply elem_of_keys in Hin.
  split; [exact Hlt|]. split; [exact Hin|].
  intros k'' Hs Hk. apply Hle. apply list_elem_of_filter. split; [exact Hk|].
  apply elem_of_keys. exact Hs.
Qed.

Lemma S_ensure_dom k s w s' :
  S_ensure k s = Ok (w, s') ->
  is_Some (self_S s' !! k) /\
  forall j, is_Some (self_S s !! j) -> is_Some (self_S s' !! j).
Proof.
  unfold S_ensure. intros He. apply bind_ok in He as (s0 & s1 & Hg & He).
  apply get_ok in Hg as [-> ->].
  destruct (self_S s !! k) as [v|] eqn:Ek.
  - apply ret_ok in He as [_ ->]. rewrite Ek. split; [eauto|auto].
  - apply bind_ok in He as (j & s2 & Hf & He). apply S_floor_key_ok in Hf as [-> _].
    apply bind_ok in He as (v & s3 & Hv & He). apply S_get_ok in Hv as [-> _].
    apply S_set_ok in He as ->. simpl. split.
    + rewrite lookup_insert_eq. eauto.
    + intros j' Hj'. destruct (decide (j' = k)) as [->|Hne].
      * rewrite lookup_insert_eq. eauto.
      * rewrite lookup_insert_ne by auto. exact Hj'.
Qed.

(** The walk moves right, makes a step when it does not stop at once,
    and does not pass a stored key. *)
Lemma overlap_walk_bounds fuel : forall r0 r_max n s r s',
  overlap_walk fuel r0 r_max n s = Ok (r, s') ->
  r0 <= r /\
  (r0 < r_max -> (forall v, self_S s !! r0 = Some v -> v <> n) -> r0 < r) /\
  (r0 <= r_max -> is_Some (self_S s !! r_max) -> r <= r_max).
Proof.
  induction fuel as [|fuel IH]; intros r0 r_max n s r s'; simpl.
  - destruct (r0 <? r_max) eqn:Elt.
    + intros Hw. apply bind_ok in Hw as (v & s1 & Hv & Hw).
      apply S_get_ok in Hv as [-> Hv].
      destruct (v =? n) eqn:Ev; simpl in Hw; [|discriminate Hw].
      apply ret_ok in Hw as [-> ->]. apply Z.eqb_eq in Ev.
      split; [lia|]. split; [|intros; lia].
      intros _ Hne. exfalso. exact (Hne v Hv Ev).
    + intros Hw. apply ret_ok in Hw as [-> ->]. apply Z.ltb_ge in Elt.
      split; [lia|]. split; intros; lia.
  - destruct (r0 <? r_max) eqn:Elt.
    + intros Hw. apply bind_ok in Hw as (v & s1 & Hv & Hw).
      apply S_get_ok in Hv as [-> Hv].
      destruct (v =? n) eqn:Ev; simpl in Hw.
      * apply ret_ok in Hw as [-> ->]. apply Z.eqb_eq in Ev.
        split; [lia|]. split; [|intros; lia].
        intros _ Hne. exfalso. exact (Hne v Hv Ev).
      * apply bind_ok in Hw as (u & s2 & Hset & Hw). apply S_set_ok in Hset as ->.
        apply bind_ok in Hw as (r1 & s3 & Hsucc & Hw).
        apply S_succ_key_ok in Hsucc as [-> Hsucc]. simpl in Hsucc.
        apply succ_key_spec in Hsucc as (Hlt & Hin & Hleast).
        apply IH in Hw as (Hle & _ & Hmax). apply Z.ltb_lt in Elt.
        split; [lia|]. split; [intros; lia|].
        intros _ Hrm. apply Hmax.
        -- apply Hleast; [|exact Elt]. simpl.
           destruct (decide (r_max = r0)) as [->|Hne]; [lia|].
           rewrite lookup_insert_ne by auto. exact Hrm.
        -- simpl. destruct (decide (r_max = r0)) as [->|Hne]; [lia|].
           rewrite lookup_insert_ne by auto. exact Hrm.
    + intros Hw. apply ret_ok in Hw as [-> ->]. apply Z.ltb_ge in Elt.
      split; [lia|]. split; intros; lia.
Qed.

(** The right endpoint of an overlap: to the right of [l], and in the
    branch that allocates [alpha] not beyond [r_max]. *)
Lemma overlap_endpoint_bounds fuel input_id l r_max lenX u s r alpha s' :
  overlap_endpoint fuel input_id l r_max lenX u s = Ok (r, alpha, s') ->
  l < r_max ->
  l < r /\ (alpha <> None -> r <= r_max).
Proof.
  unfold overlap_endpoint. intros He Hlt.
  apply bind_ok in He as (u1 & s1 & He1 & He).
  apply bind_ok in He as (u2 & s2 & He2 & He).
  apply bind_ok in He as (v & s3 & He3 & He).
  apply S_ensure_dom in He1 as [_ Hd1]. apply S_ensure_dom in He2 as [Hrm _].
  apply S_get_ok in He3 as [-> Hv].
  destruct (v =? lenX) eqn:Ev.
  - apply bind_ok in He as (u3 & s4 & Hset & He). apply S_set_ok in Hset as ->.
    apply bind_ok in He as (r' & s5 & Hsucc & He).
    apply S_succ_key_ok in Hsucc as [-> Hsucc].
    apply succ_key_spec in Hsucc as (Hlr & _ & _).
    apply bind_ok in He as (u4 & s6 & _ & He).
    apply ret_ok in He as [[= -> ->] ->]. split; [exact Hlr|]. congruence.
  - apply bind_ok in He as (r' & s4 & Hw & He).
    apply overlap_walk_bounds in Hw as (_ & Hstep & Hmax).
    apply bind_ok in He as (a & s5 & _ & He).
    apply ret_ok in He as [[= -> ->] ->]. split.
    + apply Hstep; [exact Hlt|]. intros v' Hv'. apply Z.eqb_neq in Ev. congruence.
    + intros _. apply Hmax; [lia|exact Hrm].
Qed.

(** ** Chain sortedness: from the invariant to the chains *)

Lemma linked_reach m st (P : gset addr) root a :
  (forall b, b ∈ P -> linked m st P b) -> root ∈ P -> reach st root a -> a ∈ P.
Proof.
  intros HP Hroot Hr. induction Hr as [a|a b c x Hx Hn Hr IH]; [exact Hroot|].
  apply IH. destruct (HP a Hroot) as (x0 & Hx0 & _ & Hnx).
  rewrite Hx in Hx0. injection Hx0 as <-. apply (Hnx b Hn).
Qed.

Lemma linked_segment_ok m st P a : linked m st P a -> segment_ok st a.
Proof.
  intros (x & Hx & [Hv _] & Hn). exists x. split; [exact Hx|].
  split; [exact Hv|]. intros b Hb. apply (Hn b Hb).
Qed.

Lemma Inv_chains_sorted s H : Inv s H -> chains_sorted s H.
Proof.
  intros (PA & PH & Hw & _) root Hroot a Hr.
  destruct Hw as [H1 H2 H3 H4 H5 H6 H7].
  destruct Hroot as [[c Hc]|[k Hk]].
  - eapply linked_segment_ok. apply H3. eapply linked_reach; eauto.
  - eapply linked_segment_ok. apply H4. eapply linked_reach; eauto.
    apply (H7 (k, root) Hk).
Qed.

(** ** Chain sortedness: the constructor *)

Lemma record_sample_node_same i s v s' :
  record_sample_node i s = Ok (v, s') -> same_segments s s'.
Proof.
  intros Hr.
  assert (Hp : preserves (fun s' => same_segments s s') (record_sample_node i)).
  { unfold record_sample_node. pres; apply preserves_modify; intros; assumption. }
  eapply Hp; [|exact Hr]. repeat split.
Qed.

Lemma swf_same s s' E PA PH :
  same_segments s s' -> swf s E PA PH -> swf s' E PA PH.
Proof. unfold swf. intros (-> & -> & _ & ->). auto. Qed.

Lemma init_sample_wf j sample_id s u s' PA :
  init_sample j sample_id s = Ok (u, s') ->
  0 < self_m s -> swf s [] PA ∅ ->
  self_m s' = self_m s /\ exists PA', swf s' [] PA' ∅.
Proof.
  unfold init_sample. intros Hi Hm Hw.
  apply bind_ok in Hi as (s0 & s1 & Hg & Hi). apply get_ok in Hg as [-> ->].
  apply bind_ok in Hi as (x & s1 & Ha & Hi). apply alloc_ok in Ha as [-> ->].
  apply bind_ok in Hi as (u1 & s2 & Hs & Hi). apply modify_ok in Hs as ->.
  apply bind_ok in Hi as (u2 & s3 & Hr & Hi).
  apply record_sample_node_same in Hr as Hs3.
  apply bind_ok in Hi as (s4 & s5 & Hg & Hi). apply get_ok in Hg as [-> ->].
  apply record_mutations_same in Hi as [Hs4 _].
  pose proof (same_segments_trans _ _ _ Hs3 Hs4) as Hs.
  split; [destruct Hs as (_ & _ & _ & ->); reflexivity|].
  exists (PA ∪ {[length (self_store s)]}).
  eapply swf_same; [exact Hs|]. unfold swf in *. simpl.
  apply wf_set_A; [|apply elem_of_union_r, elem_of_singleton; reflexivity].
  apply wf_alloc_A; [exact Hw| |intros b Hb; discriminate Hb].
  split; simpl; lia.
Qed.

Lemma init_samples_wf sample : forall j s u s' PA,
  init_samples j sample s = Ok (u, s') ->
  0 < self_m s -> swf s [] PA ∅ ->
  self_m s' = self_m s /\ exists PA', swf s' [] PA' ∅.
Proof.
  induction sample as [|id rest IH]; intros j s u s' PA; simpl.
  - intros Hr _ Hw. apply ret_ok in Hr as [_ ->]. eauto.
  - intros Hi Hm Hw. apply bind_ok in Hi as (u1 & s1 & H1 & Hi).
    destruct (init_sample_wf _ _ _ _ _ _ H1 Hm Hw) as (Hm1 & PA1 & Hw1).
    destruct (IH _ _ _ _ PA1 Hi) as (Hm2 & PA2 & Hw2); [lia|exact Hw1|].
    split; [congruence|eauto].
Qed.

Lemma keys_sorted_nil : keys_sorted [].
Proof. exact I. Qed.

Lemma init_Inv ts sample s :
  0 < sequence_length ts -> init ts sample = Ok s ->
  Inv s [] /\ self_m s = sequence_length ts.
Proof.
  intros Hm Hi. unfold init in Hi.
  destruct (init_body sample (empty_simplifier ts sample)) as [[u s1]| |] eqn:E;
    try discriminate.
  injection Hi as <-. unfold init_body in E.
  apply bind_ok in E as (u1 & s2 & Hs & E).
  apply bind_ok in E as (s3 & s4 & Hg & E). apply get_ok in Hg as [-> ->].
  apply bind_ok in E as (u2 & s5 & H1 & E).
  apply S_set_ok in H1 as ->. apply S_set_ok in E as ->.
  destruct (init_samples_wf _ _ _ _ _ ∅ Hs) as (Hm2 & PA & Hw).
  - exact Hm.
  - constructor.
    + apply disjoint_empty_r.
    + intros c x Hc. simpl in Hc. rewrite lookup_empty in Hc. discriminate.
    + intros a Ha. apply elem_of_empty in Ha. contradiction.
    + intros a Ha. apply elem_of_empty in Ha. contradiction.
    + intros a b c x y Ha. apply elem_of_empty in Ha. contradiction.
    + apply NoDup_nil. exact I.
    + intros e He. apply elem_of_nil in He. contradiction.
  - split; [|exact Hm2]. exists PA, ∅. split; [exact Hw|exact I].
Qed.

(** ** Chain sortedness: [remove_ancestry] *)

Lemma linked_lookup m st P a x :
  linked m st P a -> st !! a = Some x ->
  seg_valid m x /\
  forall b, Segment.next x = Some b ->
    b ∈ P /\ exists y, st !! b = Some y /\ Segment.right x <= Segment.left y.
Proof.
  intros (x0 & Hx0 & Hv & Hn) Hx. rewrite Hx in Hx0. injection Hx0 as <-. auto.
Qed.

Lemma remove_left_wf fuel : forall e_left x y s x' y' s' E PA PH,
  remove_left fuel e_left x y s = Ok (x', y', s') ->
  swf s E PA PH -> opt_in x PA -> opt_in y PA ->
  before (self_store s) y x ->
  self_m s' = self_m s /\ self_A s' = self_A s /\
  exists PA', swf s' E PA' PH /\ opt_in x' PA' /\ opt_in y' PA' /\
              before (self_store s') y' x'.
Proof.
  induction fuel as [|fuel IH]; intros e_left x y s x' y' s' E PA PH Hr Hw Hx Hy Hb;
    simpl in Hr; destruct x as [xa|];
    try (apply ret_ok in Hr as [[= -> ->] ->]; eauto 10).
  - apply bind_ok in Hr as (xs & s1 & Hl & Hr). apply load_ok in Hl as [-> Hxs].
    destruct (Segment.left xs <? e_left); [discriminate Hr|].
    apply ret_ok in Hr as [[= -> ->] ->]. eauto 10.
  - apply bind_ok in Hr as (xs & s1 & Hl & Hr). apply load_ok in Hl as [-> Hxs].
    destruct (Segment.left xs <? e_left) eqn:Etest;
      [|apply ret_ok in Hr as [[= -> ->] ->]; eauto 10].
    apply Z.ltb_lt in Etest.
    assert (Hxa : xa ∈ PA) by (apply Hx; reflexivity).
    destruct (linked_lookup _ _ _ _ _ (wf_PA _ _ _ _ _ _ Hw xa Hxa) Hxs)
      as ([Hv Hm] & Hnx).
    destruct (Segment.right xs >? e_left) eqn:Esplit.
    + apply Z.gtb_lt in Esplit.
      apply bind_ok in Hr as (x1 & s1 & Ha & Hr). apply alloc_ok in Ha as [-> ->].
      apply bind_ok in Hr as (u1 & s2 & Hu1 & Hr).
      apply update_ok in Hu1 as (x0 & Hx0 & ->). simpl in Hx0.
      rewrite (lookup_app_l_Some _ _ _ _ Hxs) in Hx0. injection Hx0 as <-.
      apply bind_ok in Hr as (u2 & s3 & Hu2 & Hr).
      apply update_ok in Hu2 as (x0 & Hx0 & ->). simpl in Hx0.
      assert (Hlt : (xa < length (self_store s))%nat)
        by (eapply lookup_lt_Some; exact Hxs).
      rewrite list_lookup_insert_eq in Hx0
        by (rewrite length_app; simpl; lia).
      injection Hx0 as <-.
      eapply (IH _ _ _ _ _ _ _ E (PA ∪ {[length (self_store s)]}) PH) in Hr
        as (Hm' & HA' & PA' & Hw' & Hx' & Hy' & Hb').
      * simpl in Hm', HA'. split; [exact Hm'|]. split; [exact HA'|].
        exists PA'. auto.
      * unfold swf in *. simpl.
        eapply wf_update_PA.
        -- eapply wf_update_shrink.
           ++ eapply (wf_alloc_A _ _ _ _ _ _
                        (Segment.mk e_left (Segment.right xs) (Segment.node xs)
                           None (Segment.next xs)) Hw).
              ** split; simpl; lia.
              ** simpl. exact Hnx.
           ++ apply lookup_app_l_Some. exact Hxs.
           ++ simpl. lia.
           ++ simpl. lia.
           ++ simpl. lia.
           ++ reflexivity.
           ++ intros _. reflexivity.
        -- apply elem_of_union_l. exact Hxa.
        -- apply list_lookup_insert_eq. rewrite length_app. simpl. lia.
        -- simpl. lia.
        -- split; simpl; lia.
        -- simpl. intros b Hb'. discriminate Hb'.
      * intros a [= <-]. apply elem_of_union_r, elem_of_singleton. reflexivity.
      * intros a [= <-]. apply elem_of_union_l. exact Hxa.
      * intros ya sy [= <-] Hsy xb sx [= <-] Hsx. simpl in Hsy, Hsx.
        rewrite list_lookup_insert_eq in Hsy
          by (rewrite length_insert, length_app; simpl; lia).
        injection Hsy as <-.
        rewrite !list_lookup_insert_ne in Hsx by lia.
        rewrite list_lookup_middle in Hsx by reflexivity.
        injection Hsx as <-. simpl. lia.
    + eapply (IH _ _ _ _ _ _ _ E PA PH) in Hr
        as (Hm' & HA' & PA' & Hw' & Hx' & Hy' & Hb').
      * split; [exact Hm'|]. split; [exact HA'|]. exists PA'. auto.
      * exact Hw.
      * intros b Hnb. apply (Hnx b Hnb).
      * intros a [= <-]. exact Hxa.
      * intros ya sy [= <-] Hsy xb sx Hnb Hsx.
        rewrite Hxs in Hsy. injection Hsy as <-.
        destruct (Hnx xb Hnb) as (_ & y0 & Hy0 & Hle).
        rewrite Hsx in Hy0. injection Hy0 as <-. exact Hle.
Qed.

Lemma rights_kept_refl st : rights_kept st st.
Proof. intros a sg Hsg. eauto. Qed.

Lemma rights_kept_trans st1 st2 st3 :
  rights_kept st1 st2 -> rights_kept st2 st3 -> rights_kept st1 st3.
Proof.
  intros H12 H23 a sg Hsg. destruct (H12 a sg Hsg) as (sg2 & Hsg2 & E2).
  destruct (H23 a sg2 Hsg2) as (sg3 & Hsg3 & E3). exists sg3.
  split; [exact Hsg3|congruence].
Qed.

Lemma rights_kept_app st sg : rights_kept st (st ++ [sg]).
Proof.
  intros a x Hx. exists x. split; [|reflexivity].
  apply lookup_app_l_Some. exact Hx.
Qed.

Lemma rights_kept_insert st a x x' :
  st !! a = Some x -> Segment.right x' = Segment.right x ->
  rights_kept st (<[a := x']> st).
Proof.
  intros Hx Hr b y Hy. destruct (decide (b = a)) as [->|Hne].
  - exists x'. split.
    + apply list_lookup_insert_eq. eapply lookup_lt_Some. exact Hx.
    + rewrite Hx in Hy. injection Hy as <-. exact Hr.
  - exists y. split; [|reflexivity].
    rewrite list_lookup_insert_ne by auto. exact Hy.
Qed.

Lemma no_pred_alloc_H m st A E PA PH sg :
  wf m st A E PA PH -> Segment.next sg = None ->
  no_pred (st ++ [sg]) (PH ∪ {[length st]}) (length st).
Proof.
  intros Hw Hn a y Ha Hy Hny. apply elem_of_union in Ha as [Ha|Ha].
  - pose proof (wf_PH _ _ _ _ _ _ Hw a Ha) as Hl.
    pose proof (linked_lt _ _ _ _ Hl) as Hlt.
    rewrite lookup_app_l in Hy by exact Hlt.
    destruct (linked_lookup _ _ _ _ _ Hl Hy) as (_ & Hnx).
    destruct (Hnx _ Hny) as (_ & z & Hz & _). apply lookup_lt_Some in Hz. lia.
  - apply elem_of_singleton in Ha as ->.
    rewrite list_lookup_middle in Hy by reflexivity. congruence.
Qed.

Lemma wf_head_fresh m st A E PA PH :
  wf m st A E PA PH -> length st ∉ E.*2.
Proof.
  intros Hw Hin. apply list_elem_of_fmap in Hin as (e & Ee & He).
  pose proof (wf_head_lt _ _ _ _ _ _ _ Hw He) as Hlt. lia.
Qed.

Lemma remove_inside_wf fuel : forall e_right x w H s x' w' H' s' PA PH,
  remove_inside fuel e_right x w H s = Ok (x', w', H', s') ->
  swf s H PA PH -> keys_sorted H -> opt_in x PA -> opt_in w PH ->
  before (self_store s) w x ->
  self_m s' = self_m s /\ self_A s' = self_A s /\
  rights_kept (self_store s) (self_store s') /\
  (forall B, left_bound (self_store s) B x -> left_bound (self_store s') B x') /\
  opt_in x' PA /\
  exists PH', swf s' H' PA PH' /\ keys_sorted H'.
Proof.
  induction fuel as [|fuel IH];
    intros e_right x w H s x' w' H' s' PA PH Hr Hw Hs Hx Hwin Hb;
    simpl in Hr; destruct x as [xa|];
    try (apply ret_ok in Hr as [[= -> -> ->] ->];
         repeat (split; [solve [auto using rights_kept_refl]|]); eauto).
  - apply bind_ok in Hr as (xs & s1 & Hl & Hr). apply load_ok in Hl as [-> Hxs].
    destruct (Segment.left xs <? e_right); [discriminate Hr|].
    apply ret_ok in Hr as [[= -> -> ->] ->].
    repeat (split; [solve [auto using rights_kept_refl]|]); eauto.
  - apply bind_ok in Hr as (xs & s1 & Hl & Hr). apply load_ok in Hl as [-> Hxs].
    destruct (Segment.left xs <? e_right) eqn:Etest;
      [|apply ret_ok in Hr as [[= -> -> ->] ->];
        repeat (split; [solve [auto using rights_kept_refl]|]); eauto].
    apply Z.ltb_lt in Etest.
    assert (Hxa : xa ∈ PA) by (apply Hx; reflexivity).
    destruct (linked_lookup _ _ _ _ _ (wf_PA _ _ _ _ _ _ Hw xa Hxa) Hxs)
      as ([Hv Hm] & Hnx).
    set (out_right := Z.min e_right (Segment.right xs)) in *.
    set (st := self_store s) in *.
    set (nw := length st).
    set (sg := Segment.mk (Segment.left xs) out_right (Segment.node xs) w None).
    apply bind_ok in Hr as (nw' & s1 & Ha & Hr). apply alloc_ok in Ha as [-> ->].
    fold st nw sg in Hr.
    apply bind_ok in Hr as (H2 & s2 & Hlink & Hr).
    assert (Hsgv : seg_valid (self_m s) sg).
    { split; simpl; unfold out_right; lia. }
    pose proof (wf_alloc_H _ _ _ _ _ _ sg Hw Hsgv eq_refl) as W1.
    pose proof (no_pred_alloc_H _ _ _ _ _ _ sg Hw eq_refl) as Hnp.
    pose proof (wf_head_fresh _ _ _ _ _ _ Hw) as Hnh.
    fold st nw in W1, Hnp, Hnh.
    assert (Hxlt : (xa < length st)%nat) by (eapply lookup_lt_Some; exact Hxs).
    assert (F : self_m s2 = self_m s /\ self_A s2 = self_A s /\
                swf s2 H2 PA (PH ∪ {[nw]}) /\ keys_sorted H2 /\
                self_store s2 !! nw = Some sg /\
                (forall a, a ∈ PA -> self_store s2 !! a = st !! a) /\
                rights_kept st (self_store s2) /\
                self_num_used_segments s2 = self_num_used_segments s + 1).
    { destruct w as [wa|].
      - apply bind_ok in Hlink as (u & s3 & Hu & Hlink).
        apply ret_ok in Hlink as [-> ->].
        apply update_ok in Hu as (sw & Hsw & ->). simpl in Hsw |- *.
        assert (Hwa : wa ∈ PH) by (apply Hwin; reflexivity).
        assert (Hwlt : (wa < length st)%nat).
        { eapply linked_lt. apply (wf_PH _ _ _ _ _ _ Hw wa Hwa). }
        rewrite lookup_app_l in Hsw by exact Hwlt.
        assert (Hne : nw <> wa) by (unfold nw; lia).
        split; [reflexivity|]. split; [reflexivity|]. split.
        { unfold swf. simpl. fold st.
          eapply wf_set_next_PH with (y := sg).
          - exact W1.
          - apply elem_of_union_l. exact Hwa.
          - apply lookup_app_l_Some. exact Hsw.
          - apply elem_of_union_r, elem_of_singleton. reflexivity.
          - apply list_lookup_middle. reflexivity.
          - simpl. apply (Hb wa sw eq_refl Hsw xa xs eq_refl Hxs).
          - exact Hnp.
          - exact Hnh. }
        split; [exact Hs|]. split.
        { rewrite list_lookup_insert_ne by auto.
          apply list_lookup_middle. reflexivity. }
        split.
        { intros a Ha. rewrite list_lookup_insert_ne.
          - apply lookup_app_l. eapply linked_lt.
            apply (wf_PA _ _ _ _ _ _ Hw a Ha).
          - intros ->. apply (wf_disjoint _ _ _ _ _ _ Hw a Ha Hwa). }
        split; [|reflexivity].
        eapply rights_kept_trans; [apply rights_kept_app|].
        eapply rights_kept_insert; [apply lookup_app_l_Some; exact Hsw|].
        reflexivity.
      - apply bind_ok in Hlink as (ws & s3 & Hl & Hlink).
        apply load_ok in Hl as [-> Hws]. simpl in Hws. fold st in Hws.
        unfold nw in Hws. rewrite list_lookup_middle in Hws by reflexivity.
        injection Hws as <-.
        apply heappush_ok in Hlink as [-> ->]. simpl. fold st nw.
        split; [reflexivity|]. split; [reflexivity|]. split.
        { unfold swf. simpl. fold st. apply wf_heappush.
          - exact W1.
          - split; [|split].
            + simpl. apply elem_of_union_r, elem_of_singleton. reflexivity.
            + exists sg. split; [apply list_lookup_middle; reflexivity|].
              reflexivity.
            + exact Hnp.
          - exact Hnh. }
        split; [apply keys_sorted_insert; exact Hs|]. split.
        { apply list_lookup_middle. reflexivity. }
        split.
        { intros a Ha. apply lookup_app_l. eapply linked_lt.
          apply (wf_PA _ _ _ _ _ _ Hw a Ha). }
        split; [apply rights_kept_app|reflexivity]. }
    clear Hlink.
    destruct F as (Fm & FA & FW & FS & Fnw & FPA & FR & _).
    apply bind_ok in Hr as (xs2 & s3 & Hl & Hr). apply load_ok in Hl as [-> Hxs2].
    rewrite (FPA xa Hxa) in Hxs2. rewrite Hxs in Hxs2. injection Hxs2 as <-.
    destruct (Segment.right xs <=? out_right) eqn:Eright.
    + apply Z.leb_le in Eright.
      apply bind_ok in Hr as (u & s3 & Hf & Hr). apply free_ok in Hf as ->.
      eapply (IH _ _ _ _ _ _ _ _ _ PA (PH ∪ {[nw]})) in Hr
        as (Hm' & HA' & HR' & HB' & Hx' & PH' & Hw' & Hs').
      * simpl in Hm', HA', HR'. split; [congruence|]. split; [congruence|].
        split; [eapply rights_kept_trans; eauto|]. split.
        { intros B HB. apply HB'. simpl. intros b sx Hnb Hsx.
          destruct (Hnx b Hnb) as (Hbin & y0 & Hy0 & Hle).
          rewrite (FPA b Hbin) in Hsx. rewrite Hy0 in Hsx. injection Hsx as <-.
          pose proof (HB xa xs eq_refl Hxs). lia. }
        split; [exact Hx'|]. exists PH'. auto.
      * exact FW.
      * exact FS.
      * intros b Hnb. apply (Hnx b Hnb).
      * intros a [= <-]. apply elem_of_union_r, elem_of_singleton. reflexivity.
      * simpl. intros wa sw [= <-] Hsw b sx Hnb Hsx.
        rewrite Fnw in Hsw. injection Hsw as <-. simpl.
        destruct (Hnx b Hnb) as (Hbin & y0 & Hy0 & Hle).
        rewrite (FPA b Hbin) in Hsx. rewrite Hy0 in Hsx. injection Hsx as <-.
        lia.
    + apply Z.leb_gt in Eright.
      apply bind_ok in Hr as (u & s3 & Hu & Hr).
      apply update_ok in Hu as (x0 & Hx0 & ->).
      rewrite (FPA xa Hxa) in Hx0. rewrite Hxs in Hx0. injection Hx0 as <-.
      apply ret_ok in Hr as [[= -> -> ->] ->]. simpl.
      assert (Hxs2 : self_store s2 !! xa = Some xs)
        by (rewrite (FPA xa Hxa); exact Hxs).
      split; [exact Fm|]. split; [exact FA|]. split.
      { eapply rights_kept_trans; [exact FR|].
        eapply rights_kept_insert; [exact Hxs2|reflexivity]. }
      split.
      { intros B HB b sx [= <-] Hsx.
        rewrite list_lookup_insert_eq in Hsx
          by (eapply lookup_lt_Some; exact Hxs2).
        injection Hsx as <-. simpl. pose proof (HB xa xs eq_refl Hxs). lia. }
      split; [exact Hx|]. exists (PH ∪ {[nw]}). split; [|exact FS].
      unfold swf in *. simpl. rewrite Fm, FA in *.
      eapply wf_update_shrink; [exact FW|exact Hxs2|simpl; lia|simpl; lia| |
                                reflexivity|].
      * simpl. unfold out_right in Eright. lia.
      * intros Hin. exfalso. apply list_elem_of_fmap in Hin as (e & Ee & He).
        destruct (wf_heads _ _ _ _ _ _ FW e He) as (Hein & _).
        rewrite <- Ee in Hein. apply (wf_disjoint _ _ _ _ _ _ FW xa Hxa Hein).
Qed.

Lemma remove_stitch_wf child x y w s u s' E PA PH :
  remove_stitch child x y w s = Ok (u, s') ->
  swf s E PA PH -> opt_in x PA -> opt_in y PA ->
  before (self_store s) y x ->
  self_m s' = self_m s /\ swf s' E PA PH.
Proof.
  unfold remove_stitch. intros Hr Hw Hx Hy Hb.
  destruct w as [wa|]; [|apply ret_ok in Hr as [_ ->]; auto].
  apply bind_ok in Hr as (u1 & s1 & H1 & Hr).
  assert (F1 : self_m s1 = self_m s /\ self_A s1 = self_A s /\
               swf s1 E PA PH).
  { destruct y as [ya|]; [|apply ret_ok in H1 as [_ ->]; auto].
    apply update_ok in H1 as (sy & Hsy & ->). simpl.
    split; [reflexivity|]. split; [reflexivity|].
    assert (Hya : ya ∈ PA) by (apply Hy; reflexivity).
    destruct (linked_lookup _ _ _ _ _ (wf_PA _ _ _ _ _ _ Hw ya Hya) Hsy)
      as (Hv & _).
    unfold swf in *. simpl.
    eapply wf_update_PA; [exact Hw|exact Hya|exact Hsy|simpl; lia|exact Hv|].
    simpl. intros b ->. assert (Hbin : b ∈ PA) by (apply Hx; reflexivity).
    split; [exact Hbin|].
    destruct (wf_PA _ _ _ _ _ _ Hw b Hbin) as (sx & Hsx & _).
    exists sx. split; [exact Hsx|].
    apply (Hb ya sy eq_refl Hsy b sx eq_refl Hsx). }
  destruct F1 as (Fm1 & FA1 & FW1).
  apply bind_ok in Hr as (u2 & s2 & H2 & Hr).
  assert (F2 : self_m s2 = self_m s /\ self_A s2 = self_A s /\
               swf s2 E PA PH).
  { destruct x as [xa|]; [|apply ret_ok in H2 as [_ ->]; auto].
    apply update_ok in H2 as (sx & Hsx & ->). simpl.
    split; [exact Fm1|]. split; [exact FA1|].
    assert (Hxa : xa ∈ PA) by (apply Hx; reflexivity).
    destruct (linked_lookup _ _ _ _ _ (wf_PA _ _ _ _ _ _ FW1 xa Hxa) Hsx)
      as ([Hv _] & _).
    unfold swf in *. simpl.
    eapply wf_update_shrink; [exact FW1|exact Hsx|simpl; lia|simpl; lia|
                              simpl; exact Hv|reflexivity|reflexivity]. }
  destruct F2 as (Fm2 & FA2 & FW2).
  destruct y as [ya|].
  - apply ret_ok in Hr as [_ ->]. auto.
  - destruct x as [xa|]; apply modify_ok in Hr as ->; simpl;
      (split; [exact Fm2|]); unfold swf in *; simpl.
    + apply wf_set_A; [exact FW2|]. apply Hx. reflexivity.
    + apply wf_delete_A. exact FW2.
Qed.

Lemma remove_child_Inv fuel edgeset child H s H' s' :
  remove_child fuel edgeset child H s = Ok (H', s') ->
  Inv s H -> Inv s' H' /\ self_m s' = self_m s.
Proof.
  unfold remove_child. intros Hr (PA & PH & Hw & Hs).
  apply bind_ok in Hr as (s0 & s1 & Hg & Hr). apply get_ok in Hg as [-> ->].
  destruct (self_A s !! child) as [xa|] eqn:EA.
  - apply bind_ok in Hr as ([x1 y1] & s1 & Hp1 & Hr).
    apply bind_ok in Hr as ([[x2 w2] H2] & s2 & Hp2 & Hr).
    apply bind_ok in Hr as (u & s3 & Hp3 & Hr). apply ret_ok in Hr as [-> ->].
    eapply (remove_left_wf _ _ _ _ _ _ _ _ H PA PH) in Hp1
      as (Hm1 & HA1 & PA1 & Hw1 & Hx1 & Hy1 & Hb1).
    + eapply (remove_inside_wf _ _ _ _ _ _ _ _ _ _ PA1 PH) in Hp2
        as (Hm2 & HA2 & HR2 & HB2 & Hx2 & PH2 & Hw2 & Hs2).
      * eapply (remove_stitch_wf _ _ _ _ _ _ _ H2 PA1 PH2) in Hp3
          as (Hm3 & Hw3).
        -- split; [|congruence]. exists PA1, PH2. auto.
        -- exact Hw2.
        -- exact Hx2.
        -- exact Hy1.
        -- intros ya sy2 Ey Hsy2.
           assert (Hya : ya ∈ PA1) by (apply Hy1; exact Ey).
           destruct (wf_PA _ _ _ _ _ _ Hw1 ya Hya) as (sy1 & Hsy1 & _).
           destruct (HR2 ya sy1 Hsy1) as (sy' & Hsy' & Er).
           rewrite Hsy2 in Hsy'. injection Hsy' as <-. rewrite Er.
           apply HB2. apply (Hb1 ya sy1 Ey Hsy1).
      * exact Hw1.
      * exact Hs.
      * exact Hx1.
      * intros a Ha. discriminate Ha.
      * intros wa sw Ha. discriminate Ha.
    + exact Hw.
    + intros a [= <-]. apply (wf_A _ _ _ _ _ _ Hw child xa EA).
    + intros a Ha. discriminate Ha.
    + intros ya sy Ha. discriminate Ha.
  - apply ret_ok in Hr as [-> ->]. split; [|reflexivity].
    exists PA, PH. auto.
Qed.

Lemma remove_children_Inv fuel edgeset children : forall H s H' s',
  remove_children fuel edgeset children H s = Ok (H', s') ->
  Inv s H -> Inv s' H' /\ self_m s' = self_m s.
Proof.
  induction children as [|c cs IH]; intros H s H' s'; simpl.
  - intros Hr Hi. apply ret_ok in Hr as [-> ->]. auto.
  - intros Hr Hi. apply bind_ok in Hr as (H1 & s1 & Hc & Hr).
    apply remove_child_Inv in Hc as [Hi1 Hm1]; [|exact Hi].
    apply IH in Hr as [Hi2 Hm2]; [|exact Hi1]. split; [exact Hi2|congruence].
Qed.

Lemma remove_edgesets_Inv fuel edgesets : forall H s H' s',
  remove_edgesets fuel edgesets H s = Ok (H', s') ->
  Inv s H -> Inv s' H' /\ self_m s' = self_m s.
Proof.
  induction edgesets as [|e es IH]; intros H s H' s'; simpl.
  - intros Hr Hi. apply ret_ok in Hr as [-> ->]. auto.
  - intros Hr Hi. apply bind_ok in Hr as (H1 & s1 & Hc & Hr).
    apply remove_children_Inv in Hc as [Hi1 Hm1]; [|exact Hi].
    apply IH in Hr as [Hi2 Hm2]; [|exact Hi1]. split; [exact Hi2|congruence].
Qed.

Lemma remove_ancestry_Inv fuel edgesets s H s' :
  remove_ancestry fuel edgesets s = Ok (H, s') ->
  Inv s [] -> Inv s' H /\ self_m s' = self_m s.
Proof. apply remove_edgesets_Inv. Qed.

(** ** Chain sortedness: [merge_labeled_ancestors] *)

Lemma drain_split l H : forall X0 r s H1 X r' s',
  drain l H X0 r s = Ok (H1, X, r', s') ->
  s' = s /\
  exists X1,
    X = X0 ++ X1 /\ H = map (pair l) X1 ++ H1 /\ r' <= r /\
    (forall x, x ∈ X1 ->
       exists sx, self_store s !! x = Some sx /\ r' <= Segment.right sx) /\
    (r' = r \/
     exists x sx, x ∈ X1 /\ self_store s !! x = Some sx /\
                  r' = Segment.right sx) /\
    match H1 with
    | (k, _) :: _ => k <> l
    | [] => True
    end.
Proof.
  induction H as [|[k x] H IH]; intros X0 r s H1 X r' s'; simpl.
  - intros Hd. apply ret_ok in Hd as [[= -> -> ->] ->]. split; [reflexivity|].
    exists []. rewrite app_nil_r. repeat split; auto; try lia.
    intros x Hx. apply elem_of_nil in Hx. contradiction.
  - destruct (k =? l) eqn:Ek.
    + apply Z.eqb_eq in Ek as ->. intros Hd.
      apply bind_ok in Hd as (xs & s1 & Hl & Hd). apply load_ok in Hl as [-> Hxs].
      apply IH in Hd as (-> & X1 & -> & -> & Hle & Hall & Hmin & Hhead).
      split; [reflexivity|]. exists (x :: X1). rewrite <- app_assoc. simpl.
      split; [reflexivity|]. split; [reflexivity|]. split; [lia|]. split.
      * intros y Hy. apply elem_of_cons in Hy as [->|Hy]; [|apply Hall, Hy].
        exists xs. split; [exact Hxs|lia].
      * split; [|exact Hhead].
        destruct Hmin as [->|(x2 & sx2 & Hx2 & Hsx2 & ->)].
        -- destruct (Z.min_spec r (Segment.right xs)) as [[_ ->]|[_ ->]];
             [left; reflexivity|].
           right. exists x, xs. split; [apply elem_of_cons; auto|auto].
        -- right. exists x2, sx2. split; [apply elem_of_cons; auto|auto].
    + intros Hd. apply ret_ok in Hd as [[= -> -> ->] ->]. split; [reflexivity|].
      exists []. rewrite app_nil_r. simpl.
      repeat split; auto; try lia; try (apply Z.eqb_neq; exact Ek).
      intros y Hy. apply elem_of_nil in Hy. contradiction.
Qed.

Lemma keys_sorted_app H1 H2 : keys_sorted (H1 ++ H2) -> keys_sorted H2.
Proof.
  induction H1 as [|e H1 IH]; simpl; [auto|]. intros [_ Hs]. auto.
Qed.

Lemma keys_sorted_head e H e' :
  keys_sorted (e :: H) -> e' ∈ e :: H -> e.1 <= e'.1.
Proof.
  intros [Hle _] Hin. apply elem_of_cons in Hin as [->|Hin]; [lia|auto].
Qed.

Lemma head_lookup m st A E PA PH k x xs :
  wf m st A ((k, x) :: E) PA PH -> st !! x = Some xs ->
  x ∈ PH /\ (x ∉ PA) /\ Segment.left xs = k /\ seg_valid m xs.
Proof.
  intros Hw Hxs.
  destruct (wf_heads _ _ _ _ _ _ Hw (k, x)) as (Hin & (sg & Hsg & Hk) & _);
    [apply elem_of_cons; auto|].
  simpl in *. rewrite Hxs in Hsg. injection Hsg as <-.
  split; [exact Hin|]. split.
  - intros HA. apply (wf_disjoint _ _ _ _ _ _ Hw x HA Hin).
  - split; [exact Hk|].
    apply (linked_lookup _ _ _ _ _ (wf_PH _ _ _ _ _ _ Hw x Hin) Hxs).
Qed.

Lemma singleton_take_wf l H1 x xs s H' alpha s' PA PH :
  singleton_take H1 x xs s = Ok (H', alpha, s') ->
  self_store s !! x = Some xs ->
  swf s ((l, x) :: H1) PA PH -> keys_sorted H1 ->
  (forall e, e ∈ H1 -> Segment.right xs <= e.1) ->
  merged l s s' PA H' alpha.
Proof.
  unfold singleton_take. intros Hr Hxs Hw Hs Hle.
  destruct (head_lookup _ _ _ _ _ _ _ _ _ Hw Hxs) as (HxH & HxA & Hl & [Hv Hm]).
  pose proof (wf_pop_advance _ _ _ _ _ _ _ _ _ Hw Hxs) as Hp.
  apply bind_ok in Hr as (H2 & s1 & Hpush & Hr).
  assert (F : s1 = s /\
              wf (self_m s) (self_store s) (self_A s) H2 PA (PH ∖ {[x]}) /\
              keys_sorted H2 /\
              forall e, e ∈ H2 -> Segment.right xs <= e.1).
  { destruct (Segment.next xs) as [y|].
    - destruct Hp as (sy & Hsy & Hlesy & Hp).
      apply bind_ok in Hpush as (ys & s2 & Hload & Hpush).
      apply load_ok in Hload as [-> Hys]. rewrite Hsy in Hys.
      injection Hys as <-. apply heappush_ok in Hpush as [-> ->].
      split; [reflexivity|]. split.
      + eapply wf_perm; [symmetry; apply heap_insert_perm|exact Hp].
      + split; [apply keys_sorted_insert; exact Hs|].
        intros e He. rewrite heap_insert_perm in He.
        apply elem_of_cons in He as [->|He]; [exact Hlesy|auto].
    - apply ret_ok in Hpush as [-> ->]. auto. }
  destruct F as (-> & W2 & S2 & Hle2). clear Hpush Hp.
  apply bind_ok in Hr as (u & s2 & Hu & Hr).
  apply update_ok in Hu as (x0 & Hx0 & ->).
  rewrite Hxs in Hx0. injection Hx0 as <-.
  apply ret_ok in Hr as [[= -> ->] ->].
  assert (Hxlt : (x < length (self_store s))%nat)
    by (eapply lookup_lt_Some; exact Hxs).
  assert (HxH' : x ∉ PH ∖ {[x]}).
  { intros Hin. apply elem_of_difference in Hin as [_ Hin]. apply Hin.
    apply elem_of_singleton. reflexivity. }
  split; [reflexivity|]. split; [reflexivity|]. split.
  { intros a Ha. simpl. apply list_lookup_insert_ne. intros ->. contradiction. }
  split.
  { intros e He. specialize (Hle2 e He). lia. }
  exists (PA ∪ {[x]}), (PH ∖ {[x]}). split; [apply union_subseteq_l|]. split.
  { unfold swf. simpl.
    eapply wf_adopt with (sg := Segment.set_next None xs).
    - apply wf_update_outside; [exact W2|exact HxA|exact HxH'|exact Hxlt].
    - exact HxH'.
    - apply list_lookup_insert_eq. exact Hxlt.
    - split; simpl; assumption.
    - reflexivity. }
  split; [exact S2|].
  intros a [= <-]. split; [apply elem_of_union_r, elem_of_singleton; reflexivity|].
  exists (Segment.set_next None xs). simpl. split.
  { apply list_lookup_insert_eq. exact Hxlt. }
  split; [lia|exact Hle2].
Qed.

Lemma merge_singleton_wf l H1 x s H' alpha s' PA PH :
  merge_singleton H1 x s = Ok (H', alpha, s') ->
  swf s ((l, x) :: H1) PA PH -> keys_sorted H1 ->
  (forall e, e ∈ H1 -> l < e.1) ->
  merged l s s' PA H' alpha.
Proof.
  unfold merge_singleton. intros Hr Hw Hs Hlt.
  apply bind_ok in Hr as (xs & s1 & Hload & Hr).
  apply load_ok in Hload as [-> Hxs].
  destruct (head_lookup _ _ _ _ _ _ _ _ _ Hw Hxs) as (HxH & HxA & Hl & [Hv Hm]).
  destruct H1 as [|[k x1] T].
  { eapply singleton_take_wf; eauto.
    intros e He. apply elem_of_nil in He. contradiction. }
  destruct (k <? Segment.right xs) eqn:Ek.
  2:{ apply Z.ltb_ge in Ek. eapply singleton_take_wf; eauto.
      intros e He. pose proof (keys_sorted_head _ _ _ Hs He). simpl in *. lia. }
  apply Z.ltb_lt in Ek.
  assert (Hlk : l < k) by (apply (Hlt (k, x1)); apply elem_of_cons; auto).
  assert (Hk1 : forall e, e ∈ (k, x1) :: T -> k <= e.1)
    by (intros e He; apply (keys_sorted_head _ _ _ Hs He)).
  remember ((k, x1) :: T) as H1 eqn:EH1 in *. clear EH1.
  set (st := self_store s) in *.
  set (sg := Segment.mk (Segment.left xs) k (Segment.node xs) None None).
  apply bind_ok in Hr as (a & s1 & Ha & Hr). apply alloc_ok in Ha as [-> ->].
  apply bind_ok in Hr as (u & s2 & Hu & Hr).
  apply update_ok in Hu as (x0 & Hx0 & ->). simpl in Hx0. fold st in Hx0.
  rewrite (lookup_app_l_Some _ _ _ _ Hxs) in Hx0. injection Hx0 as <-.
  apply bind_ok in Hr as (xs' & s3 & Hload & Hr).
  apply load_ok in Hload as [-> Hxs']. simpl in Hxs'. fold st sg in Hxs'.
  assert (Hxlt : (x < length st)%nat) by (eapply lookup_lt_Some; exact Hxs).
  rewrite list_lookup_insert_eq in Hxs' by (rewrite length_app; simpl; lia).
  injection Hxs' as <-.
  apply bind_ok in Hr as (H2 & s4 & Hpush & Hr).
  apply heappush_ok in Hpush as [-> ->]. apply ret_ok in Hr as [[= -> ->] ->].
  simpl. fold st sg.
  assert (W : wf (self_m s) (<[x := Segment.set_left k xs]> (st ++ [sg]))
                (self_A s) ((k, x) :: H1)
                (PA ∪ {[length st]}) PH).
  { eapply wf_head_set_left.
    - eapply wf_alloc_A; [exact Hw| |intros b Hb; discriminate Hb].
      split; simpl; lia.
    - apply lookup_app_l_Some. exact Hxs.
    - exact Ek. }
  split; [reflexivity|]. split; [reflexivity|]. split.
  { intros b Hb. simpl. fold st sg.
    rewrite list_lookup_insert_ne by (intros ->; contradiction).
    apply lookup_app_l. eapply linked_lt. apply (wf_PA _ _ _ _ _ _ Hw b Hb). }
  assert (Hkeys : forall e,
            e ∈ heap_insert (<[x := Segment.set_left k xs]> (st ++ [sg]))
                  (k, x) H1 -> k <= e.1).
  { intros e He. rewrite heap_insert_perm in He.
    apply elem_of_cons in He as [->|He]; [simpl; lia|].
    apply (Hk1 e He). }
  split.
  { intros e He. specialize (Hkeys e He). lia. }
  exists (PA ∪ {[length st]}), PH. split; [apply union_subseteq_l|]. split.
  { unfold swf. simpl. fold st sg.
    eapply wf_perm; [symmetry; apply heap_insert_perm|exact W]. }
  split; [apply keys_sorted_insert; exact Hs|].
  intros a [= <-]. split; [apply elem_of_union_r, elem_of_singleton; reflexivity|].
  exists sg. split.
  { simpl. fold st sg. rewrite list_lookup_insert_ne by lia.
    apply list_lookup_middle. reflexivity. }
  split; [simpl; lia|exact Hkeys].
Qed.

Lemma heap_insert_middle st e (E H : list entry) :
  e :: E ++ H ≡ₚ E ++ heap_insert st e H.
Proof. rewrite heap_insert_perm. apply Permutation_middle. Qed.

Lemma overlap_update_wf l r u lo : forall X H cs s H' cs' s' PA PH,
  overlap_update X r u H cs s = Ok (H', cs', s') ->
  swf s (map (pair l) X ++ H) PA PH -> keys_sorted H ->
  (forall e, e ∈ H -> lo <= e.1) -> lo <= r ->
  self_m s' = self_m s /\ self_A s' = self_A s /\
  (forall a, a ∈ PA -> self_store s' !! a = self_store s !! a) /\
  keys_sorted H' /\ (forall e, e ∈ H' -> lo <= e.1) /\
  exists PH', swf s' H' PA PH'.
Proof.
  induction X as [|x X IH]; intros H cs s H' cs' s' PA PH; simpl.
  - intros Hr Hw Hs Hlo _. apply ret_ok in Hr as [[= -> ->] ->].
    repeat (split; [solve [auto]|]). exists PH. exact Hw.
  - intros Hr Hw Hs Hlo Hlor.
    apply bind_ok in Hr as (xs & s0 & Hload & Hr).
    apply load_ok in Hload as [-> Hxs].
    destruct (head_lookup _ _ _ _ _ _ _ _ _ Hw Hxs) as (HxH & HxA & Hl & [Hv Hm]).
    apply bind_ok in Hr as (H1 & s1 & Hstep & Hr).
    assert (F : self_m s1 = self_m s /\ self_A s1 = self_A s /\
                (forall a, a ∈ PA -> self_store s1 !! a = self_store s !! a) /\
                keys_sorted H1 /\ (forall e, e ∈ H1 -> lo <= e.1) /\
                exists PH1, swf s1 (map (pair l) X ++ H1) PA PH1).
    { destruct (Segment.right xs =? r) eqn:Eeq.
      - apply Z.eqb_eq in Eeq.
        apply bind_ok in Hstep as (u0 & s2 & Hf & Hstep). apply free_ok in Hf as ->.
        pose proof (wf_pop_advance _ _ _ _ _ _ _ _ _ Hw Hxs) as Hp.
        destruct (Segment.next xs) as [y|].
        + destruct Hp as (sy & Hsy & Hlesy & Hp).
          apply bind_ok in Hstep as (ys & s3 & Hload & Hstep).
          apply load_ok in Hload as [-> Hys]. simpl in Hys.
          rewrite Hsy in Hys. injection Hys as <-.
          apply heappush_ok in Hstep as [-> ->]. simpl.
          repeat (split; [solve [auto]|]).
          split; [apply keys_sorted_insert; exact Hs|]. split.
          * intros e He. rewrite heap_insert_perm in He.
            apply elem_of_cons in He as [->|He]; [simpl; lia|auto].
          * exists (PH ∖ {[x]}). unfold swf. simpl.
            eapply wf_perm; [apply heap_insert_middle|exact Hp].
        + apply ret_ok in Hstep as [-> ->]. simpl.
          repeat (split; [solve [auto]|]). exists (PH ∖ {[x]}). exact Hp.
      - destruct (Segment.right xs >? r) eqn:Egt.
        + apply Z.gtb_lt in Egt.
          apply bind_ok in Hstep as (u0 & s2 & Hu & Hstep).
          apply update_ok in Hu as (x0 & Hx0 & ->).
          rewrite Hxs in Hx0. injection Hx0 as <-.
          apply bind_ok in Hstep as (xs' & s3 & Hload & Hstep).
          apply load_ok in Hload as [-> Hxs']. simpl in Hxs'.
          rewrite list_lookup_insert_eq in Hxs'
            by (eapply lookup_lt_Some; exact Hxs).
          injection Hxs' as <-.
          apply heappush_ok in Hstep as [-> ->]. simpl.
          split; [reflexivity|]. split; [reflexivity|]. split.
          { intros a Ha. apply list_lookup_insert_ne. intros ->. contradiction. }
          split; [apply keys_sorted_insert; exact Hs|]. split.
          * intros e He. rewrite heap_insert_perm in He.
            apply elem_of_cons in He as [->|He]; [simpl; lia|auto].
          * exists PH. unfold swf. simpl.
            eapply wf_perm; [apply heap_insert_middle|].
            apply wf_head_set_left with (k := l); [exact Hw|exact Hxs|exact Egt].
        + apply ret_ok in Hstep as [-> ->].
          repeat (split; [solve [auto]|]). exists (PH ∖ {[x]}).
          exact (proj1 (wf_drop_head _ _ _ _ _ _ _ _ Hw)). }
    clear Hstep. destruct F as (Fm & FA & FPA & FS & Flo & PH1 & FW).
    eapply IH in Hr as (Hm' & HA' & HPA' & HS' & Hlo' & PH' & HW');
      [|exact FW|exact FS|exact Flo|exact Hlor].
    split; [congruence|]. split; [congruence|]. split.
    { intros a Ha. rewrite (HPA' a Ha). apply FPA. exact Ha. }
    split; [exact HS'|]. split; [exact Hlo'|]. exists PH'. exact HW'.
Qed.

Lemma overlap_endpoint_store fuel input_id l r_max lenX u s r alpha s' :
  overlap_endpoint fuel input_id l r_max lenX u s = Ok (r, alpha, s') ->
  self_m s' = self_m s /\ self_A s' = self_A s /\
  match alpha with
  | None => self_store s' = self_store s
  | Some a =>
      a = length (self_store s) /\
      self_store s' = self_store s ++ [Segment.mk l r u None None]
  end.
Proof.
  unfold overlap_endpoint. intros He.
  apply bind_ok in He as (u1 & s1 & He1 & He).
  apply bind_ok in He as (u2 & s2 & He2 & He).
  apply bind_ok in He as (v & s3 & He3 & He).
  apply S_ensure_ok in He1 as (_ & (St1 & A1 & _ & M1) & _).
  apply S_ensure_ok in He2 as (_ & (St2 & A2 & _ & M2) & _).
  apply S_get_ok in He3 as [-> _].
  destruct (v =? lenX).
  - apply bind_ok in He as (u3 & s4 & He4 & He). apply S_set_ok in He4 as ->.
    apply bind_ok in He as (r' & s5 & He5 & He).
    apply S_succ_key_ok in He5 as [-> _].
    apply bind_ok in He as (u4 & s6 & He6 & He).
    apply update_ancestral_state_same in He6 as ((St3 & A3 & _ & M3) & _).
    apply ret_ok in He as [[= -> ->] ->]. simpl in *.
    split; [congruence|]. split; congruence.
  - apply bind_ok in He as (r' & s4 & He4 & He).
    apply overlap_walk_same in He4 as ((St3 & A3 & _ & M3) & _).
    apply bind_ok in He as (a & s5 & He5 & He).
    apply alloc_ok in He5 as [-> ->]. apply ret_ok in He as [[= -> ->] ->].
    simpl. split; [congruence|]. split; [congruence|].
    rewrite St3, St2, St1. split; reflexivity.
Qed.

Lemma merge_overlap_wf fuel input_id l r_max H1 X coalescence u0 s
    H' alpha u' s' PA PH :
  merge_overlap fuel input_id l r_max H1 X coalescence u0 s
    = Ok (H', alpha, u', s') ->
  swf s (map (pair l) X ++ H1) PA PH -> keys_sorted H1 ->
  l < r_max -> r_max <= self_m s -> (forall e, e ∈ H1 -> r_max <= e.1) ->
  merged l s s' PA H' alpha.
Proof.
  unfold merge_overlap. intros Hr Hw Hs Hlt Hm HH.
  apply bind_ok in Hr as (u1 & sa & Hu & Hr).
  assert (Hsa : same_segments s sa).
  { destruct (negb coalescence).
    - apply bind_ok in Hu as (v & sv & Hc & Hu). apply ret_ok in Hu as [_ ->].
      apply check_or_record_node_same in Hc as [Hc _]. exact Hc.
    - apply ret_ok in Hu as [_ ->]. apply same_segments_refl. }
  clear Hu. destruct u1 as [u|]; [|discriminate Hr].
  apply bind_ok in Hr as ([r alpha0] & sb & He & Hr).
  apply bind_ok in Hr as ([H2 children] & sc & Hupd & Hr).
  apply bind_ok in Hr as (uu & sd & Hrec & Hr).
  apply ret_ok in Hr as [[= -> -> ->] ->].
  pose proof (swf_same _ _ _ _ _ Hsa Hw) as Hwa.
  destruct Hsa as (Sta & Aa & _ & Ma).
  pose proof (overlap_endpoint_bounds _ _ _ _ _ _ _ _ _ _ He Hlt) as [Hlr Hrmax].
  apply overlap_endpoint_store in He as (Mb & Ab & Hstore).
  apply record_edgeset_same in Hrec as ((Std & Ad & _ & Md) & _).
  destruct alpha0 as [a|].
  - destruct Hstore as [-> Stb].
    assert (Hr' : r <= r_max) by (apply Hrmax; discriminate).
    assert (Hwb : swf sb (map (pair l) X ++ H1) (PA ∪ {[length (self_store sa)]}) PH).
    { unfold swf in *. rewrite Mb, Ab, Stb.
      apply wf_alloc_A; [exact Hwa| |intros b Hb; discriminate Hb].
      split; simpl; lia. }
    eapply (overlap_update_wf l r u r) in Hupd
      as (Mc & Ac & PAc & Sc & Loc & PHc & Wc);
      [|exact Hwb|exact Hs|intros e He; specialize (HH e He); lia|lia].
    assert (Hsg : self_store sd !! length (self_store sa)
                  = Some (Segment.mk l r u None None)).
    { rewrite Std, PAc by (apply elem_of_union_r, elem_of_singleton; reflexivity).
      rewrite Stb. apply list_lookup_middle. reflexivity. }
    split; [congruence|]. split; [congruence|]. split.
    { intros b Hb. rewrite Std, PAc by (apply elem_of_union_l; exact Hb).
      rewrite Stb, Sta. apply lookup_app_l. eapply linked_lt.
      apply (wf_PA _ _ _ _ _ _ Hw b Hb). }
    split.
    { intros e He. specialize (Loc e He). lia. }
    exists (PA ∪ {[length (self_store sa)]}), PHc.
    split; [apply union_subseteq_l|]. split.
    { unfold swf in *. rewrite Md, Ad, Std. exact Wc. }
    split; [exact Sc|]. intros b [= <-].
    split; [apply elem_of_union_r, elem_of_singleton; reflexivity|].
    eexists. split; [exact Hsg|]. simpl. split; [lia|exact Loc].
  - assert (Hwb : swf sb (map (pair l) X ++ H1) PA PH).
    { unfold swf in *. rewrite Mb, Ab, Hstore. exact Hwa. }
    eapply (overlap_update_wf l r u l) in Hupd
      as (Mc & Ac & PAc & Sc & Loc & PHc & Wc);
      [|exact Hwb|exact Hs|intros e He; specialize (HH e He); lia|lia].
    split; [congruence|]. split; [congruence|]. split.
    { intros b Hb. rewrite Std, PAc by exact Hb. rewrite Hstore, Sta.
      reflexivity. }
    split; [exact Loc|]. exists PA, PHc. split; [reflexivity|]. split.
    { unfold swf in *. rewrite Md, Ad, Std. exact Wc. }
    split; [exact Sc|]. intros b Hb. discriminate Hb.
Qed.

Lemma merge_tail_wf l input_id alpha z s z' s' E PA PH :
  merge_tail input_id alpha z s = Ok (z', s') ->
  swf s E PA PH ->
  (forall a, alpha = Some a ->
     a ∈ PA /\
     exists sa, self_store s !! a = Some sa /\ l <= Segment.left sa /\
                forall e, e ∈ E -> Segment.right sa <= e.1) ->
  (forall za, z = Some za ->
     za ∈ PA /\
     exists sz, self_store s !! za = Some sz /\ Segment.right sz <= l /\
                forall e, e ∈ E -> Segment.right sz <= e.1) ->
  self_m s' = self_m s /\ swf s' E PA PH /\ z_ok (self_store s') PA z' E.
Proof.
  unfold merge_tail. intros Hr Hw Halpha Hz.
  destruct alpha as [a|].
  2:{ apply ret_ok in Hr as [-> ->]. split; [reflexivity|]. split; [exact Hw|].
      intros za Ez. destruct (Hz za Ez) as (Hin & sz & Hsz & _ & Hle). eauto. }
  destruct (Halpha a eq_refl) as (Ha & sa & Hsa & Hla & Hlea).
  apply bind_ok in Hr as (u1 & s1 & H1 & Hr).
  assert (F1 : self_m s1 = self_m s /\ swf s1 E PA PH /\
               rights_kept (self_store s) (self_store s1)).
  { destruct z as [za|].
    - destruct (Hz za eq_refl) as (Hza & sz & Hsz & Hlz & _).
      apply update_ok in H1 as (x0 & Hx0 & ->).
      rewrite Hsz in Hx0. injection Hx0 as <-. simpl.
      split; [reflexivity|]. split.
      + unfold swf in *. simpl.
        destruct (linked_lookup _ _ _ _ _ (wf_PA _ _ _ _ _ _ Hw za Hza) Hsz)
          as (Hv & _).
        eapply wf_update_PA; [exact Hw|exact Hza|exact Hsz|simpl; lia|exact Hv|].
        simpl. intros b [= <-]. split; [exact Ha|]. exists sa.
        split; [exact Hsa|lia].
      + eapply rights_kept_insert; [exact Hsz|reflexivity].
    - apply modify_ok in H1 as ->. simpl. split; [reflexivity|]. split.
      + unfold swf in *. simpl. apply wf_set_A; assumption.
      + apply rights_kept_refl. }
  clear H1. destruct F1 as (M1 & W1 & R1).
  apply bind_ok in Hr as (u2 & s2 & H2 & Hr).
  apply update_ok in H2 as (sa1 & Hsa1 & ->).
  apply bind_ok in Hr as (als & s3 & Hload & Hr). apply load_ok in Hload as [-> _].
  apply bind_ok in Hr as (u3 & s4 & Hrec & Hr).
  apply record_mutations_same in Hrec as ((St4 & A4 & _ & M4) & _).
  apply ret_ok in Hr as [-> ->]. simpl in *.
  destruct (linked_lookup _ _ _ _ _ (wf_PA _ _ _ _ _ _ W1 a Ha) Hsa1)
    as ([Hv1 _] & _).
  split; [congruence|]. split.
  - unfold swf in *. rewrite M4, A4, St4. simpl.
    eapply wf_update_shrink; [exact W1|exact Hsa1|simpl; lia|simpl; lia|
                              simpl; exact Hv1|reflexivity|reflexivity].
  - intros za [= <-]. split; [exact Ha|]. rewrite St4.
    destruct (R1 a sa Hsa) as (sa' & Hsa' & Er).
    rewrite Hsa1 in Hsa'. injection Hsa' as <-.
    exists (Segment.set_prev z sa1). split.
    + apply list_lookup_insert_eq. eapply lookup_lt_Some. exact Hsa1.
    + simpl. rewrite Er. exact Hlea.
Qed.

Lemma merged_tail l input_id z s s1 z' s' PA H0 H' alpha :
  merged l s s1 PA H' alpha ->
  z_ok (self_store s) PA z H0 -> (exists x0, (l, x0) ∈ H0) ->
  merge_tail input_id alpha z s1 = Ok (z', s') ->
  self_m s' = self_m s /\
  exists PA' PH',
    swf s' H' PA' PH' /\ keys_sorted H' /\ z_ok (self_store s') PA' z' H'.
Proof.
  intros (M1 & A1 & HPA & Hlo & PA' & PH' & Hsub & W1 & S1 & Halpha) Hz [x0 Hx0] Ht.
  eapply (merge_tail_wf l _ _ _ _ _ _ H' PA' PH') in Ht as (M2 & W2 & Z2).
  - split; [congruence|]. exists PA', PH'. auto.
  - exact W1.
  - exact Halpha.
  - intros za Ez. destruct (Hz za Ez) as (Hza & sz & Hsz & Hle).
    split; [apply Hsub; exact Hza|]. exists sz.
    split; [rewrite (HPA za Hza); exact Hsz|].
    pose proof (Hle _ Hx0) as Hl. simpl in Hl. split; [exact Hl|].
    intros e He. specialize (Hlo e He). lia.
Qed.

Lemma merge_iteration_wf fuel input_id l loc s loc' s' PA PH x0 T :
  merge_iteration fuel input_id l loc s = Ok (loc', s') ->
  loc_H loc = (l, x0) :: T ->
  swf s (loc_H loc) PA PH -> keys_sorted (loc_H loc) ->
  z_ok (self_store s) PA (loc_z loc) (loc_H loc) ->
  self_m s' = self_m s /\
  exists PA' PH',
    swf s' (loc_H loc') PA' PH' /\ keys_sorted (loc_H loc') /\
    z_ok (self_store s') PA' (loc_z loc') (loc_H loc').
Proof.
  unfold merge_iteration. intros Hr EH Hw Hs Hz.
  apply bind_ok in Hr as (s0 & s1 & Hg & Hr). apply get_ok in Hg as [-> ->].
  apply bind_ok in Hr as ([[H1 X] r_max0] & s1 & Hd & Hr).
  apply drain_split in Hd as (-> & X1 & EX & Hsplit & Hr0 & Hall & Hmin & Hhead).
  simpl in EX. subst X1.
  assert (Hl0 : (l, x0) ∈ loc_H loc) by (rewrite EH; apply elem_of_cons; auto).
  assert (Hkeys : forall e, e ∈ loc_H loc -> l <= e.1).
  { intros e He. rewrite EH in Hs, He. apply (keys_sorted_head _ _ _ Hs He). }
  assert (Hvalid : forall x, x ∈ X ->
            exists sx, self_store s !! x = Some sx /\
                       l < Segment.right sx /\ Segment.right sx <= self_m s /\
                       r_max0 <= Segment.right sx).
  { intros x Hx. destruct (Hall x Hx) as (sx & Hsx & Hle).
    assert (Hin : (l, x) ∈ loc_H loc).
    { rewrite Hsplit. apply elem_of_app. left.
      apply list_elem_of_fmap. exists x. auto. }
    destruct (wf_heads _ _ _ _ _ _ Hw _ Hin) as (HxH & (sg & Hsg & Hk) & _).
    simpl in *. rewrite Hsx in Hsg. injection Hsg as <-.
    destruct (linked_lookup _ _ _ _ _ (wf_PH _ _ _ _ _ _ Hw x HxH) Hsx)
      as ([Hv Hm] & _).
    exists sx. split; [exact Hsx|]. split; [lia|]. split; [exact Hm|exact Hle]. }
  assert (HXne : exists x, x ∈ X).
  { destruct X as [|x X]; [|exists x; apply elem_of_cons; auto].
    simpl in Hsplit. rewrite EH in Hsplit. subst H1. simpl in Hhead.
    congruence. }
  rewrite Hsplit in Hw, Hs, Hkeys.
  pose proof (keys_sorted_app _ _ Hs) as Hs1.
  assert (HH1 : forall e, e ∈ H1 -> l < e.1).
  { intros e He. destruct H1 as [|[k x1] T1];
      [apply elem_of_nil in He; contradiction|].
    assert (l <= k).
    { apply (Hkeys (k, x1)). apply elem_of_app. right. apply elem_of_cons. auto. }
    pose proof (keys_sorted_head _ _ _ Hs1 He) as Hke. simpl in *. lia. }
  assert (Hlr0 : l < r_max0).
  { destruct Hmin as [->|(x & sx & Hx & Hsx & ->)].
    - destruct HXne as [x Hx]. destruct (Hvalid x Hx) as (sx & _ & ? & ? & _). lia.
    - destruct (Hvalid x Hx) as (sx' & Hsx' & ? & _).
      rewrite Hsx in Hsx'. injection Hsx' as <-. lia. }
  assert (Hrm : l < tighten r_max0 H1 /\ tighten r_max0 H1 <= self_m s /\
                forall e, e ∈ H1 -> tighten r_max0 H1 <= e.1).
  { destruct HXne as [x Hx]. destruct (Hvalid x Hx) as (sx & _ & _ & Hm & Hle).
    destruct H1 as [|[k x1] T1]; simpl.
    - split; [lia|]. split; [lia|].
      intros e He. apply elem_of_nil in He. contradiction.
    - assert (l < k) by (apply (HH1 (k, x1)); apply elem_of_cons; auto).
      split; [lia|]. split; [lia|].
      intros e He. pose proof (keys_sorted_head _ _ _ Hs1 He). simpl in *. lia. }
  destruct Hrm as (Hlrm & Hrmm & HrmH).
  assert (Hz' : z_ok (self_store s) PA (loc_z loc) (loc_H loc)) by exact Hz.
  destruct X as [|x [|x' X']].
  - destruct HXne as [x Hx]. apply elem_of_nil in Hx. contradiction.
  - apply bind_ok in Hr as ([H' alpha] & s1 & Hsing & Hr).
    apply bind_ok in Hr as (z' & s2 & Htail & Hr).
    apply ret_ok in Hr as [-> ->]. simpl.
    eapply merge_singleton_wf in Hsing; [|exact Hw|exact Hs1|exact HH1].
    eapply merged_tail; eauto.
  - apply bind_ok in Hr as ([[H' alpha] u'] & s1 & Hover & Hr).
    apply bind_ok in Hr as (z' & s2 & Htail & Hr).
    apply ret_ok in Hr as [-> ->]. simpl.
    eapply merge_overlap_wf in Hover;
      [|exact Hw|exact Hs1|exact Hlrm|exact Hrmm|exact HrmH].
    eapply merged_tail; eauto.
Qed.

Lemma merge_loop_Inv fuel input_id : forall loc s u s' PA PH,
  merge_loop fuel input_id loc s = Ok (u, s') ->
  swf s (loc_H loc) PA PH -> keys_sorted (loc_H loc) ->
  z_ok (self_store s) PA (loc_z loc) (loc_H loc) ->
  Inv s' [] /\ self_m s' = self_m s.
Proof.
  induction fuel as [|fuel IH]; intros loc s u s' PA PH Hr Hw Hs Hz;
    simpl in Hr; destruct (loc_H loc) as [|[l x0] T] eqn:EH;
    try discriminate Hr.
  - apply ret_ok in Hr as [_ ->]. split; [|reflexivity].
    exists PA, PH. split; [exact Hw|exact I].
  - apply ret_ok in Hr as [_ ->]. split; [|reflexivity].
    exists PA, PH. split; [exact Hw|exact I].
  - apply bind_ok in Hr as (loc1 & s1 & Hit & Hr).
    rewrite <- EH in Hw, Hs, Hz.
    eapply merge_iteration_wf in Hit as (M1 & PA1 & PH1 & W1 & S1 & Z1);
      [|exact EH|exact Hw|exact Hs|exact Hz].
    eapply IH in Hr as [Hi M2]; [|exact W1|exact S1|exact Z1].
    split; [exact Hi|congruence].
Qed.

Lemma merge_labeled_ancestors_Inv fuel H input_id s u s' :
  merge_labeled_ancestors fuel H input_id s = Ok (u, s') ->
  Inv s H -> Inv s' [] /\ self_m s' = self_m s.
Proof.
  unfold merge_labeled_ancestors. intros Hr (PA & PH & Hw & Hs).
  eapply merge_loop_Inv in Hr; [exact Hr|exact Hw|exact Hs|].
  intros za Hza. discriminate Hza.
Qed.

Lemma sweep_state_Inv ts sample s H z :
  0 < sequence_length ts -> sweep_state ts sample s H z ->
  exists PA PH,
    swf s H PA PH /\ keys_sorted H /\ z_ok (self_store s) PA z H.
Proof.
  assert (Hnone : forall s H, Inv s H ->
            exists PA PH, swf s H PA PH /\ keys_sorted H /\
                          z_ok (self_store s) PA None H).
  { intros s0 H0 (PA & PH & Hw & Hs). exists PA, PH.
    split; [exact Hw|]. split; [exact Hs|]. intros za Hza. discriminate Hza. }
  assert (Hinv : forall s H z,
            (exists PA PH, swf s H PA PH /\ keys_sorted H /\
                           z_ok (self_store s) PA z H) -> Inv s H).
  { intros s0 H0 z0 (PA & PH & Hw & Hs & _). exists PA, PH. auto. }
  intros Hm Hsw. induction Hsw as
    [s0 Hi|fuel edgeset child s H s' H' _ IH Hr|fuel edgesets s s' H _ IH Hr|
     fuel input_id l x T loc s loc' s' _ IH EH Hr|
     fuel input_id s H s' _ IH Hr].
  - apply Hnone. apply (init_Inv ts sample s0 Hm Hi).
  - apply Hnone. apply (remove_child_Inv _ _ _ _ _ _ _ Hr (Hinv _ _ _ IH)).
  - apply Hnone. apply (remove_ancestry_Inv _ _ _ _ _ Hr (Hinv _ _ _ IH)).
  - destruct IH as (PA & PH & Hw & Hs & Hz).
    apply (merge_iteration_wf _ _ _ _ _ _ _ _ _ _ _ Hr EH Hw Hs Hz).
  - apply Hnone.
    apply (merge_labeled_ancestors_Inv _ _ _ _ _ _ Hr (Hinv _ _ _ IH)).
Qed.

(** C4. On an input with a positive sequence length, at every point of
    the sweep (after the constructor, after each removal of a child's
    ancestry, after [remove_ancestry], after each iteration of the loop
    of [merge_labeled_ancestors] and after [merge_labeled_ancestors])
    every segment on a chain reachable from [A] or from the heap [H]
    has [left < right] and ends no later than its successor starts. *)
Theorem chain_sortedness :
  forall ts sample s H z,
    0 < sequence_length ts ->
    sweep_state ts sample s H z ->
    chains_sorted s H.
Proof.
  intros ts sample s H z Hm Hsw. apply Inv_chains_sorted.
  destruct (sweep_state_Inv _ _ _ _ _ Hm Hsw) as (PA & PH & Hw & Hs & _).
  exists PA, PH. auto.
Qed.

(** The states between the parents of the main loop of [simplify] are
    points of the sweep. *)
Lemma main_loop_sweep_state ts sample fuel parents : forall s u s',
  sweep_state ts sample s [] None ->
  main_loop fuel parents s = Ok (u, s') ->
  sweep_state ts sample s' [] None.
Proof.
  induction parents as [|[t input_id] rest IH]; intros s u s' Hsw; simpl.
  - intros Hr. apply ret_ok in Hr as [_ ->]. exact Hsw.
  - intros Hr. apply bind_ok in Hr as (s0 & s1 & Hg & Hr).
    apply get_ok in Hg as [-> ->].
    destruct (bool_decide (self_A s = ∅)).
    + apply ret_ok in Hr as [_ ->]. exact Hsw.
    + apply bind_ok in Hr as (u1 & s1 & Hp & Hr).
      apply (IH s1 u s'); [|exact Hr]. clear Hr IH.
      unfold process_parent in Hp.
      apply bind_ok in Hp as (s0 & s2 & Hg & Hp). apply get_ok in Hg as [-> ->].
      destruct (filter _ _) as [|e es] eqn:Ef.
      * apply ret_ok in Hp as [_ ->]. exact Hsw.
      * apply bind_ok in Hp as (H & s2 & Hrem & Hmerge). destruct u1.
        eapply sweep_merge; [|exact Hmerge].
        eapply sweep_remove_ancestry; [exact Hsw|exact Hrem].
Qed.

Lemma chain_sortedness_witness :
  exists s0 H s1,
    init ts_pairwise [0; 1; 2; 3]%nat = Ok s0 /\
    remove_ancestry 50 [Edgeset.mk 0 10 4 [0; 1]%nat] s0 = Ok (H, s1) /\
    H <> [] /\ self_A s1 <> ∅ /\
    chains_sorted s0 [] /\ chains_sorted s1 H.
Proof.
  destruct (init ts_pairwise [0; 1; 2; 3]%nat) as [s0|e|] eqn:Ei;
    [|vm_compute in Ei; discriminate..].
  destruct (remove_ancestry 50 [Edgeset.mk 0 10 4 [0; 1]%nat] s0)
    as [[H s1]|e|] eqn:Er.
  2,3: exfalso;
    assert (Hv : is_ok (rbind (init ts_pairwise [0; 1; 2; 3]%nat)
                   (remove_ancestry 50 [Edgeset.mk 0 10 4 [0; 1]%nat])) = true)
      by (vm_compute; reflexivity);
    rewrite Ei in Hv; unfold rbind in Hv; rewrite Er in Hv; discriminate Hv.
  assert (Hv : match rbind (init ts_pairwise [0; 1; 2; 3]%nat)
                       (remove_ancestry 50 [Edgeset.mk 0 10 4 [0; 1]%nat]) with
               | Ok (H, s1) =>
                   (length H =? 2)%nat && negb (bool_decide (self_A s1 = ∅))
                   = true
               | _ => False
               end) by (vm_compute; reflexivity).
  rewrite Ei in Hv. unfold rbind in Hv. rewrite Er in Hv.
  apply andb_true_iff in Hv as [HvH HvA].
  exists s0, H, s1. split; [reflexivity|]. split; [exact Er|].
  split; [intros ->; discriminate HvH|].
  split.
  { intros HA. rewrite bool_decide_eq_true_2 in HvA by exact HA.
    discriminate HvA. }
  assert (Hm : 0 < sequence_length ts_pairwise) by (simpl; lia).
  assert (H0 : sweep_state ts_pairwise [0; 1; 2; 3]%nat s0 [] None)
    by (apply sweep_init; exact Ei).
  split.
  - apply (chain_sortedness ts_pairwise [0; 1; 2; 3]%nat s0 [] None Hm H0).
  - apply (chain_sortedness ts_pairwise [0; 1; 2; 3]%nat s1 H None Hm).
    eapply sweep_remove_ancestry; [exact H0|exact Er].
Defined.

(** * Further properties of the methods *)

(** ** Sorting *)

Lemma insert_sorted_perm {T : Type} (le : T -> T -> bool) v l :
  insert_sorted le v l ≡ₚ v :: l.
Proof.
  induction l as [|w l IH]; simpl; [reflexivity|].
  destruct (le v w); [reflexivity|]. rewrite IH. apply Permutation_swap.
Qed.

Lemma sort_by_perm {T : Type} (le : T -> T -> bool) l : sort_by le l ≡ₚ l.
Proof.
  unfold sort_by. induction l as [|v l IH]; simpl; [reflexivity|].
  rewrite insert_sorted_perm, IH. reflexivity.
Qed.

Lemma insert_sorted_HdRel {T : Type} (le : T -> T -> bool)
    (R : T -> T -> Prop) w v l :
  R w v -> HdRel R w l -> HdRel R w (insert_sorted le v l).
Proof.
  intros Hv Hl. destruct l as [|x l]; simpl; [constructor; exact Hv|].
  destruct (le v x); constructor; [exact Hv|].
  inversion Hl; assumption.
Qed.

Lemma insert_sorted_Sorted {T : Type} (le : T -> T -> bool)
    (R : T -> T -> Prop) :
  (forall x y, le x y = true -> R x y) ->
  (forall x y, le x y = false -> R y x) ->
  forall v l, Sorted R l -> Sorted R (insert_sorted le v l).
Proof.
  intros Ht Hf v l. induction l as [|w l IH]; intros Hs; simpl.
  - repeat constructor.
  - destruct (le v w) eqn:E.
    + constructor; [exact Hs|]. constructor. apply Ht. exact E.
    + inversion Hs as [|? ? Hs' Hh]; subst. constructor; [apply IH; exact Hs'|].
      apply insert_sorted_HdRel; [apply Hf; exact E|exact Hh].
Qed.

Lemma sort_by_Sorted {T : Type} (le : T -> T -> bool) (R : T -> T -> Prop) :
  (forall x y, le x y = true -> R x y) ->
  (forall x y, le x y = false -> R y x) ->
  forall l, Sorted R (sort_by le l).
Proof.
  intros Ht Hf l. unfold sort_by. induction l as [|v l IH]; simpl.
  - constructor.
  - apply insert_sorted_Sorted; assumption.
Qed.

Lemma sorted_nat_Sorted l : Sorted Nat.le (sorted_nat l).
Proof.
  apply sort_by_Sorted.
  - intros x y H. apply Nat.leb_le. exact H.
  - intros x y H. apply Nat.leb_gt in H. unfold Nat.le. lia.
Qed.

(** ** The order of segments *)

(** X1. The comparison of two segments orders them by their two ends
    alone: the third components it compares are both the node of the
    left operand, so the nodes never decide, and two segments with the
    same ends are not below each other in either direction. *)
Theorem segment_lt_by_ends :
  forall x y : Segment.t,
    (Segment.lt x y = true <->
     Segment.left x < Segment.left y \/
     (Segment.left x = Segment.left y /\ Segment.right x < Segment.right y)) /\
    (Segment.lt x y = true -> Segment.lt y x = false).
Proof.
  intros x y.
  assert (E : forall a b, Segment.lt a b = true <->
              Segment.left a < Segment.left b \/
              (Segment.left a = Segment.left b /\
               Segment.right a < Segment.right b)).
  { intros a b. unfold Segment.lt.
    destruct (Z.eqb_spec (Segment.left a) (Segment.left b)) as [El|El]; simpl.
    - destruct (Z.eqb_spec (Segment.right a) (Segment.right b)) as [Er|Er]; simpl.
      + rewrite Nat.ltb_irrefl. split; [discriminate|]. lia.
      + rewrite Z.ltb_lt. lia.
    - rewrite Z.ltb_lt. lia. }
  split; [apply E|]. intros Hxy. apply E in Hxy.
  apply not_true_iff_false. intros Hyx. apply E in Hyx. lia.
Qed.

Lemma segment_lt_by_ends_witness :
  Segment.lt (Segment.mk 0 5 7 None None) (Segment.mk 0 5 9 None None) = false /\
  Segment.lt (Segment.mk 0 5 9 None None) (Segment.mk 0 5 7 None None) = false /\
  Segment.lt (Segment.mk 0 4 9 None None) (Segment.mk 0 5 7 None None) = true /\
  Segment.lt (Segment.mk 0 5 7 None None) (Segment.mk 0 4 9 None None) = false.
Proof.
  split; [reflexivity|]. split; [reflexivity|]. split; [reflexivity|].
  apply (proj2 (segment_lt_by_ends (Segment.mk 0 4 9 None None)
                  (Segment.mk 0 5 7 None None))).
  reflexivity.
Defined.

(** ** Output nodes *)

Lemma land_sample_bit x :
  (Z.land x NODE_IS_SAMPLE = 0 \/ Z.land x NODE_IS_SAMPLE = 1) /\
  (Z.land x NODE_IS_SAMPLE = 1 <-> Z.testbit x 0 = true).
Proof.
  unfold NODE_IS_SAMPLE.
  assert (E : Z.land x 1 = x mod 2).
  { change 1 with (Z.ones 1) at 1. rewrite Z.land_ones by lia. reflexivity. }
  rewrite E. pose proof (Z.bit0_mod x) as Hb.
  pose proof (Z.mod_pos_bound x 2 ltac:(lia)) as Hm.
  destruct (Z.testbit x 0); simpl in Hb.
  - split; [lia|]. split; [reflexivity|lia].
  - split; [lia|]. split; [lia|discriminate].
Qed.

Lemma record_sample_node_ok input_id s node :
  ts_nodes (self_ts s) !! input_id = Some node ->
  record_sample_node input_id s =
    Ok (tt, set_num_output_nodes
              (set_node_table s (self_node_table s ++ [sample_row node]))
              (self_num_output_nodes s + 1)%nat).
Proof.
  intros Hn. unfold record_sample_node, bind, get, lift, ts_node.
  rewrite Hn. reflexivity.
Qed.

Lemma record_sample_node_bad input_id s :
  ts_nodes (self_ts s) !! input_id = None ->
  record_sample_node input_id s = Raise IndexError.
Proof.
  intros Hn. unfold record_sample_node, bind, get, lift, ts_node.
  rewrite Hn. reflexivity.
Qed.

(** X2. [record_sample_node] appends exactly one row for an input
    node that exists: the time and the population are copied and of
    the flags only the sample bit is kept, so the flags of the row are
    0 or 1; the node counter goes up by one and nothing else changes.
    For an id without an input node the lookup raises [IndexError]. *)
Theorem record_sample_node_row :
  forall input_id s,
    match ts_nodes (self_ts s) !! input_id with
    | Some node =>
        exists row,
          record_sample_node input_id s =
            Ok (tt, set_num_output_nodes
                      (set_node_table s (self_node_table s ++ [row]))
                      (self_num_output_nodes s + 1)%nat) /\
          (row_flags row = 0 \/ row_flags row = 1) /\
          (row_flags row = 1 <-> Z.testbit (Node.flags node) 0 = true) /\
          row_time row = Node.time node /\
          row_population row = Node.population node
    | None => record_sample_node input_id s = Raise IndexError
    end.
Proof.
  intros input_id s.
  destruct (ts_nodes (self_ts s) !! input_id) as [node|] eqn:En.
  - exists (sample_row node). split; [apply record_sample_node_ok; exact En|].
    unfold sample_row. simpl.
    destruct (land_sample_bit (Node.flags node)) as [H1 H2]. auto.
  - apply record_sample_node_bad. exact En.
Qed.

Lemma list_index_spec v l j :
  list_index v l = Some j ->
  l !! j = Some v /\ forall j', (j' < j)%nat -> l !! j' <> Some v.
Proof.
  revert j. induction l as [|w l IH]; intros j; simpl; [discriminate|].
  destruct (Nat.eqb_spec w v) as [->|Hne].
  - intros [= <-]. split; [reflexivity|]. intros j' Hj'. lia.
  - destruct (list_index v l) as [k|]; simpl; [|discriminate].
    intros [= <-]. destruct (IH k eq_refl) as [Hk Hlt]. split; [exact Hk|].
    intros [|j'] Hj'; simpl; [congruence|]. apply Hlt. lia.
Qed.

Lemma in_list_spec v l : in_list v l = true <-> v ∈ l.
Proof.
  unfold in_list. rewrite existsb_exists. split.
  - intros (x & Hin & Hx). apply Nat.eqb_eq in Hx as ->.
    apply list_elem_of_In. exact Hin.
  - intros Hin. exists v. split; [apply list_elem_of_In; exact Hin|].
    apply Nat.eqb_refl.
Qed.

(** X3. [check_or_record_node] has three outcomes and no other.  For
    an id of the sample list it returns the first position of the id
    in the list and changes nothing; [list.index] cannot fail there,
    so no [ValueError] is raised.  For another id with an input node
    it appends one row and returns the old node count, which is the
    position of that row when the count is the length of the table.
    For another id without an input node it raises [IndexError]. *)
Theorem check_or_record_node_cases :
  forall input_id s,
    (in_list input_id (self_sample s) = true <-> input_id ∈ self_sample s) /\
    if in_list input_id (self_sample s) then
      exists j,
        check_or_record_node input_id s = Ok (j, s) /\
        self_sample s !! j = Some input_id /\
        forall j', (j' < j)%nat -> self_sample s !! j' <> Some input_id
    else
      match ts_nodes (self_ts s) !! input_id with
      | Some node =>
          check_or_record_node input_id s =
            Ok (self_num_output_nodes s,
                set_num_output_nodes
                  (set_node_table s
                     (self_node_table s ++
                        [mkNodeRow (Node.flags node) (Node.time node)
                           (Node.population node)]))
                  (self_num_output_nodes s + 1)%nat)
      | None => check_or_record_node input_id s = Raise IndexError
      end.
Proof.
  intros input_id s. split; [apply in_list_spec|].
  destruct (check_or_record_node_spec input_id s) as [Hin Hout].
  destruct (in_list input_id (self_sample s)) eqn:E.
  - destruct (Hin eq_refl) as (j & Hj & Hc). exists j. split; [exact Hc|].
    apply list_index_spec. exact Hj.
  - destruct (ts_nodes (self_ts s) !! input_id) as [node|] eqn:En.
    + rewrite (Hout eq_refl node eq_refl). do 3 f_equal. lia.
    + unfold check_or_record_node, bind, get. rewrite E. simpl.
      unfold lift, ts_node. rewrite En. reflexivity.
Qed.

(** ** The constructor *)

Lemma only_sites_refl s : only_sites s s.
Proof. unfold only_sites. destruct s; reflexivity. Qed.

Lemma record_mutations_only_sites i l r o s v s' :
  record_mutations i l r o s = Ok (v, s') -> only_sites s s'.
Proof.
  intros Hr.
  assert (Hp : preserves (only_sites s) (record_mutations i l r o)).
  { apply frame_record_mutations; unfold only_sites; intros s1 w ->;
      destruct s; reflexivity. }
  apply (Hp s v s' (only_sites_refl s) Hr).
Qed.

Lemma init_sample_inv j id s u s' :
  init_sample j id s = Ok (u, s') ->
  exists node,
    ts_nodes (self_ts s) !! id = Some node /\
    only_sites
      (set_num_output_nodes
         (set_node_table
            (set_A
               (set_num_used_segments
                  (set_store s
                     (self_store s ++ [Segment.mk 0 (self_m s) j None None]))
                  (self_num_used_segments s + 1))
               (<[id := length (self_store s)]> (self_A s)))
            (self_node_table s ++ [sample_row node]))
         (self_num_output_nodes s + 1)%nat)
      s'.
Proof.
  unfold init_sample. intros Hi.
  apply bind_ok in Hi as (s0 & s1 & Hg & Hi). apply get_ok in Hg as [-> ->].
  apply bind_ok in Hi as (x & s1 & Ha & Hi). apply alloc_ok in Ha as [-> ->].
  apply bind_ok in Hi as (u1 & s2 & Hs & Hi). apply modify_ok in Hs as ->.
  apply bind_ok in Hi as (u2 & s3 & Hr & Hi).
  apply bind_ok in Hi as (s4 & s5 & Hg & Hi). apply get_ok in Hg as [-> ->].
  destruct (ts_nodes (self_ts s) !! id) as [node|] eqn:En.
  - rewrite (record_sample_node_ok id _ node) in Hr by exact En.
    injection Hr; intros; subst. exists node. split; [reflexivity|].
    apply record_mutations_only_sites in Hi. exact Hi.
  - rewrite record_sample_node_bad in Hr by exact En. discriminate Hr.
Qed.

Lemma only_sites_fields s s' :
  only_sites s s' ->
  self_ts s' = self_ts s /\ self_sample s' = self_sample s /\
  self_n s' = self_n s /\ self_m s' = self_m s /\ self_A s' = self_A s /\
  self_node_table s' = self_node_table s /\
  self_edgeset_table s' = self_edgeset_table s /\
  self_last_edgeset s' = self_last_edgeset s /\
  self_num_output_nodes s' = self_num_output_nodes s /\
  self_num_used_segments s' = self_num_used_segments s /\
  self_S s' = self_S s /\ self_store s' = self_store s.
Proof.
  unfold only_sites. intros E. rewrite E. simpl. repeat split.
Qed.

Lemma init_inv ts sample s :
  init ts sample = Ok s ->
  exists u s1,
    init_samples 0 sample (empty_simplifier ts sample) = Ok (u, s1) /\
    s = set_S s1 (<[self_m s1 := -1]>
                    (<[0 := Z.of_nat (self_n s1)]> (self_S s1))).
Proof.
  unfold init. intros Hi.
  destruct (init_body sample (empty_simplifier ts sample)) as [[w s0]| |] eqn:E;
    try discriminate.
  injection Hi as ->. unfold init_body in E.
  apply bind_ok in E as (u & s1 & Hs & E).
  apply bind_ok in E as (s2 & s3 & Hg & E). apply get_ok in Hg as [-> ->].
  apply bind_ok in E as (u2 & s4 & H1 & E).
  apply S_set_ok in H1 as ->. apply S_set_ok in E as ->.
  exists u, s1. split; [exact Hs|]. destruct s1; reflexivity.
Qed.

Lemma init_samples_tables sample : forall j s u s',
  init_samples j sample s = Ok (u, s') ->
  self_ts s' = self_ts s /\ self_sample s' = self_sample s /\
  self_n s' = self_n s /\ self_m s' = self_m s /\
  self_edgeset_table s' = self_edgeset_table s /\
  self_last_edgeset s' = self_last_edgeset s /\
  self_S s' = self_S s /\
  dom (self_sites s') = dom (self_sites s) /\
  self_num_output_nodes s' = (self_num_output_nodes s + length sample)%nat /\
  exists rows,
    self_node_table s' = self_node_table s ++ rows /\
    Forall2 (is_sample_row (self_ts s)) sample rows.
Proof.
  induction sample as [|id rest IH]; intros j s u s'; simpl.
  - intros Hr. apply ret_ok in Hr as [_ ->].
    repeat (split; [first [reflexivity|lia]|]).
    exists []. rewrite app_nil_r. split; [reflexivity|constructor].
  - intros Hi. apply bind_ok in Hi as (u1 & s1 & H1 & Hi).
    assert (Hd : dom (self_sites s1) = dom (self_sites s)).
    { unfold init_sample in H1.
      apply bind_ok in H1 as (s0 & s2 & Hg & H1). apply get_ok in Hg as [-> ->].
      apply bind_ok in H1 as (x & s2 & Ha & H1). apply alloc_ok in Ha as [-> ->].
      apply bind_ok in H1 as (u2 & s3 & Hs & H1). apply modify_ok in Hs as ->.
      apply bind_ok in H1 as (u3 & s4 & Hr & H1).
      apply bind_ok in H1 as (s5 & s6 & Hg & H1). apply get_ok in Hg as [-> ->].
      apply record_mutations_sites_dom in H1. rewrite H1.
      unfold record_sample_node in Hr.
      apply bind_ok in Hr as (s7 & s8 & Hg & Hr). apply get_ok in Hg as [-> ->].
      apply bind_ok in Hr as (nd & s9 & Hl & Hr).
      unfold lift in Hl. destruct (ts_node _ _); simpl in Hl; try discriminate.
      injection Hl as <- <-.
      apply bind_ok in Hr as (u4 & s10 & Hm1 & Hr).
      apply modify_ok in Hm1 as ->. apply modify_ok in Hr as ->. reflexivity. }
    apply init_sample_inv in H1 as (node & Hn & Ho).
    apply only_sites_fields in Ho
      as (F1 & F2 & F3 & F4 & F5 & F6 & F7 & F8 & F9 & F10 & F11 & F12).
    simpl in *.
    apply IH in Hi as (G1 & G2 & G3 & G4 & G5 & G6 & G7 & G8 & G9 & rows & G10 & G11).
    split; [congruence|]. split; [congruence|]. split; [congruence|].
    split; [congruence|]. split; [congruence|]. split; [congruence|].
    split; [congruence|]. split; [congruence|]. split; [lia|].
    exists (sample_row node :: rows). split.
    + rewrite G10, F6, <- app_assoc. reflexivity.
    + constructor; [exists node; auto|]. rewrite <- F1. exact G11.
Qed.

(** X4. What the constructor leaves in the output side of the
    simplifier: the node table has exactly one row per entry of the
    sample list, in the order of the list, the row of entry [j] being
    the input node [sample[j]] with only the sample bit kept; the node
    counter is the length of the list; no edgeset is recorded or
    pending, no site is recorded, and the overlap map holds
    [S[0] = n] and [S[m] = -1]. *)
Theorem init_tables :
  forall ts sample s,
    init ts sample = Ok s ->
    Forall2 (is_sample_row ts) sample (self_node_table s) /\
    self_num_output_nodes s = length sample /\
    self_edgeset_table s = [] /\ self_last_edgeset s = None /\
    self_sites s = ∅ /\
    self_S s = <[sequence_length ts := -1]>
                 (<[0 := Z.of_nat (length sample)]> ∅) /\
    self_ts s = ts /\ self_sample s = sample /\
    self_n s = length sample /\ self_m s = sequence_length ts.
Proof.
  intros ts sample s Hi. apply init_inv in Hi as (u & s1 & Hs & ->).
  apply init_samples_tables in Hs
    as (G1 & G2 & G3 & G4 & G5 & G6 & G7 & G8 & G9 & rows & G10 & G11).
  simpl in *. rewrite G3, G4, G7.
  split; [rewrite G10; exact G11|]. split; [exact G9|].
  split; [exact G5|]. split; [exact G6|]. split.
  { apply dom_empty_inv_L. rewrite G8. apply dom_empty_L. }
  repeat split; assumption.
Qed.

Lemma init_tables_witness :
  exists s,
    init ts_pairwise [2; 0]%nat = Ok s /\
    Forall2 (is_sample_row ts_pairwise) [2; 0]%nat (self_node_table s) /\
    self_num_output_nodes s = 2%nat /\
    self_S s = <[10 := -1]> (<[0 := 2]> ∅).
Proof.
  destruct (init ts_pairwise [2; 0]%nat) as [s|e|] eqn:E;
    [|vm_compute in E; discriminate..].
  exists s. split; [reflexivity|].
  destruct (init_tables ts_pairwise [2; 0]%nat s E)
    as (H1 & H2 & _ & _ & _ & H3 & _).
  split; [exact H1|]. split; [exact H2|exact H3].
Defined.

Lemma init_samples_ancestry sample : forall j s u s',
  init_samples j sample s = Ok (u, s') ->
  self_m s' = self_m s /\
  self_store s' =
    self_store s ++
    map (fun k => Segment.mk 0 (self_m s) k None None) (seq j (length sample)) /\
  forall id,
    (id ∉ sample -> self_A s' !! id = self_A s !! id) /\
    (id ∈ sample ->
     exists k, sample !! k = Some id /\
               (forall k', (k < k')%nat -> sample !! k' <> Some id) /\
               self_A s' !! id = Some (length (self_store s) + k)%nat).
Proof.
  induction sample as [|id0 rest IH]; intros j s u s'; simpl.
  - intros Hr. apply ret_ok in Hr as [_ ->].
    split; [reflexivity|]. split; [rewrite app_nil_r; reflexivity|].
    intros id. split; [reflexivity|]. intros Hin.
    apply elem_of_nil in Hin. contradiction.
  - intros Hi. apply bind_ok in Hi as (u1 & s1 & H1 & Hi).
    apply init_sample_inv in H1 as (node & Hn & Ho).
    apply only_sites_fields in Ho
      as (F1 & F2 & F3 & F4 & F5 & F6 & F7 & F8 & F9 & F10 & F11 & F12).
    simpl in *.
    apply IH in Hi as (G1 & G2 & G3).
    split; [congruence|]. split.
    { rewrite G2, F12, F4, <- app_assoc. reflexivity. }
    intros id. destruct (G3 id) as [Gout Gin].
    rewrite F12, length_app in Gin. simpl in Gin.
    destruct (decide (id ∈ rest)) as [Hr|Hr].
    + assert (Hk : exists k, (id0 :: rest) !! k = Some id /\
                (forall k', (k < k')%nat -> (id0 :: rest) !! k' <> Some id) /\
                self_A s' !! id = Some (length (self_store s) + k)%nat).
      { destruct (Gin Hr) as (k & Hk & Hlast & HA). exists (S k).
        split; [exact Hk|]. split.
        - intros [|k'] Hk'; [lia|]. simpl. apply Hlast. lia.
        - rewrite HA. f_equal. lia. }
      split; [|intros _; exact Hk].
      intros Hnot. exfalso. apply Hnot. apply elem_of_cons. auto.
    + rewrite (Gout Hr), F5. destruct (decide (id = id0)) as [->|Hne].
      * rewrite lookup_insert_eq. split.
        { intros Hnot. exfalso. apply Hnot. apply elem_of_cons. auto. }
        intros _. exists 0%nat. split; [reflexivity|]. split.
        -- intros [|k'] Hk'; [lia|]. simpl. intros Hl. apply Hr.
           eapply list_elem_of_lookup_2. exact Hl.
        -- f_equal. lia.
      * rewrite lookup_insert_ne by auto. split; [reflexivity|].
        intros Hin. apply elem_of_cons in Hin as [?|?]; contradiction.
Qed.

(** X5. What the constructor leaves in the ancestry side: the keys of
    [A] are exactly the ids of the sample list; there is one segment
    per entry of the list, each [(0, m)] without neighbours; and the
    segment that [A] holds for an id is labelled with the last
    position of the id in the list (a later entry with the same id
    overwrites the earlier one in [A]). *)
Theorem init_ancestry :
  forall ts sample s,
    init ts sample = Ok s ->
    (forall id, is_Some (self_A s !! id) <-> id ∈ sample) /\
    (forall id a,
       self_A s !! id = Some a ->
       exists j,
         self_store s !! a
           = Some (Segment.mk 0 (sequence_length ts) j None None) /\
         sample !! j = Some id /\
         forall j', (j < j')%nat -> sample !! j' <> Some id) /\
    length (self_store s) = length sample.
Proof.
  intros ts sample s Hi. apply init_inv in Hi as (u & s1 & Hs & ->).
  apply init_samples_ancestry in Hs as (G1 & G2 & G3). simpl in *.
  assert (Hstore : forall k, (k < length sample)%nat ->
            self_store s1 !! k
            = Some (Segment.mk 0 (sequence_length ts) k None None)).
  { intros k Hk. rewrite G2. rewrite list_lookup_fmap.
    rewrite lookup_seq_lt by exact Hk. reflexivity. }
  split; [|split].
  - intros id. destruct (G3 id) as [Gout Gin]. split.
    + intros Hsome. destruct (decide (id ∈ sample)) as [Hin|Hnot]; [exact Hin|].
      rewrite (Gout Hnot), lookup_empty in Hsome.
      destruct Hsome as [? Hsome]. discriminate Hsome.
    + intros Hin. destruct (Gin Hin) as (k & _ & _ & HA). rewrite HA. eauto.
  - intros id a Ha. destruct (G3 id) as [Gout Gin].
    destruct (decide (id ∈ sample)) as [Hin|Hnot].
    + destruct (Gin Hin) as (k & Hk & Hlast & HA). rewrite HA in Ha.
      injection Ha as <-. exists k. simpl. split; [|auto].
      apply Hstore. eapply lookup_lt_Some. exact Hk.
    + rewrite (Gout Hnot), lookup_empty in Ha. discriminate Ha.
  - rewrite G2, length_map, length_seq. reflexivity.
Qed.

Lemma init_ancestry_witness :
  exists s,
    init ts_pairwise [0; 1; 0]%nat = Ok s /\
    (forall id a,
       self_A s !! id = Some a ->
       exists j,
         self_store s !! a = Some (Segment.mk 0 10 j None None) /\
         [0; 1; 0]%nat !! j = Some id /\
         forall j', (j < j')%nat -> [0; 1; 0]%nat !! j' <> Some id) /\
    length (self_store s) = 3%nat.
Proof.
  destruct (init ts_pairwise [0; 1; 0]%nat) as [s|e|] eqn:E;
    [|vm_compute in E; discriminate..].
  exists s. split; [reflexivity|].
  destruct (init_ancestry ts_pairwise [0; 1; 0]%nat s E) as (_ & H2 & H3).
  split; [exact H2|exact H3].
Defined.

(** ** [simplify] on degenerate inputs *)

Lemma main_loop_empty_A fuel parents s :
  self_A s = ∅ -> main_loop fuel parents s = Ok (tt, s).
Proof.
  intros HA. destruct parents as [|[t i] rest]; simpl; [reflexivity|].
  unfold bind, get. rewrite bool_decide_eq_true_2 by exact HA. reflexivity.
Qed.

(** X6. With an empty sample list [simplify] never returns tables,
    whatever the input: the constructor succeeds with an empty [A],
    the main loop stops at once, no edgeset has been recorded, and the
    unpacking of [self.last_edgeset] raises [TypeError]. *)
Theorem simplify_empty_sample :
  forall fuel ts, simplify fuel ts [] = Raise TypeError.
Proof.
  intros fuel ts. unfold simplify, init, init_body. simpl.
  unfold run, bind at 1, get. unfold bind at 1.
  rewrite main_loop_empty_A by reflexivity. reflexivity.
Qed.

(** ** The output of [simplify] *)

Lemma simplify_inv fuel ts sample t s :
  simplify fuel ts sample = Ok (t, s) ->
  exists s0 u s1,
    init ts sample = Ok s0 /\
    main_loop fuel (the_parents (self_ts s0)) s0 = Ok (u, s1) /\
    finalise s1 = Ok (t, s).
Proof.
  unfold simplify. intros Hs.
  destruct (init ts sample) as [s0| |] eqn:Ei; try discriminate.
  simpl in Hs. unfold run in Hs.
  apply bind_ok in Hs as (s0' & s1 & H1 & Hs). apply get_ok in H1 as [-> ->].
  apply bind_ok in Hs as (u & s1 & Hl & Hf).
  exists s0, u, s1. auto.
Qed.

Lemma finalise_inv s t s' :
  finalise s = Ok (t, s') ->
  exists last st mt,
    self_last_edgeset s = Some last /\
    s' = set_edgeset_table s (self_edgeset_table s ++ [last]) /\
    site_rows 0 (sorted_Z (keys (self_sites s))) [] [] s' = Ok (st, mt, s') /\
    t = mkTables (self_node_table s) (self_edgeset_table s ++ [last]) st mt.
Proof.
  unfold finalise. intros Hf.
  apply bind_ok in Hf as (s0 & s1 & Hg & Hf). apply get_ok in Hg as [-> ->].
  destruct (self_last_edgeset s) as [last|]; [|discriminate Hf].
  apply bind_ok in Hf as (u & s1 & Hm & Hf). apply modify_ok in Hm as ->.
  apply bind_ok in Hf as (s2 & s3 & Hg & Hf). apply get_ok in Hg as [-> ->].
  apply bind_ok in Hf as ([st mt] & s3 & Hr & Hf).
  pose proof (site_rows_state _ _ _ _ _ _ _ Hr) as ->.
  apply bind_ok in Hf as (s4 & s5 & Hg & Hf). apply get_ok in Hg as [-> ->].
  apply ret_ok in Hf as [-> ->].
  exists last, st, mt. simpl in *. auto.
Qed.

(** X7. The tables that [simplify] returns never hold a site or a
    mutation, whatever mutations the input has: no site is ever stored
    in [self.sites], so the two tables built from it are empty. *)
Theorem simplify_outputs_no_sites :
  forall fuel ts sample t s,
    simplify fuel ts sample = Ok (t, s) ->
    sites t = [] /\ mutations t = [] /\ self_sites s = ∅.
Proof.
  intros fuel ts sample t s Hs.
  apply simplify_inv in Hs as (s0 & u & s1 & Hi & Hl & Hf).
  pose proof (sweep_records_no_site _ _ _ _ _ _ Hi Hl) as He.
  apply finalise_inv in Hf as (last & st & mt & _ & -> & Hr & ->).
  rewrite He in Hr. unfold keys in Hr. rewrite map_to_list_empty in Hr.
  simpl in Hr. injection Hr as <- <-. simpl. auto.
Qed.

Lemma simplify_outputs_no_sites_witness :
  exists t s,
    simplify 50 (ts_two_sites no_allele) [0; 1]%nat = Ok (t, s) /\
    ts_sites (ts_two_sites no_allele) <> [] /\
    sites t = [] /\ mutations t = [] /\ self_sites s = ∅.
Proof.
  destruct (simplify 50 (ts_two_sites no_allele) [0; 1]%nat) as [[t s]|e|] eqn:E;
    [|vm_compute in E; discriminate..].
  exists t, s. split; [reflexivity|]. split; [discriminate|].
  apply (simplify_outputs_no_sites _ _ _ _ _ E).
Defined.

Lemma record_edgeset_children_sorted l r p c :
  preserves
    (fun s => Forall (fun row => Sorted Nat.le (row_children row)) (emitted s))
    (record_edgeset l r p c).
Proof.
  intros s v s' HP. unfold record_edgeset, bind, get, modify, emitted in *.
  destruct (self_last_edgeset s) as [last|] eqn:El; simpl in HP.
  - apply Forall_app in HP as [Ht Hl].
    destruct (squash_condition _ _ _ _); intros [= <- <-]; simpl.
    + apply Forall_app. split; [exact Ht|].
      constructor; [|constructor]. simpl. apply sorted_nat_Sorted.
    + apply Forall_app. split; [apply Forall_app; auto|].
      constructor; [|constructor]. simpl. apply sorted_nat_Sorted.
  - rewrite app_nil_r in HP. intros [= <- <-]. simpl.
    apply Forall_app. split; [exact HP|].
    constructor; [|constructor]. simpl. apply sorted_nat_Sorted.
Qed.

(** X8. In every row of the edgeset table that [simplify] returns the
    children are in nondecreasing order of their output ids: a row is
    only ever built by [record_edgeset], which sorts the children. *)
Theorem simplify_children_sorted :
  forall fuel ts sample t s,
    simplify fuel ts sample = Ok (t, s) ->
    Forall (fun row => Sorted Nat.le (row_children row)) (edgesets t).
Proof.
  intros fuel ts sample t s Hs.
  apply simplify_inv in Hs as (s0 & u & s1 & Hi & Hl & Hf).
  apply finalise_edgesets in Hf as ->.
  apply init_emitted in Hi as [Et El].
  assert (Hp : preserves
            (fun s => Forall (fun row => Sorted Nat.le (row_children row))
                        (emitted s))
            (main_loop fuel (the_parents (self_ts s0)))).
  { apply frame_main_loop; try (intros; assumption).
    - apply record_edgeset_children_sorted.
    - intros. apply frame_record_mutations; intros; assumption.
    - intros. apply frame_update_ancestral_state; intros; assumption. }
  eapply Hp; [|exact Hl]. unfold emitted. rewrite Et, El. constructor.
Qed.

Lemma simplify_children_sorted_witness :
  exists t s,
    simplify 50 ts_pairwise [3; 2; 1; 0]%nat = Ok (t, s) /\
    edgesets t <> [] /\
    Forall (fun row => Sorted Nat.le (row_children row)) (edgesets t).
Proof.
  destruct (simplify 50 ts_pairwise [3; 2; 1; 0]%nat) as [[t s]|e|] eqn:E;
    [|vm_compute in E; discriminate..].
  exists t, s. split; [reflexivity|]. split.
  - assert (Hv : match simplify 50 ts_pairwise [3; 2; 1; 0]%nat with
                 | Ok q => length (edgesets q.1) = 3%nat
                 | _ => False
                 end) by (vm_compute; reflexivity).
    rewrite E in Hv. simpl in Hv. intros Hn. rewrite Hn in Hv. discriminate Hv.
  - apply (simplify_children_sorted _ _ _ _ _ E).
Defined.

(** ** The order of the parents *)

Lemma enumerate_from_fst {T : Type} (l : list T) : forall k,
  (enumerate_from k l).*1 = seq k (length l).
Proof.
  induction l as [|v l IH]; intros k; simpl; [reflexivity|].
  rewrite IH. reflexivity.
Qed.

Lemma elem_of_enumerate_from {T : Type} (l : list T) : forall k i v,
  (i, v) ∈ enumerate_from k l <-> (k <= i)%nat /\ l !! (i - k)%nat = Some v.
Proof.
  induction l as [|w l IH]; intros k i v; simpl.
  - rewrite elem_of_nil. split; [tauto|]. intros [_ H]. discriminate H.
  - rewrite elem_of_cons, IH. split.
    + intros [[= -> ->]|[Hle Hl]].
      * split; [lia|]. rewrite Nat.sub_diag. reflexivity.
      * split; [lia|]. replace (i - k)%nat with (S (i - S k)) by lia. exact Hl.
    + intros [Hle Hl]. destruct (decide (i = k)) as [->|Hne].
      * rewrite Nat.sub_diag in Hl. injection Hl as ->. left. reflexivity.
      * right. split; [lia|].
        replace (i - k)%nat with (S (i - S k)) in Hl by lia. exact Hl.
Qed.

(** X9. [simplify] visits every input node exactly once, in
    nondecreasing order of time and, among nodes of the same time, in
    increasing order of id: the list [the_parents] is sorted for the
    order of the pairs [(time, input_id)], its ids are a permutation
    of [0 .. num_nodes - 1], and each id is paired with the time of
    its node. *)
Theorem the_parents_order :
  forall ts,
    Sorted parent_before (the_parents ts) /\
    (the_parents ts).*2 ≡ₚ seq 0 (num_nodes ts) /\
    forall t i,
      (t, i) ∈ the_parents ts <->
      exists node, ts_nodes ts !! i = Some node /\ Node.time node = t.
Proof.
  intros ts. unfold the_parents. split; [|split].
  - apply sort_by_Sorted; intros [t1 i1] [t2 i2]; unfold parent_le, parent_before;
      simpl; destruct (Z.eqb_spec t1 t2) as [->|Hne]; simpl.
    + rewrite Nat.leb_le. intros H. right. auto.
    + rewrite Z.ltb_lt. intros H. left. exact H.
    + rewrite Nat.leb_gt. intros H. right. split; [reflexivity|lia].
    + rewrite Z.ltb_ge. intros H. left. lia.
  - rewrite sort_by_perm. unfold num_nodes.
    rewrite <- (enumerate_from_fst (ts_nodes ts) 0).
    generalize (enumerate_from 0 (ts_nodes ts)). intros l.
    induction l as [|[i nd] l IH]; simpl; [reflexivity|].
    rewrite IH. reflexivity.
  - intros t i. rewrite elem_of_sort_by, list_elem_of_fmap. split.
    + intros ([j nd] & [= -> ->] & Hin). simpl.
      apply elem_of_enumerate_from in Hin as [_ Hl].
      rewrite Nat.sub_0_r in Hl. exists nd. auto.
    + intros (nd & Hl & <-). exists (i, nd). split; [reflexivity|].
      apply elem_of_enumerate_from. split; [lia|].
      rewrite Nat.sub_0_r. exact Hl.
Qed.

(** ** Parents whose children carry no ancestry *)

Lemma remove_child_absent fuel edgeset child H s :
  self_A s !! child = None -> remove_child fuel edgeset child H s = Ok (H, s).
Proof.
  intros HA. unfold remove_child, bind, get. rewrite HA. reflexivity.
Qed.

Lemma remove_children_absent fuel edgeset children H s :
  (forall c, c ∈ children -> self_A s !! c = None) ->
  remove_children fuel edgeset children H s = Ok (H, s).
Proof.
  induction children as [|c cs IH]; intros Hall; simpl; [reflexivity|].
  unfold bind. rewrite remove_child_absent
    by (apply Hall; apply elem_of_cons; auto).
  apply IH. intros c' Hc'. apply Hall. apply elem_of_cons. auto.
Qed.

Lemma remove_edgesets_absent fuel edgesets H s :
  (forall e c, e ∈ edgesets -> c ∈ Edgeset.children e -> self_A s !! c = None) ->
  remove_edgesets fuel edgesets H s = Ok (H, s).
Proof.
  induction edgesets as [|e es IH]; intros Hall; simpl; [reflexivity|].
  unfold bind. rewrite remove_children_absent
    by (intros c Hc; apply (Hall e c); [apply elem_of_cons; auto|exact Hc]).
  apply IH. intros e' c He' Hc. apply (Hall e' c); [|exact Hc].
  apply elem_of_cons. auto.
Qed.

(** X10. [remove_ancestry] on edgesets none of whose children has a
    chain in [A] (in particular on an empty list of edgesets, or when
    [A] is empty) returns an empty heap and leaves the simplifier as
    it is: nothing is allocated, freed or relinked. *)
Theorem remove_ancestry_without_ancestry :
  forall fuel edgesets s,
    (forall e c, e ∈ edgesets -> c ∈ Edgeset.children e ->
                 self_A s !! c = None) ->
    remove_ancestry fuel edgesets s = Ok ([], s).
Proof.
  intros fuel edgesets s Hall. apply remove_edgesets_absent. exact Hall.
Qed.

Lemma remove_ancestry_without_ancestry_witness :
  remove_ancestry 0 (ts_edgesets ts_pairwise) (empty_simplifier ts_pairwise [])
  = Ok ([], empty_simplifier ts_pairwise []).
Proof.
  apply remove_ancestry_without_ancestry.
  intros e c _ _. apply lookup_empty.
Defined.

(** X11. A parent none of whose children (over all its input
    edgesets) has a chain in [A] is skipped by the main loop of
    [simplify] without any effect: the removal returns an empty heap
    and the merge of an empty heap does nothing, so no node and no
    edgeset is recorded for it. *)
Theorem process_parent_without_ancestry :
  forall fuel input_id s,
    (forall e c, e ∈ ts_edgesets (self_ts s) ->
                 Edgeset.parent e = input_id ->
                 c ∈ Edgeset.children e -> self_A s !! c = None) ->
    process_parent fuel input_id s = Ok (tt, s).
Proof.
  intros fuel input_id s Hall. unfold process_parent, bind at 1, get.
  destruct (filter _ _) as [|e es] eqn:Ef; [reflexivity|].
  unfold bind, remove_ancestry. rewrite remove_edgesets_absent.
  - unfold merge_labeled_ancestors. destruct fuel; reflexivity.
  - intros e' c He' Hc. rewrite <- Ef in He'.
    apply list_elem_of_filter in He' as [Hp Hin]. apply (Hall e' c); auto.
Qed.

Lemma process_parent_without_ancestry_witness :
  exists s0,
    init ts_pairwise [0; 1]%nat = Ok s0 /\
    process_parent 0 5 s0 = Ok (tt, s0).
Proof.
  destruct (init ts_pairwise [0; 1]%nat) as [s0|e|] eqn:E;
    [|vm_compute in E; discriminate..].
  exists s0. split; [reflexivity|].
  apply process_parent_without_ancestry.
  assert (Hts : self_ts s0 = ts_pairwise /\
                self_A s0 !! 2%nat = None /\ self_A s0 !! 3%nat = None).
  { assert (Hv : match init ts_pairwise [0; 1]%nat with
                 | Ok q => self_ts q = ts_pairwise /\
                           self_A q !! 2%nat = None /\ self_A q !! 3%nat = None
                 | _ => False
                 end) by (vm_compute; auto).
    rewrite E in Hv. exact Hv. }
  destruct Hts as (-> & H2 & H3). simpl.
  intros e0 c He Hp Hc.
  repeat (apply elem_of_cons in He as [->|He]; [simpl in Hp; try discriminate Hp|]).
  - repeat (apply elem_of_cons in Hc as [->|Hc]; [assumption|]).
    apply elem_of_nil in Hc. contradiction.
  - apply elem_of_nil in He. contradiction.
Defined.

(** ** What [remove_ancestry] touches *)

Section FrameStore.
Variable P : Simplifier -> Prop.
Hypothesis P_store : forall s v, P s -> P (set_store s v).
Hypothesis P_used : forall s v, P s -> P (set_num_used_segments s v).

Lemma store_load a : preserves P (load a).
Proof.
  intros s v s' HP. unfold load. destruct (self_store s !! a); [|discriminate].
  intros [= <- <-]. exact HP.
Qed.

Lemma store_update a f : preserves P (update a f).
Proof.
  intros s v s' HP. unfold update. destruct (self_store s !! a); [|discriminate].
  intros [= <- <-]. auto.
Qed.

Lemma store_alloc l r n p q : preserves P (alloc_segment l r n p q).
Proof. intros s v s' HP [= <- <-]. auto. Qed.

Lemma store_free u : preserves P (free_segment u).
Proof. apply preserves_modify. auto. Qed.

Lemma store_heappush H e : preserves P (heappush H e).
Proof. intros s v s' HP [= <- <-]. exact HP. Qed.

Hint Resolve store_load store_update store_alloc store_free store_heappush
  : pres.

Lemma store_remove_left fuel e x y : preserves P (remove_left fuel e x y).
Proof.
  revert x y. induction fuel as [|fuel IH]; intros x y; simpl; pres.
Qed.

Lemma store_remove_inside fuel e x w H :
  preserves P (remove_inside fuel e x w H).
Proof.
  revert x w H. induction fuel as [|fuel IH]; intros x w H; simpl; pres.
Qed.

Lemma store_remove_stitch_links (x y : option addr) :
  preserves P
    (match y with
     | Some ya => update ya (Segment.set_next x)
     | None => ret tt
     end ;;;
     match x with
     | Some xa => update xa (Segment.set_prev y)
     | None => ret tt
     end).
Proof. destruct y, x; pres. Qed.
End FrameStore.

Lemma only_segments_refl s : only_segments s s.
Proof. unfold only_segments. destruct s; reflexivity. Qed.

Lemma only_segments_store s s1 v :
  only_segments s s1 -> only_segments s (set_store s1 v).
Proof. unfold only_segments. intros ->. destruct s; reflexivity. Qed.

Lemma only_segments_used s s1 v :
  only_segments s s1 -> only_segments s (set_num_used_segments s1 v).
Proof. unfold only_segments. intros ->. destruct s; reflexivity. Qed.

Lemma only_segments_A s s1 v :
  only_segments s s1 -> only_segments s (set_A s1 v).
Proof. unfold only_segments. intros ->. destruct s; reflexivity. Qed.

Lemma remove_child_touches fuel edgeset child H s H' s' :
  remove_child fuel edgeset child H s = Ok (H', s') ->
  forall s0,
    only_segments s0 s /\ dom (self_A s) ⊆ dom (self_A s0) ->
    only_segments s0 s' /\ dom (self_A s') ⊆ dom (self_A s0).
Proof.
  unfold remove_child. intros Hr s0 [Ho Hd].
  apply bind_ok in Hr as (s1 & s2 & Hg & Hr). apply get_ok in Hg as [-> ->].
  destruct (self_A s !! child) as [xa|] eqn:EA;
    [|apply ret_ok in Hr as [_ ->]; auto].
  apply bind_ok in Hr as ([x1 y1] & s1 & Hp1 & Hr).
  apply bind_ok in Hr as ([[x2 w2] H2] & s2 & Hp2 & Hr).
  apply bind_ok in Hr as (u & s3 & Hp3 & Hr). apply ret_ok in Hr as [_ ->].
  set (Q := fun s1 : Simplifier =>
              only_segments s0 s1 /\ self_A s1 = self_A s).
  assert (QS : forall s1 v, Q s1 -> Q (set_store s1 v)).
  { intros s9 v9 [Ha Hb]. split; [apply only_segments_store; exact Ha|exact Hb]. }
  assert (QU : forall s1 v, Q s1 -> Q (set_num_used_segments s1 v)).
  { intros s9 v9 [Ha Hb]. split; [apply only_segments_used; exact Ha|exact Hb]. }
  assert (Q0 : Q s) by (split; [exact Ho|reflexivity]).
  pose proof (store_remove_left Q QS QU _ _ _ _ _ _ _ Q0 Hp1) as Q1.
  pose proof (store_remove_inside Q QS QU _ _ _ _ _ _ _ _ Q1 Hp2) as Q2.
  unfold remove_stitch in Hp3. destruct w2 as [wa|];
    [|apply ret_ok in Hp3 as [_ ->]; destruct Q2 as [? ->]; auto].
  apply bind_ok in Hp3 as (u1 & s4 & Hy & Hp3).
  apply bind_ok in Hp3 as (u2 & s5 & Hx & Hp3).
  assert (Q5 : Q s5).
  { assert (Q4 : Q s4).
    { destruct y1 as [ya|]; [|apply ret_ok in Hy as [_ ->]; exact Q2].
      exact (store_update Q QS _ _ _ _ _ Q2 Hy). }
    destruct x2 as [xb|]; [|apply ret_ok in Hx as [_ ->]; exact Q4].
    exact (store_update Q QS _ _ _ _ _ Q4 Hx). }
  destruct Q5 as [O5 A5].
  assert (Hc : child ∈ dom (self_A s)) by (apply elem_of_dom; eauto).
  destruct y1 as [ya|].
  - apply ret_ok in Hp3 as [_ ->]. rewrite A5. auto.
  - destruct x2 as [xb|]; apply modify_ok in Hp3 as ->; simpl;
      (split; [apply only_segments_A; exact O5|]); rewrite A5.
    + rewrite dom_insert_L. intros k Hk.
      apply elem_of_union in Hk as [Hk|Hk]; [|apply Hd; exact Hk].
      apply elem_of_singleton in Hk as ->. apply Hd. exact Hc.
    + rewrite dom_delete_L. intros k Hk.
      apply elem_of_difference in Hk as [Hk _]. apply Hd. exact Hk.
Qed.

Lemma remove_edgesets_touches fuel edgesets : forall H s H' s',
  remove_edgesets fuel edgesets H s = Ok (H', s') ->
  forall s0,
    only_segments s0 s /\ dom (self_A s) ⊆ dom (self_A s0) ->
    only_segments s0 s' /\ dom (self_A s') ⊆ dom (self_A s0).
Proof.
  induction edgesets as [|e es IH]; intros H s H' s'; simpl.
  - intros Hr s0 HP. apply ret_ok in Hr as [_ ->]. exact HP.
  - intros Hr s0 HP. apply bind_ok in Hr as (H1 & s1 & Hc & Hr).
    eapply IH; [exact Hr|]. clear Hr IH.
    revert H s H1 s1 Hc HP.
    induction (Edgeset.children e) as [|c cs IHc]; intros H s H1 s1; simpl.
    + intros Hr HP. apply ret_ok in Hr as [_ ->]. exact HP.
    + intros Hr HP. apply bind_ok in Hr as (H2 & s2 & Hc & Hr).
      eapply IHc; [exact Hr|]. eapply remove_child_touches; eauto.
Qed.

(** X12. [remove_ancestry] works on the ancestry alone: whenever it
    returns, the only fields of the simplifier that can differ are the
    segment store, [A] and the segment counter (the output tables, the
    pending edgeset, the recorded sites, the counters of the output
    and the overlap map [S] are as before), and it gives no chain to
    an id that had none: the keys of [A] after the call are among the
    keys before. *)
Theorem remove_ancestry_touches_segments_only :
  forall fuel edgesets s H s',
    remove_ancestry fuel edgesets s = Ok (H, s') ->
    only_segments s s' /\ dom (self_A s') ⊆ dom (self_A s).
Proof.
  intros fuel edgesets s H s' Hr. unfold remove_ancestry in Hr.
  eapply remove_edgesets_touches; [exact Hr|].
  split; [apply only_segments_refl|reflexivity].
Qed.

Lemma remove_ancestry_touches_segments_only_witness :
  exists s0 H s1,
    init ts_pairwise [0; 1; 2; 3]%nat = Ok s0 /\
    remove_ancestry 50 [Edgeset.mk 2 10 4 [0; 1]%nat] s0 = Ok (H, s1) /\
    self_store s1 <> self_store s0 /\
    only_segments s0 s1 /\ dom (self_A s1) ⊆ dom (self_A s0).
Proof.
  destruct (init ts_pairwise [0; 1; 2; 3]%nat) as [s0|e|] eqn:Ei;
    [|vm_compute in Ei; discriminate..].
  destruct (remove_ancestry 50 [Edgeset.mk 2 10 4 [0; 1]%nat] s0)
    as [[H s1]|e|] eqn:Er.
  2,3: exfalso;
    assert (Hv : is_ok (rbind (init ts_pairwise [0; 1; 2; 3]%nat)
                   (remove_ancestry 50 [Edgeset.mk 2 10 4 [0; 1]%nat])) = true)
      by (vm_compute; reflexivity);
    rewrite Ei in Hv; unfold rbind in Hv; rewrite Er in Hv; discriminate Hv.
  exists s0, H, s1. split; [reflexivity|]. split; [exact Er|]. split.
  - assert (Hv : match init ts_pairwise [0; 1; 2; 3]%nat with
                 | Ok q0 =>
                     match remove_ancestry 50 [Edgeset.mk 2 10 4 [0; 1]%nat] q0 with
                     | Ok (_, q1) =>
                         (length (self_store q0), length (self_store q1))
                         = (4%nat, 8%nat)
                     | _ => False
                     end
                 | _ => False
                 end) by (vm_compute; reflexivity).
    rewrite Ei, Er in Hv. injection Hv as H0 H1. intros Heq.
    rewrite Heq in H1. rewrite H0 in H1. discriminate H1.
  - apply (remove_ancestry_touches_segments_only _ _ _ _ _ Er).
Defined.

(** ** The squash buffer keeps what it is given *)

Lemma span_total_app a b : span_total (a ++ b) = span_total a + span_total b.
Proof.
  unfold span_total. induction a as [|row a IH]; simpl; [reflexivity|].
  rewrite IH. lia.
Qed.

(** X13. [record_edgeset] never fails and never loses an interval:
    the length of genome covered by the emitted rows together with the
    pending one grows by exactly [right - left], whether the new
    edgeset is squashed into the pending row or not; the table is only
    appended to, by at most one row; and the pending row afterwards
    ends at [right], has the given parent and holds a permutation of
    the given children. *)
Theorem record_edgeset_span :
  forall left right parent children s,
    exists s',
      record_edgeset left right parent children s = Ok (tt, s') /\
      span_total (emitted s') = span_total (emitted s) + (right - left) /\
      self_edgeset_table s `prefix_of` self_edgeset_table s' /\
      (length (self_edgeset_table s') <= S (length (self_edgeset_table s)))%nat /\
      exists row,
        self_last_edgeset s' = Some row /\ row_right row = right /\
        row_parent row = parent /\ row_children row ≡ₚ children.
Proof.
  intros left right parent children s.
  unfold record_edgeset, bind, get, modify, emitted.
  destruct (self_last_edgeset s) as [last|] eqn:El.
  - destruct (squash_condition _ _ _ _) eqn:Ec.
    + apply squash_condition_spec in Ec as (Hp & Hc & Hr).
      eexists. split; [reflexivity|]. simpl.
      rewrite !span_total_app. simpl. split; [lia|].
      split; [reflexivity|]. split; [lia|].
      eexists. split; [reflexivity|]. simpl.
      split; [reflexivity|]. split; [reflexivity|]. apply sort_by_perm.
    + eexists. split; [reflexivity|]. simpl.
      rewrite !span_total_app. simpl. split; [lia|].
      split; [apply prefix_app_r; reflexivity|]. split.
      { rewrite length_app. simpl. lia. }
      eexists. split; [reflexivity|]. simpl.
      split; [reflexivity|]. split; [reflexivity|]. apply sort_by_perm.
  - eexists. split; [reflexivity|]. simpl.
    rewrite !span_total_app. simpl. split; [lia|].
    split; [reflexivity|]. split; [lia|].
    eexists. split; [reflexivity|]. simpl.
    split; [reflexivity|]. split; [reflexivity|]. apply sort_by_perm.
Qed.

(** ** What [record_mutations] does to the recorded sites *)

Lemma only_sites_trans s1 s2 s3 :
  only_sites s1 s2 -> only_sites s2 s3 -> only_sites s1 s3.
Proof.
  unfold only_sites. destruct s1, s2, s3. simpl. intros E1 E2.
  injection E1 as -> -> -> -> -> -> -> -> -> -> -> ->.
  injection E2 as -> -> -> -> -> -> -> -> -> -> -> ->.
  reflexivity.
Qed.

Lemma add_mutations_nil o st : add_mutations o [] st = st.
Proof. unfold add_mutations. simpl. rewrite app_nil_r. destruct st; reflexivity. Qed.

Lemma add_mutations_app o a b st :
  add_mutations o (a ++ b) st = add_mutations o b (add_mutations o a st).
Proof. unfold add_mutations. simpl. rewrite map_app, app_assoc. reflexivity. Qed.

Lemma mutations_added_refl o s : mutations_added o (fun _ => []) 0 0 s s.
Proof.
  split; [apply only_sites_refl|]. split.
  - intros p. destruct (self_sites s !! p); simpl; [|reflexivity].
    rewrite add_mutations_nil. reflexivity.
  - split; lia.
Qed.

Lemma mutations_added_trans o e1 e2 n1 n2 m1 m2 s1 s2 s3 :
  mutations_added o e1 n1 m1 s1 s2 ->
  mutations_added o e2 n2 m2 s2 s3 ->
  mutations_added o (fun p => e1 p ++ e2 p) (n1 + n2) (m1 + m2) s1 s3.
Proof.
  intros (O1 & P1 & N1 & M1) (O2 & P2 & N2 & M2).
  split; [eapply only_sites_trans; eauto|]. split.
  - intros p. rewrite P2, P1. destruct (self_sites s1 !! p); simpl; [|reflexivity].
    rewrite add_mutations_app. reflexivity.
  - split; lia.
Qed.

Lemma mutations_added_ext o e e' n n' m m' s s' :
  (forall p, e p = e' p) -> n = n' -> m = m' ->
  mutations_added o e n m s s' -> mutations_added o e' n' m' s s'.
Proof.
  intros He -> -> (O & P & N & M). split; [exact O|]. split; [|auto].
  intros p. rewrite <- He. apply P.
Qed.

Lemma mutations_added_unrecorded o e n m s s' site :
  mutations_added o e n m s s' -> unrecorded s' site = unrecorded s site.
Proof.
  intros (_ & P & _). unfold unrecorded. apply bool_decide_ext.
  rewrite P. destruct (self_sites s !! Site.position site); simpl; split;
    congruence.
Qed.

Lemma record_mutation_at_effect site mu i o s :
  exists s',
    record_mutation_at site mu i o s = Ok (tt, s') /\
    mutations_added o
      (fun p => if at_position p site
                then List.filter (fun mu => Nat.eqb (Mutation.node mu) i) [mu]
                else [])
      (length (List.filter (fun mu => Nat.eqb (Mutation.node mu) i) [mu]))
      (if unrecorded s site
       then length (List.filter (fun mu => Nat.eqb (Mutation.node mu) i) [mu])
       else 0)
      s s'.
Proof.
  unfold record_mutation_at. simpl.
  destruct (Nat.eqb (Mutation.node mu) i) eqn:Eh.
  - unfold bind, get, modify, unrecorded.
    destruct (self_sites s !! Site.position site) as [stored|] eqn:Es.
    + eexists. split; [reflexivity|].
      rewrite bool_decide_eq_false_2 by discriminate.
      split; [unfold only_sites; destruct s; reflexivity|]. split.
      * intros p. simpl. unfold at_position.
        destruct (Z.eqb_spec (Site.position site) p) as [<-|Hne].
        -- rewrite lookup_insert_eq, Es. reflexivity.
        -- rewrite lookup_insert_ne by exact Hne.
           destruct (self_sites s !! p); simpl; [|reflexivity].
           rewrite add_mutations_nil. reflexivity.
      * simpl. split; lia.
    + eexists. split; [reflexivity|].
      rewrite bool_decide_eq_true_2 by reflexivity.
      split; [unfold only_sites; destruct s; reflexivity|]. split.
      * intros p. simpl. unfold at_position.
        destruct (Z.eqb_spec (Site.position site) p) as [<-|Hne].
        -- rewrite Es. reflexivity.
        -- destruct (self_sites s !! p); simpl; [|reflexivity].
           rewrite add_mutations_nil. reflexivity.
      * simpl. split; lia.
  - exists s. split; [reflexivity|].
    eapply mutations_added_ext; [| | |apply mutations_added_refl].
    + intros p. destruct (at_position p site); reflexivity.
    + reflexivity.
    + destruct (unrecorded s site); reflexivity.
Qed.

Lemma record_site_mutations_effect site i o mus : forall s,
  exists s',
    for_each mus (fun mu => record_mutation_at site mu i o) s = Ok (tt, s') /\
    mutations_added o
      (fun p => if at_position p site
                then List.filter (fun mu => Nat.eqb (Mutation.node mu) i) mus
                else [])
      (length (List.filter (fun mu => Nat.eqb (Mutation.node mu) i) mus))
      (if unrecorded s site
       then length (List.filter (fun mu => Nat.eqb (Mutation.node mu) i) mus)
       else 0)
      s s'.
Proof.
  induction mus as [|mu mus IH]; intros s.
  - exists s. split; [reflexivity|]. simpl.
    eapply mutations_added_ext; [| | |apply mutations_added_refl].
    + intros p. destruct (at_position p site); reflexivity.
    + reflexivity.
    + destruct (unrecorded s site); reflexivity.
  - destruct (record_mutation_at_effect site mu i o s) as (s1 & E1 & H1).
    destruct (IH s1) as (s2 & E2 & H2).
    exists s2. split.
    { cbn [for_each]. unfold bind. rewrite E1. exact E2. }
    rewrite (mutations_added_unrecorded _ _ _ _ _ _ site H1) in H2.
    eapply mutations_added_ext; [| | |eapply mutations_added_trans; eauto].
    + intros p. simpl. destruct (at_position p site); simpl.
      * destruct (Nat.eqb (Mutation.node mu) i); reflexivity.
      * reflexivity.
    + simpl. destruct (Nat.eqb (Mutation.node mu) i); reflexivity.
    + simpl. destruct (unrecorded s site); [|reflexivity].
      destruct (Nat.eqb (Mutation.node mu) i); reflexivity.
Qed.

Lemma copied_step i l r keep site :
  (if in_range l r site && keep site
   then List.filter (fun mu => Nat.eqb (Mutation.node mu) i)
          (Site.mutations site)
   else [])
  = if in_range l r site
    then if keep site
         then List.filter (fun mu => Nat.eqb (Mutation.node mu) i)
                (Site.mutations site)
         else []
    else [].
Proof. destruct (in_range l r site), (keep site); reflexivity. Qed.

Lemma record_sites_effect i l r o ss : forall s,
  exists s',
    for_each ss (fun site =>
      if (l <=? Site.position site) && (Site.position site <? r) then
        for_each (Site.mutations site) (fun mutation =>
          record_mutation_at site mutation i o)
      else ret tt) s = Ok (tt, s') /\
    mutations_added o
      (fun p => copied_mutations (mkTreeSequence [] [] ss 0 no_allele) i l r
                  (at_position p))
      (length (copied_mutations (mkTreeSequence [] [] ss 0 no_allele) i l r
                 (fun _ => true)))
      (length (copied_mutations (mkTreeSequence [] [] ss 0 no_allele) i l r
                 (unrecorded s)))
      s s'.
Proof.
  unfold copied_mutations. simpl.
  induction ss as [|site ss IH]; intros s.
  - exists s. split; [reflexivity|]. apply mutations_added_refl.
  - cbn [for_each flat_map].
    change ((l <=? Site.position site) && (Site.position site <? r))
      with (in_range l r site).
    assert (H1 : exists s1,
              (if in_range l r site
               then for_each (Site.mutations site)
                      (fun mutation => record_mutation_at site mutation i o)
               else ret tt) s = Ok (tt, s1) /\
              mutations_added o
                (fun p => if in_range l r site && at_position p site
                          then List.filter
                                 (fun mu => Nat.eqb (Mutation.node mu) i)
                                 (Site.mutations site)
                          else [])
                (length (if in_range l r site && true
                         then List.filter
                                (fun mu => Nat.eqb (Mutation.node mu) i)
                                (Site.mutations site)
                         else []))
                (length (if in_range l r site && unrecorded s site
                         then List.filter
                                (fun mu => Nat.eqb (Mutation.node mu) i)
                                (Site.mutations site)
                         else []))
                s s1).
    { destruct (in_range l r site); simpl.
      - destruct (record_site_mutations_effect site i o (Site.mutations site) s)
          as (s1 & E1 & M1).
        exists s1. split; [exact E1|].
        eapply mutations_added_ext; [| | |exact M1].
        + intros p. reflexivity.
        + reflexivity.
        + destruct (unrecorded s site); reflexivity.
      - exists s. split; [reflexivity|]. apply mutations_added_refl. }
    destruct H1 as (s1 & E1 & M1).
    destruct (IH s1) as (s2 & E2 & M2).
    exists s2. split; [unfold bind; rewrite E1; exact E2|].
    eapply mutations_added_ext; [| | |eapply mutations_added_trans; eauto].
    + intros p. reflexivity.
    + rewrite length_app. reflexivity.
    + rewrite length_app. f_equal. f_equal.
      apply flat_map_ext. intros site'.
      rewrite (mutations_added_unrecorded _ _ _ _ _ _ site' M1). reflexivity.
Qed.

(** X14. [record_mutations] never fails, and this is all it does.
    To the site recorded in [self.sites] at a position [p] it appends,
    in the order of the input, one mutation on [output_id] for each
    input mutation on [input_id] at a site at [p] in [[left, right)],
    with the derived state copied; the position, ancestral state and
    earlier mutations of the recorded site stay, and no key is added
    or removed.  [num_output_mutations] grows by the number of input
    mutations copied, and [num_output_sites] by the number of those
    that lie at positions that are not recorded: once per mutation,
    not once per site. *)
Theorem record_mutations_effect :
  forall input_id left right output_id s,
    exists s',
      record_mutations input_id left right output_id s = Ok (tt, s') /\
      mutations_added output_id
        (fun p => copied_mutations (self_ts s) input_id left right
                    (at_position p))
        (length (copied_mutations (self_ts s) input_id left right
                   (fun _ => true)))
        (length (copied_mutations (self_ts s) input_id left right
                   (unrecorded s)))
        s s'.
Proof.
  intros i l r o s. unfold record_mutations, bind at 1, get.
  destruct (record_sites_effect i l r o (ts_sites (self_ts s)) s)
    as (s' & E & M).
  exists s'. split; [exact E|exact M].
Qed.

(** ** What [update_ancestral_state] does to the recorded sites *)

Lemma update_sites_skip i l r ss : forall s,
  existsb (fun site =>
      in_range l r site &&
      bool_decide (is_Some (self_sites s !! Site.position site))) ss = false ->
  for_each ss (fun site =>
    s <- get ;;
    match self_sites s !! Site.position site with
    | Some stored =>
        if (l <=? Site.position site) && (Site.position site <? r) then
          new_ancestral_state <-
            lift (allele_of_this_individual (self_ts s) i) ;;
          modify (fun s => set_sites s
            (<[Site.position site :=
                 Site.set_ancestral_state new_ancestral_state stored]>
               (self_sites s)))
        else ret tt
    | None => ret tt
    end) s = Ok (tt, s).
Proof.
  induction ss as [|site ss IH]; intros s; simpl; [reflexivity|].
  intros He. apply orb_false_iff in He as [H1 H2].
  unfold bind at 1. unfold bind at 1, get.
  change ((l <=? Site.position site) && (Site.position site <? r))
    with (in_range l r site).
  destruct (self_sites s !! Site.position site) as [stored|] eqn:Es.
  - rewrite bool_decide_eq_true_2 in H1 by eauto.
    rewrite andb_true_r in H1. rewrite H1. simpl. apply IH. exact H2.
  - simpl. apply IH. exact H2.
Qed.

Lemma update_sites_fail i l r ss : forall s,
  existsb (fun site =>
      in_range l r site &&
      bool_decide (is_Some (self_sites s !! Site.position site))) ss = true ->
  (forall a, allele_of_this_individual (self_ts s) i <> Ok a) ->
  for_each ss (fun site =>
    s <- get ;;
    match self_sites s !! Site.position site with
    | Some stored =>
        if (l <=? Site.position site) && (Site.position site <? r) then
          new_ancestral_state <-
            lift (allele_of_this_individual (self_ts s) i) ;;
          modify (fun s => set_sites s
            (<[Site.position site :=
                 Site.set_ancestral_state new_ancestral_state stored]>
               (self_sites s)))
        else ret tt
    | None => ret tt
    end) s
  = rbind (allele_of_this_individual (self_ts s) i) (fun _ => Stuck).
Proof.
  induction ss as [|site ss IH]; intros s; simpl; [discriminate|].
  intros He Hf. unfold bind at 1. unfold bind at 1, get.
  change ((l <=? Site.position site) && (Site.position site <? r))
    with (in_range l r site).
  destruct (self_sites s !! Site.position site) as [stored|] eqn:Es.
  - destruct (in_range l r site) eqn:Er.
    + unfold bind, lift.
      destruct (allele_of_this_individual (self_ts s) i) as [a| |] eqn:Ea;
        simpl; [|reflexivity..].
      exfalso. apply (Hf a). reflexivity.
    + simpl in He. simpl. apply IH; assumption.
  - rewrite bool_decide_eq_false_2 in He
      by (intros [? Hs]; discriminate Hs).
    rewrite andb_false_r in He. simpl in He. simpl. apply IH; assumption.
Qed.

Lemma update_sites_ok i l r a ss : forall s,
  allele_of_this_individual (self_ts s) i = Ok a ->
  exists s',
    for_each ss (fun site =>
      s <- get ;;
      match self_sites s !! Site.position site with
      | Some stored =>
          if (l <=? Site.position site) && (Site.position site <? r) then
            new_ancestral_state <-
              lift (allele_of_this_individual (self_ts s) i) ;;
            modify (fun s => set_sites s
              (<[Site.position site :=
                   Site.set_ancestral_state new_ancestral_state stored]>
                 (self_sites s)))
          else ret tt
      | None => ret tt
      end) s = Ok (tt, s') /\
    s' = set_sites s (self_sites s') /\
    forall p,
      self_sites s' !! p
      = (fun stored =>
           if existsb (fun site => in_range l r site && at_position p site) ss
           then Site.set_ancestral_state a stored else stored)
        <$> self_sites s !! p.
Proof.
  induction ss as [|site ss IH]; intros s Ha.
  - exists s. split; [reflexivity|]. split; [destruct s; reflexivity|].
    intros p. simpl. destruct (self_sites s !! p); reflexivity.
  - cbn [for_each existsb]. unfold bind at 1. unfold bind at 1, get.
    change ((l <=? Site.position site) && (Site.position site <? r))
      with (in_range l r site).
    destruct (self_sites s !! Site.position site) as [stored|] eqn:Es.
    + destruct (in_range l r site) eqn:Er.
      * unfold bind at 1, lift. rewrite Ha. simpl. unfold modify.
        destruct (IH (set_sites s
                        (<[Site.position site :=
                             Site.set_ancestral_state a stored]>
                           (self_sites s)))) as (s' & E & Hs & Hp);
          [exact Ha|].
        exists s'. split; [exact E|]. split.
        { rewrite Hs at 1. destruct s; reflexivity. }
        intros p. rewrite Hp. simpl.
        destruct (Z.eqb_spec (Site.position site) p) as [<-|Hne].
        -- assert (Hat : at_position (Site.position site) site = true)
             by apply Z.eqb_refl.
           rewrite Hat, lookup_insert_eq, Es. simpl.
           destruct (existsb _ ss); reflexivity.
        -- assert (Hat : at_position p site = false)
             by (apply Z.eqb_neq; exact Hne).
           rewrite Hat, lookup_insert_ne by exact Hne. reflexivity.
      * simpl. destruct (IH s Ha) as (s' & E & Hs & Hp).
        exists s'. split; [exact E|]. split; [exact Hs|exact Hp].
    + simpl. destruct (IH s Ha) as (s' & E & Hs & Hp).
      exists s'. split; [exact E|]. split; [exact Hs|].
      intros p. rewrite Hp.
      destruct (Z.eqb_spec (Site.position site) p) as [<-|Hne].
      * rewrite Es. reflexivity.
      * assert (Hat : at_position p site = false)
          by (apply Z.eqb_neq; exact Hne).
        rewrite Hat, andb_false_r. reflexivity.
Qed.

(** X15. The whole behaviour of [update_ancestral_state].  When no
    input site in [[left, right)] is recorded in [self.sites] the call
    changes nothing and does not ask for an allele (so it cannot fail
    there).  Otherwise the allele of [input_id] is asked for: if that
    fails the call fails in the same way, and if it gives [a] then
    every recorded site at the position of an input site in range gets
    the ancestral state [a], keeping its position and mutations, and
    nothing else in the simplifier changes. *)
Theorem update_ancestral_state_effect :
  forall input_id left right s,
    if recorded_in_range s left right then
      match allele_of_this_individual (self_ts s) input_id with
      | Ok a =>
          exists s',
            update_ancestral_state input_id left right s = Ok (tt, s') /\
            s' = set_sites s (self_sites s') /\
            forall p,
              self_sites s' !! p
              = (fun stored =>
                   if touched (self_ts s) left right p
                   then Site.set_ancestral_state a stored else stored)
                <$> self_sites s !! p
      | Raise e => update_ancestral_state input_id left right s = Raise e
      | Stuck => update_ancestral_state input_id left right s = Stuck
      end
    else update_ancestral_state input_id left right s = Ok (tt, s).
Proof.
  intros i l r s. unfold update_ancestral_state, bind at 1, get.
  unfold recorded_in_range, touched.
  destruct (existsb _ (ts_sites (self_ts s))) eqn:Ee.
  - destruct (allele_of_this_individual (self_ts s) i) as [a|e|] eqn:Ea.
    + apply update_sites_ok. exact Ea.
    + assert (Hf : forall a, allele_of_this_individual (self_ts s) i <> Ok a)
        by (intros a; rewrite Ea; discriminate).
      pose proof (update_sites_fail i l r _ s Ee Hf) as E.
      rewrite Ea in E. exact E.
    + assert (Hf : forall a, allele_of_this_individual (self_ts s) i <> Ok a)
        by (intros a; rewrite Ea; discriminate).
      pose proof (update_sites_fail i l r _ s Ee Hf) as E.
      rewrite Ea in E. exact E.
  - apply update_sites_skip. exact Ee.
Qed.

(** ** The node table during the sweep *)

Lemma same_nodes_refl s : same_nodes s s.
Proof. repeat split. Qed.

Lemma same_nodes_trans s1 s2 s3 :
  same_nodes s1 s2 -> same_nodes s2 s3 -> same_nodes s1 s3.
Proof.
  unfold same_nodes. intros (-> & -> & -> & ->) (-> & -> & -> & ->). auto.
Qed.

Lemma same_more_nodes ids rows s1 s2 s3 :
  same_nodes s1 s2 -> more_nodes ids rows s2 s3 -> more_nodes ids rows s1 s3.
Proof.
  unfold same_nodes, more_nodes.
  intros (E1 & E2 & E3 & E4) (B1 & B2 & B3 & B4 & B5 & B6).
  rewrite E4 in B1. rewrite E3 in B2.
  repeat split; try assumption; congruence.
Qed.

Lemma more_same_nodes ids rows s1 s2 s3 :
  more_nodes ids rows s1 s2 -> same_nodes s2 s3 -> more_nodes ids rows s1 s3.
Proof.
  unfold same_nodes, more_nodes.
  intros (B1 & B2 & B3 & B4 & B5 & B6) (E1 & E2 & E3 & E4).
  repeat split; try assumption; congruence.
Qed.

Lemma more_nodes_nil s s' : same_nodes s s' -> more_nodes [] [] s s'.
Proof.
  unfold same_nodes, more_nodes. intros (E1 & E2 & E3 & E4).
  rewrite app_nil_r, Nat.add_0_r. simpl.
  split; [constructor|]. split; [constructor|]. auto.
Qed.

Lemma more_nodes_app ids1 rows1 ids2 rows2 s1 s2 s3 :
  more_nodes ids1 rows1 s1 s2 -> more_nodes ids2 rows2 s2 s3 ->
  more_nodes (ids1 ++ ids2) (rows1 ++ rows2) s1 s3.
Proof.
  unfold more_nodes.
  intros (A1 & A2 & A3 & A4 & A5 & A6) (B1 & B2 & B3 & B4 & B5 & B6).
  rewrite A5 in B2. rewrite A6 in B1.
  split; [apply Forall_app; auto|]. split; [apply Forall2_app; auto|].
  split; [rewrite B3, A3, <- app_assoc; reflexivity|].
  split; [rewrite B4, A4, length_app; lia|]. split; congruence.
Qed.

(** A method that returns has left the nodes alone when it keeps every
    property of them. *)
Lemma same_nodes_of_preserves {T : Type} (c : M T) s v s' :
  (forall s0, preserves (same_nodes s0) c) ->
  c s = Ok (v, s') -> same_nodes s s'.
Proof. intros Hp Hc. eapply Hp; [apply same_nodes_refl|exact Hc]. Qed.

Lemma record_edgeset_same_nodes l r p c s0 :
  preserves (same_nodes s0) (record_edgeset l r p c).
Proof.
  unfold record_edgeset. pres; apply preserves_modify; intros; assumption.
Qed.

Lemma record_mutations_same_nodes i l r o s0 :
  preserves (same_nodes s0) (record_mutations i l r o).
Proof. apply frame_record_mutations; intros; assumption. Qed.

Lemma update_ancestral_state_same_nodes i l r s0 :
  preserves (same_nodes s0) (update_ancestral_state i l r).
Proof. apply frame_update_ancestral_state; intros; assumption. Qed.

Lemma remove_ancestry_same_nodes fuel edgesets s H s' :
  remove_ancestry fuel edgesets s = Ok (H, s') -> same_nodes s s'.
Proof.
  apply same_nodes_of_preserves. intros s0.
  apply frame_remove_ancestry; intros; assumption.
Qed.

Lemma merge_tail_same_nodes i alpha z s0 :
  preserves (same_nodes s0) (merge_tail i alpha z).
Proof.
  apply frame_merge_tail; try (intros; assumption).
  intros. apply record_mutations_same_nodes.
Qed.

Lemma overlap_endpoint_same_nodes fuel i l r_max n u s0 :
  preserves (same_nodes s0) (overlap_endpoint fuel i l r_max n u).
Proof.
  unfold overlap_endpoint.
  apply preserves_bind; [apply frame_S_ensure; intros; assumption|intros _].
  apply preserves_bind; [apply frame_S_ensure; intros; assumption|intros _].
  apply preserves_bind; [apply frame_S_get|intros v].
  destruct (v =? n).
  - apply preserves_bind; [apply frame_S_set; intros; assumption|intros _].
    apply preserves_bind; [apply frame_S_succ_key|intros r].
    apply preserves_bind; [apply update_ancestral_state_same_nodes|intros _].
    apply preserves_ret.
  - apply preserves_bind;
      [apply frame_overlap_walk; intros; assumption|intros r].
    apply preserves_bind; [apply frame_alloc; intros; assumption|intros a].
    apply preserves_ret.
Qed.

(** The part of [merge_overlap] after the output node is known. *)
Lemma merge_overlap_inv fuel i l r_max H X c u s q s' :
  merge_overlap fuel i l r_max H X c u s = Ok (q, s') ->
  exists s1,
    ((c = true /\ s1 = s) \/
     (c = false /\ exists v, check_or_record_node i s = Ok (v, s1))) /\
    same_nodes s1 s'.
Proof.
  unfold merge_overlap. intros Hm.
  apply bind_ok in Hm as (u1 & s1 & H1 & Hm). exists s1. split.
  - destruct c; simpl in H1.
    + left. apply ret_ok in H1 as [_ ->]. auto.
    + right. split; [reflexivity|].
      apply bind_ok in H1 as (v & s2 & Hc & Hr).
      apply ret_ok in Hr as [_ ->]. eauto.
  - destruct u1 as [u1|]; [|discriminate Hm].
    revert Hm. apply same_nodes_of_preserves. intros s0.
    apply preserves_bind; [apply overlap_endpoint_same_nodes|intros [r alpha]].
    apply preserves_bind;
      [apply frame_overlap_update; intros; assumption|intros [H' cs]].
    apply preserves_bind; [apply record_edgeset_same_nodes|intros ?].
    apply preserves_ret.
Qed.

Lemma check_or_record_node_nodes i s v s' :
  check_or_record_node i s = Ok (v, s') ->
  same_nodes s s' \/ exists row, more_nodes [i] [row] s s'.
Proof.
  unfold check_or_record_node. intros Hc.
  apply bind_ok in Hc as (s0 & s1 & Hg & Hc). apply get_ok in Hg as [-> ->].
  destruct (in_list i (self_sample s)) eqn:Ei; simpl in Hc.
  - left. unfold lift in Hc.
    destruct (of_option _ _); simpl in Hc; try discriminate.
    injection Hc as _ <-. apply same_nodes_refl.
  - right. apply bind_ok in Hc as (node & s1 & Hl & Hc).
    unfold lift, ts_node in Hl.
    destruct (ts_nodes (self_ts s) !! i) as [nd|] eqn:En; simpl in Hl;
      [|discriminate].
    injection Hl as <- <-.
    apply bind_ok in Hc as (u1 & s1 & Hm1 & Hc). apply modify_ok in Hm1 as ->.
    apply bind_ok in Hc as (u2 & s1 & Hm2 & Hc). apply modify_ok in Hm2 as ->.
    apply bind_ok in Hc as (s2 & s3 & Hg & Hc). apply get_ok in Hg as [-> ->].
    apply ret_ok in Hc as [_ ->].
    exists (copied_row nd). unfold more_nodes. simpl.
    split.
    { constructor; [|constructor]. intros Hin.
      apply in_list_spec in Hin. congruence. }
    split; [constructor; [exists nd; auto|constructor]|].
    repeat split.
Qed.

Lemma merge_iteration_nodes fuel i l loc s loc' s' :
  merge_iteration fuel i l loc s = Ok (loc', s') ->
  (loc_coalescence loc' = loc_coalescence loc /\ same_nodes s s') \/
  (loc_coalescence loc' = true /\
   (same_nodes s s' \/
    (loc_coalescence loc = false /\ exists row, more_nodes [i] [row] s s'))).
Proof.
  unfold merge_iteration. intros Hm.
  apply bind_ok in Hm as (s0 & s1 & Hg & Hm). apply get_ok in Hg as [-> ->].
  apply bind_ok in Hm as ([[H X] r0] & s1 & Hd & Hm).
  assert (N1 : same_nodes s s1).
  { revert Hd. apply same_nodes_of_preserves. intros s0. apply frame_drain. }
  assert (Hover : forall X',
    (q <- merge_overlap fuel i l (tighten r0 H) H X'
            (loc_coalescence loc) (loc_u loc) ;;
     let '(H', alpha, u') := q in
     z' <- merge_tail i alpha (loc_z loc) ;;
     ret (mkLocals H' true z' u')) s1 = Ok (loc', s') ->
    loc_coalescence loc' = true /\
    (same_nodes s s' \/
     (loc_coalescence loc = false /\ exists row, more_nodes [i] [row] s s'))).
  { intros X' Hq.
    apply bind_ok in Hq as ([[H' alpha] u'] & s2 & Ho & Hq).
    apply bind_ok in Hq as (z' & s3 & Ht & Hq).
    apply ret_ok in Hq as [-> <-]. split; [reflexivity|].
    assert (N3 : same_nodes s2 s').
    { revert Ht. apply same_nodes_of_preserves. intros s0.
      apply merge_tail_same_nodes. }
    apply merge_overlap_inv in Ho as (s4 & Hc & N2).
    destruct Hc as [[_ ->]|[Ec (v & Hc)]].
    - left. eauto using same_nodes_trans.
    - apply check_or_record_node_nodes in Hc as [N4|[row N4]].
      + left. eauto using same_nodes_trans.
      + right. split; [exact Ec|]. exists row.
        eapply same_more_nodes; [exact N1|].
        eapply more_same_nodes; [exact N4|].
        eauto using same_nodes_trans. }
  destruct X as [|x [|x' X]]; [right; eapply Hover; exact Hm| |
                               right; eapply Hover; exact Hm].
  left.
  apply bind_ok in Hm as ([H' alpha] & s2 & Hs & Hm).
  apply bind_ok in Hm as (z' & s3 & Ht & Hm).
  apply ret_ok in Hm as [-> ->]. split; [reflexivity|].
  assert (N2 : same_nodes s1 s2).
  { revert Hs. apply same_nodes_of_preserves. intros s0.
    apply frame_merge_singleton; intros; assumption. }
  assert (N3 : same_nodes s2 s3).
  { revert Ht. apply same_nodes_of_preserves. intros s0.
    apply merge_tail_same_nodes. }
  eauto using same_nodes_trans.
Qed.

Lemma merge_loop_nodes i : forall fuel loc s u s',
  merge_loop fuel i loc s = Ok (u, s') ->
  same_nodes s s' \/
  (loc_coalescence loc = false /\ exists row, more_nodes [i] [row] s s').
Proof.
  induction fuel as [|fuel IH]; intros loc s u s'; simpl;
    destruct (loc_H loc) as [|[l x] Hrest].
  - intros Hr. apply ret_ok in Hr as [_ ->]. left. apply same_nodes_refl.
  - discriminate.
  - intros Hr. apply ret_ok in Hr as [_ ->]. left. apply same_nodes_refl.
  - intros Hm. apply bind_ok in Hm as (loc' & s1 & Hi & Hm).
    apply IH in Hm.
    apply merge_iteration_nodes in Hi
      as [[Ec N1]|[Ec [N1|[Ec0 [row N1]]]]].
    + destruct Hm as [N2|[Ec' [row N2]]].
      * left. eauto using same_nodes_trans.
      * right. split; [congruence|]. exists row.
        eapply same_more_nodes; eassumption.
    + destruct Hm as [N2|[Ec' _]]; [|congruence].
      left. eauto using same_nodes_trans.
    + destruct Hm as [N2|[Ec' _]]; [|congruence].
      right. split; [exact Ec0|]. exists row.
      eapply more_same_nodes; eassumption.
Qed.

Lemma process_parent_nodes fuel i s u s' :
  process_parent fuel i s = Ok (u, s') ->
  same_nodes s s' \/ exists row, more_nodes [i] [row] s s'.
Proof.
  unfold process_parent. intros Hp.
  apply bind_ok in Hp as (s0 & s1 & Hg & Hp). apply get_ok in Hg as [-> ->].
  destruct (filter _ _) as [|e es].
  - apply ret_ok in Hp as [_ ->]. left. apply same_nodes_refl.
  - apply bind_ok in Hp as (H & s1 & Hr & Hm).
    apply remove_ancestry_same_nodes in Hr.
    unfold merge_labeled_ancestors in Hm.
    apply merge_loop_nodes in Hm as [N|[_ [row N]]].
    + left. eauto using same_nodes_trans.
    + right. exists row. eapply same_more_nodes; eassumption.
Qed.

Lemma main_loop_nodes fuel : forall parents s u s',
  main_loop fuel parents s = Ok (u, s') ->
  exists ids rows,
    ids `sublist_of` parents.*2 /\ more_nodes ids rows s s'.
Proof.
  induction parents as [|[t i] rest IH]; intros s u s'; simpl.
  - intros Hr. apply ret_ok in Hr as [_ ->]. exists [], [].
    split; [constructor|]. apply more_nodes_nil, same_nodes_refl.
  - intros Hm. apply bind_ok in Hm as (s0 & s1 & Hg & Hm).
    apply get_ok in Hg as [-> ->].
    destruct (bool_decide (self_A s = ∅)).
    + apply ret_ok in Hm as [_ ->]. exists [], [].
      split; [apply sublist_nil_l|]. apply more_nodes_nil, same_nodes_refl.
    + apply bind_ok in Hm as (u1 & s1 & Hp & Hm).
      apply IH in Hm as (ids & rows & Hsub & N2).
      apply process_parent_nodes in Hp as [N1|[row N1]].
      * exists ids, rows. split; [apply sublist_cons; exact Hsub|].
        eapply same_more_nodes; eassumption.
      * exists ([i] ++ ids), ([row] ++ rows).
        split; [apply sublist_skip; exact Hsub|].
        eapply more_nodes_app; eassumption.
Qed.

Lemma the_parents_ids ts : (the_parents ts).*2 ≡ₚ seq 0 (num_nodes ts).
Proof.
  unfold the_parents. rewrite sort_by_perm. unfold num_nodes.
  rewrite <- (enumerate_from_fst (ts_nodes ts) 0).
  generalize (enumerate_from 0 (ts_nodes ts)). intros l.
  induction l as [|[i nd] l IH]; simpl; [reflexivity|].
  rewrite IH. reflexivity.
Qed.

(** X16. The node table that [simplify] returns.  Its first rows are
    those of the sample list, in list order and with only the sample
    bit kept, so that the sample [sample[j]] is the output node [j].
    The rows after them are input nodes copied with their flags
    unchanged: each is an input node that is not in the sample list,
    no input node is copied twice, and the copies come in the order in
    which the main loop visits the parents, which is the order of
    [(time, input_id)].  The node counter is the number of rows. *)
Theorem simplify_node_table :
  forall fuel ts sample t s,
    simplify fuel ts sample = Ok (t, s) ->
    exists rows ids extra,
      nodes t = rows ++ extra /\
      Forall2 (is_sample_row ts) sample rows /\
      Forall2 (is_copied_row ts) ids extra /\
      ids `sublist_of` (the_parents ts).*2 /\
      NoDup ids /\
      Forall (fun id => id ∉ sample) ids /\
      self_num_output_nodes s = length (nodes t).
Proof.
  intros fuel ts sample t s Hs.
  apply simplify_inv in Hs as (s0 & u & s1 & Hi & Hl & Hf).
  apply init_inv in Hi as (u0 & s2 & Hi & ->).
  apply init_samples_tables in Hi
    as (G1 & G2 & G3 & G4 & G5 & G6 & G7 & G8 & G9 & rows & G10 & G11).
  simpl in *.
  apply main_loop_nodes in Hl as (ids & extra & Hsub & N).
  destruct N as (N1 & N2 & N3 & N4 & N5 & N6). simpl in *.
  rewrite G1 in Hsub, N2. rewrite G2 in N1.
  apply finalise_inv in Hf as (last & st & mt & _ & -> & _ & ->). simpl.
  exists rows, ids, extra. rewrite N3, G10.
  split; [reflexivity|]. split; [exact G11|]. split; [exact N2|].
  split; [exact Hsub|]. split.
  { eapply sublist_NoDup; [|exact Hsub].
    rewrite the_parents_ids. apply NoDup_seq. }
  split; [exact N1|].
  rewrite N4, G9, !length_app.
  apply Forall2_length in G11. simpl. lia.
Qed.

Lemma simplify_node_table_witness :
  exists t s,
    simplify 50 (ts_two_sites no_allele) [0; 1]%nat = Ok (t, s) /\
    exists rows ids extra,
      nodes t = rows ++ extra /\
      Forall2 (is_sample_row (ts_two_sites no_allele)) [0; 1]%nat rows /\
      Forall2 (is_copied_row (ts_two_sites no_allele)) ids extra /\
      NoDup ids /\
      self_num_output_nodes s = length (nodes t).
Proof.
  destruct (simplify 50 (ts_two_sites no_allele) [0; 1]%nat) as [[t s]|e|] eqn:E;
    [|vm_compute in E; discriminate..].
  exists t, s. split; [reflexivity|].
  destruct (simplify_node_table _ _ _ _ _ E)
    as (rows & ids & extra & H1 & H2 & H3 & _ & H4 & _ & H5).
  exists rows, ids, extra. auto.
Defined.

(** ** References to output nodes *)

Lemma row_ok_mono n n' row : (n <= n')%nat -> row_ok n row -> row_ok n' row.
Proof.
  intros Hn [Hp Hc]. split; [lia|].
  eapply Forall_impl; [exact Hc|]. simpl. intros c [? ?]. split; [lia|assumption].
Qed.

Create HintDb refs discriminated.

Section Refs.
Variable n : nat.

Lemma refs_load_bind {T : Type} a (k : Segment.t -> M T) :
  (forall xs, (Segment.node xs < n)%nat -> preserves (refs_ok n) (k xs)) ->
  preserves (refs_ok n) (bind (load a) k).
Proof.
  intros Hk s v s' HP Hb. apply bind_ok in Hb as (xs & s1 & Hl & Hb).
  apply load_ok in Hl as [-> Hl].
  eapply Hk; [|exact HP|exact Hb].
  destruct HP as (HS & _).
  exact (Forall_lookup_1 _ _ _ _ HS Hl).
Qed.

Lemma refs_update a f :
  (forall x, Segment.node (f x) = Segment.node x) ->
  preserves (refs_ok n) (update a f).
Proof.
  intros Hf s v s' HP Hu. apply update_ok in Hu as (x & Hx & ->).
  destruct HP as (HS & HR). split; [|exact HR]. simpl.
  apply Forall_insert; [exact HS|]. rewrite Hf.
  exact (Forall_lookup_1 _ _ _ _ HS Hx).
Qed.

Lemma refs_set_left a v : preserves (refs_ok n) (update a (Segment.set_left v)).
Proof. apply refs_update. reflexivity. Qed.

Lemma refs_set_right a v : preserves (refs_ok n) (update a (Segment.set_right v)).
Proof. apply refs_update. reflexivity. Qed.

Lemma refs_set_next a v : preserves (refs_ok n) (update a (Segment.set_next v)).
Proof. apply refs_update. reflexivity. Qed.

Lemma refs_set_prev a v : preserves (refs_ok n) (update a (Segment.set_prev v)).
Proof. apply refs_update. reflexivity. Qed.

Lemma refs_alloc l r nd p q :
  (nd < n)%nat -> preserves (refs_ok n) (alloc_segment l r nd p q).
Proof.
  intros Hn s v s' HP Ha. apply alloc_ok in Ha as [_ ->].
  destruct HP as (HS & HR). split; [|exact HR]. simpl.
  apply Forall_app. split; [exact HS|]. constructor; [exact Hn|constructor].
Qed.

Lemma refs_free u : preserves (refs_ok n) (free_segment u).
Proof. apply frame_free. intros; assumption. Qed.

Lemma refs_S_set k v : preserves (refs_ok n) (S_set k v).
Proof. apply frame_S_set. intros; assumption. Qed.

Lemma refs_S_ensure k : preserves (refs_ok n) (S_ensure k).
Proof. apply frame_S_ensure. intros; assumption. Qed.

Lemma refs_overlap_walk fuel r r_max k :
  preserves (refs_ok n) (overlap_walk fuel r r_max k).
Proof. apply frame_overlap_walk. intros; assumption. Qed.

Lemma refs_record_mutations i l r o :
  preserves (refs_ok n) (record_mutations i l r o).
Proof. apply frame_record_mutations; intros; assumption. Qed.

Lemma refs_update_ancestral_state i l r :
  preserves (refs_ok n) (update_ancestral_state i l r).
Proof. apply frame_update_ancestral_state; intros; assumption. Qed.

Lemma refs_record_edgeset l r p c :
  (p < n)%nat -> Forall (fun c => (c < n)%nat /\ (c = p -> (256 < c)%nat)) c ->
  preserves (refs_ok n) (record_edgeset l r p c).
Proof.
  intros Hp Hc s v s' (HS & HR & HN & HT & Hs) He.
  assert (Hrow : forall l', row_ok n (mkEdgesetRow l' r p (sorted_nat c))).
  { intros l'. split; [exact Hp|]. simpl. unfold sorted_nat.
    rewrite sort_by_perm. exact Hc. }
  unfold record_edgeset, bind, get, modify in He.
  unfold refs_ok, emitted in *.
  destruct (self_last_edgeset s) as [last|];
    [destruct (squash_condition _ _ _ _)|]; injection He as _ <-; simpl in *;
    (split; [exact HS|]); (split; [|auto]).
  - apply Forall_app in HR as [HR _].
    apply Forall_app. split; [exact HR|]. constructor; [apply Hrow|constructor].
  - apply Forall_app. split; [exact HR|]. constructor; [apply Hrow|constructor].
  - apply Forall_app. split; [rewrite app_nil_r in HR; exact HR|].
    constructor; [apply Hrow|constructor].
Qed.

Hint Resolve frame_load frame_heappush frame_S_get frame_S_floor_key
  frame_S_succ_key frame_drain
  refs_set_left refs_set_right refs_set_next refs_set_prev refs_alloc
  refs_free refs_S_set refs_S_ensure refs_overlap_walk
  refs_record_mutations refs_update_ancestral_state : refs.

(** As [pres], with the label of a loaded segment known to be a node. *)
Ltac refs_step :=
  match goal with
  | |- preserves _ (bind (load _) _) => apply refs_load_bind; intros ? ?
  | |- preserves _ (modify _) => apply preserves_modify; intros; assumption
  | |- _ => pres_step
  end.

Ltac refs := repeat refs_step; eauto with pres refs.

Lemma refs_remove_left fuel e : forall x y,
  preserves (refs_ok n) (remove_left fuel e x y).
Proof. induction fuel as [|fuel IH]; intros x y; simpl; refs. Qed.

Lemma refs_remove_inside fuel e : forall x w H,
  preserves (refs_ok n) (remove_inside fuel e x w H).
Proof. induction fuel as [|fuel IH]; intros x w H; simpl; refs. Qed.

Lemma refs_remove_stitch c x y w :
  preserves (refs_ok n) (remove_stitch c x y w).
Proof.
  unfold remove_stitch. destruct w; [|refs].
  apply preserves_bind; [destruct y; refs|intros _].
  apply preserves_bind; [destruct x; refs|intros _].
  destruct y, x; refs.
Qed.

Hint Resolve refs_remove_left refs_remove_inside refs_remove_stitch : refs.

Lemma refs_remove_ancestry fuel edgesets :
  preserves (refs_ok n) (remove_ancestry fuel edgesets).
Proof.
  unfold remove_ancestry. generalize (@nil entry) as H.
  induction edgesets as [|e rest IH]; intros H; simpl; refs.
  generalize (Edgeset.children e) as cs. clear IH.
  intros cs. revert H. induction cs as [|c cs IH]; intros H; simpl; refs.
  unfold remove_child. refs.
Qed.

Lemma refs_merge_singleton H x : preserves (refs_ok n) (merge_singleton H x).
Proof.
  unfold merge_singleton, singleton_take. apply refs_load_bind. intros xs Hxs.
  destruct H as [|[k y] H]; refs.
Qed.

Lemma refs_merge_tail i alpha z : preserves (refs_ok n) (merge_tail i alpha z).
Proof.
  unfold merge_tail. destruct alpha; [|refs].
  apply preserves_bind; [destruct z; refs|intros _]. refs.
Qed.

Lemma refs_overlap_endpoint fuel i l r_max k u :
  (u < n)%nat -> preserves (refs_ok n) (overlap_endpoint fuel i l r_max k u).
Proof. intros Hu. unfold overlap_endpoint. refs. Qed.

Lemma refs_overlap_update r u : forall X H cs s q s',
  refs_ok n s -> Forall (fun c => (c < n)%nat /\ (c = u -> (256 < c)%nat)) cs ->
  overlap_update X r u H cs s = Ok (q, s') ->
  refs_ok n s' /\ Forall (fun c => (c < n)%nat /\ (c = u -> (256 < c)%nat)) q.2.
Proof.
  induction X as [|x X IH]; intros H cs s q s' HP Hcs; simpl.
  - intros Hr. apply ret_ok in Hr as [-> ->]. auto.
  - intros Ho. apply bind_ok in Ho as (xs & s1 & Hl & Ho).
    apply load_ok in Hl as [-> Hl].
    assert (Hxs : (Segment.node xs < n)%nat).
    { destruct HP as (HS & _). exact (Forall_lookup_1 _ _ _ _ HS Hl). }
    apply bind_ok in Ho as (H' & s1 & Hb & Ho).
    assert (HP1 : refs_ok n s1).
    { refine ((_ : preserves (refs_ok n) _) s H' s1 HP Hb). refs. }
    apply (IH _ _ _ _ _ HP1) in Ho; [exact Ho|].
    destruct (same_int_object (Segment.node xs) u) eqn:E; simpl; [exact Hcs|].
    apply Forall_app. split; [exact Hcs|]. constructor; [|constructor].
    split; [exact Hxs|]. intros Eu. unfold same_int_object in E.
    apply andb_false_iff in E as [E|E].
    + apply Nat.eqb_neq in E. contradiction.
    + apply Nat.leb_gt in E. exact E.
Qed.

Lemma refs_merge_overlap_rest fuel i l r_max H X u s q s' :
  refs_ok n s -> (u < n)%nat ->
  (p <- overlap_endpoint fuel i l r_max (Z.of_nat (length X)) u ;;
   let '(r, alpha) := p in
   q <- overlap_update X r u H [] ;;
   let '(H', children) := q in
   record_edgeset l r u children ;;;
   ret (H', alpha, Some u)) s = Ok (q, s') ->
  refs_ok n s' /\ q.2 = Some u.
Proof.
  intros HP Hu Hm.
  apply bind_ok in Hm as ([r alpha] & s1 & He & Hm).
  apply (refs_overlap_endpoint _ _ _ _ _ _ Hu _ _ _ HP) in He.
  apply bind_ok in Hm as ([H' cs] & s2 & Ho & Hm).
  apply (refs_overlap_update _ _ _ _ _ _ _ _ He) in Ho as [HP2 Hcs];
    [|constructor].
  apply bind_ok in Hm as (u1 & s3 & Hr & Hm).
  apply (refs_record_edgeset _ _ _ _ Hu Hcs _ _ _ HP2) in Hr.
  apply ret_ok in Hm as [-> ->]. auto.
Qed.
End Refs.

Lemma refs_check_or_record_node n i s u s' :
  refs_ok n s -> check_or_record_node i s = Ok (u, s') ->
  exists n', (n <= n')%nat /\ refs_ok n' s' /\ (u < n')%nat.
Proof.
  intros HP Hc. unfold check_or_record_node in Hc.
  apply bind_ok in Hc as (s0 & s1 & Hg & Hc). apply get_ok in Hg as [-> ->].
  destruct (in_list i (self_sample s)) eqn:Ei; simpl in Hc.
  - unfold lift in Hc.
    destruct (list_index i (self_sample s)) as [j|] eqn:Ej; simpl in Hc;
      [|discriminate].
    injection Hc as <- <-. exists n. split; [lia|]. split; [exact HP|].
    apply list_index_spec in Ej as [Ej _]. apply lookup_lt_Some in Ej.
    destruct HP as (_ & _ & _ & _ & Hs). lia.
  - apply bind_ok in Hc as (node & s1 & Hl & Hc).
    unfold lift in Hl. destruct (ts_node _ _); simpl in Hl; try discriminate.
    injection Hl as <- <-.
    apply bind_ok in Hc as (u1 & s1 & Hm1 & Hc). apply modify_ok in Hm1 as ->.
    apply bind_ok in Hc as (u2 & s1 & Hm2 & Hc). apply modify_ok in Hm2 as ->.
    apply bind_ok in Hc as (s2 & s3 & Hg & Hc). apply get_ok in Hg as [-> ->].
    apply ret_ok in Hc as [-> ->].
    destruct HP as (HS & HR & HN & HT & Hs).
    exists (S n). split; [lia|]. split.
    + unfold refs_ok, emitted in *. simpl.
      split; [eapply Forall_impl; [exact HS|]; simpl; intros; lia|].
      split; [eapply Forall_impl; [exact HR|]; intros row;
              apply row_ok_mono; lia|].
      split; [lia|]. split; [rewrite length_app; simpl; lia|lia].
    + simpl. lia.
Qed.

Lemma refs_merge_iteration fuel i l loc n s loc' s' :
  refs_ok n s -> (forall u, loc_u loc = Some u -> (u < n)%nat) ->
  merge_iteration fuel i l loc s = Ok (loc', s') ->
  exists n', (n <= n')%nat /\ refs_ok n' s' /\
             forall u, loc_u loc' = Some u -> (u < n')%nat.
Proof.
  intros HP Hu. unfold merge_iteration. intros Hm.
  apply bind_ok in Hm as (s0 & s1 & Hg & Hm). apply get_ok in Hg as [-> ->].
  apply bind_ok in Hm as ([[H X] r0] & s1 & Hd & Hm).
  apply (frame_drain _ _ _ _ _ _ _ _ HP) in Hd.
  assert (Hover : forall X',
    (q <- merge_overlap fuel i l (tighten r0 H) H X'
            (loc_coalescence loc) (loc_u loc) ;;
     let '(H', alpha, u') := q in
     z' <- merge_tail i alpha (loc_z loc) ;;
     ret (mkLocals H' true z' u')) s1 = Ok (loc', s') ->
    exists n', (n <= n')%nat /\ refs_ok n' s' /\
               forall u, loc_u loc' = Some u -> (u < n')%nat).
  { intros X' Hq.
    apply bind_ok in Hq as ([[H' alpha] u'] & s2 & Ho & Hq).
    apply bind_ok in Hq as (z' & s3 & Ht & Hq).
    apply ret_ok in Hq as [-> <-].
    unfold merge_overlap in Ho.
    apply bind_ok in Ho as (u1 & s4 & Hc & Ho).
    assert (Hn : exists n', (n <= n')%nat /\ refs_ok n' s4 /\
                   forall u, u1 = Some u -> (u < n')%nat).
    { destruct (loc_coalescence loc); simpl in Hc.
      - apply ret_ok in Hc as [-> ->]. exists n. auto.
      - apply bind_ok in Hc as (v & s5 & Hc & Hr).
        apply ret_ok in Hr as [-> ->].
        apply (refs_check_or_record_node _ _ _ _ _ Hd) in Hc
          as (n' & Hle & HP' & Hv).
        exists n'. split; [exact Hle|]. split; [exact HP'|].
        intros u [= <-]. exact Hv. }
    destruct Hn as (n' & Hle & HP' & Hu1).
    destruct u1 as [u1|]; [|discriminate Ho].
    apply (refs_merge_overlap_rest _ _ _ _ _ _ _ _ _ _ _ HP' (Hu1 _ eq_refl))
      in Ho as [HP2 Eu]. simpl in Eu. subst u'.
    apply (refs_merge_tail _ _ _ _ _ _ _ HP2) in Ht.
    exists n'. split; [exact Hle|]. split; [exact Ht|].
    simpl. intros u [= <-]. auto. }
  destruct X as [|x [|x' X]]; [eapply Hover; exact Hm| |eapply Hover; exact Hm].
  apply bind_ok in Hm as ([H' alpha] & s2 & Hs & Hm).
  apply bind_ok in Hm as (z' & s3 & Ht & Hm).
  apply ret_ok in Hm as [-> <-].
  apply (refs_merge_singleton _ _ _ _ _ _ Hd) in Hs.
  apply (refs_merge_tail _ _ _ _ _ _ _ Hs) in Ht.
  exists n. split; [lia|]. split; [exact Ht|]. simpl. exact Hu.
Qed.

Lemma refs_merge_loop i : forall fuel loc n s u s',
  refs_ok n s -> (forall u, loc_u loc = Some u -> (u < n)%nat) ->
  merge_loop fuel i loc s = Ok (u, s') ->
  exists n', (n <= n')%nat /\ refs_ok n' s'.
Proof.
  induction fuel as [|fuel IH]; intros loc n s u s' HP Hu; simpl;
    destruct (loc_H loc) as [|[l x] Hrest].
  - intros Hr. apply ret_ok in Hr as [_ ->]. exists n. auto.
  - discriminate.
  - intros Hr. apply ret_ok in Hr as [_ ->]. exists n. auto.
  - intros Hm. apply bind_ok in Hm as (loc' & s1 & Hi & Hm).
    apply (refs_merge_iteration _ _ _ _ _ _ _ _ HP Hu) in Hi
      as (n1 & Hle & HP1 & Hu1).
    destruct (IH _ _ _ _ _ HP1 Hu1 Hm) as (n2 & Hle2 & HP2).
    exists n2. split; [lia|exact HP2].
Qed.

Lemma refs_main_loop fuel : forall parents n s u s',
  refs_ok n s -> main_loop fuel parents s = Ok (u, s') ->
  exists n', (n <= n')%nat /\ refs_ok n' s'.
Proof.
  induction parents as [|[t i] rest IH]; intros n s u s' HP; simpl.
  - intros Hr. apply ret_ok in Hr as [_ ->]. exists n. auto.
  - intros Hm. apply bind_ok in Hm as (s0 & s1 & Hg & Hm).
    apply get_ok in Hg as [-> ->].
    destruct (bool_decide (self_A s = ∅)).
    + apply ret_ok in Hm as [_ ->]. exists n. auto.
    + apply bind_ok in Hm as (u1 & s1 & Hp & Hm).
      assert (H1 : exists n1, (n <= n1)%nat /\ refs_ok n1 s1).
      { unfold process_parent in Hp.
        apply bind_ok in Hp as (s0 & s2 & Hg & Hp).
        apply get_ok in Hg as [-> ->].
        destruct (filter _ _) as [|e es].
        - apply ret_ok in Hp as [_ ->]. exists n. auto.
        - apply bind_ok in Hp as (H & s2 & Hr & Hp).
          apply (refs_remove_ancestry _ _ _ _ _ _ HP) in Hr.
          unfold merge_labeled_ancestors in Hp.
          assert (Hu0 : forall u0, loc_u (mkLocals H false None None) = Some u0 ->
                          (u0 < n)%nat) by (simpl; discriminate).
          exact (refs_merge_loop _ _ _ _ _ _ _ Hr Hu0 Hp). }
      destruct H1 as (n1 & Hle & HP1).
      destruct (IH _ _ _ _ HP1 Hm) as (n2 & Hle2 & HP2).
      exists n2. split; [lia|exact HP2].
Qed.

Lemma refs_init ts sample s :
  init ts sample = Ok s -> refs_ok (length sample) s.
Proof.
  intros Hi. apply init_inv in Hi as (u & s1 & Hs & ->).
  pose proof (init_samples_ancestry _ _ _ _ _ Hs) as (_ & A2 & _).
  apply init_samples_tables in Hs
    as (G1 & G2 & G3 & G4 & G5 & G6 & G7 & G8 & G9 & rows & G10 & G11).
  simpl in *. unfold refs_ok, emitted. simpl.
  rewrite A2, G5, G6, G9, G10, G2. simpl.
  split.
  { apply Forall_fmap, Forall_forall. intros k Hk. simpl.
    apply elem_of_seq in Hk. lia. }
  split; [constructor|]. split; [reflexivity|].
  split; [symmetry; exact (Forall2_length _ _ _ G11)|lia].
Qed.

(** X17. The edgeset table that [simplify] returns refers to rows of
    the node table it returns and to nothing else: in every row the
    parent and each child are positions of the node table.  A child is
    the parent itself only from 257 on: the test [x.node is not u]
    keeps a label out of the children when it is the object [u], which
    for equal values is so up to 256 and not beyond. *)
Theorem simplify_edgesets_refer_to_nodes :
  forall fuel ts sample t s,
    simplify fuel ts sample = Ok (t, s) ->
    Forall (row_ok (length (nodes t))) (edgesets t).
Proof.
  intros fuel ts sample t s Hs.
  apply simplify_inv in Hs as (s0 & u & s1 & Hi & Hl & Hf).
  apply refs_init in Hi.
  apply (refs_main_loop _ _ _ _ _ _ Hi) in Hl as (n & _ & HP).
  apply finalise_inv in Hf as (last & st & mt & El & -> & _ & ->). simpl.
  destruct HP as (_ & HR & _ & HT & _). unfold emitted in HR.
  rewrite El in HR. simpl in HR. rewrite HT. exact HR.
Qed.

Lemma simplify_edgesets_refer_to_nodes_witness :
  exists t s,
    simplify 50 ts_own_child (seq 0 258) = Ok (t, s) /\
    edgesets t = [mkEdgesetRow 0 10 257 [0; 257]%nat] /\
    Forall (row_ok (length (nodes t))) (edgesets t).
Proof.
  destruct (simplify 50 ts_own_child (seq 0 258)) as [[t s]|e|] eqn:E;
    [|vm_compute in E; discriminate..].
  exists t, s. split; [reflexivity|]. split.
  - assert (Hv : match simplify 50 ts_own_child (seq 0 258) with
                 | Ok (t, _) => edgesets t = [mkEdgesetRow 0 10 257 [0; 257]%nat]
                 | _ => False
                 end) by (vm_compute; reflexivity).
    rewrite E in Hv. exact Hv.
  - apply (simplify_edgesets_refer_to_nodes _ _ _ _ _ E).
Defined.

(** ** The intervals of the edgeset rows *)

Section Rows.
Variable m : Z.

Lemma rows_S_set k v : preserves (rows_ok m) (S_set k v).
Proof.
  apply preserves_modify. intros s (Hm & HR & HS).
  split; [exact Hm|]. split; [exact HR|]. simpl.
  destruct (decide (k = m)) as [->|Hne].
  - rewrite lookup_insert_eq. eauto.
  - rewrite lookup_insert_ne by exact Hne. exact HS.
Qed.

Lemma rows_S_ensure k : preserves (rows_ok m) (S_ensure k).
Proof.
  unfold S_ensure. pres; auto using frame_S_floor_key, frame_S_get, rows_S_set.
Qed.

Lemma rows_overlap_walk fuel : forall r r_max n,
  preserves (rows_ok m) (overlap_walk fuel r r_max n).
Proof.
  induction fuel as [|fuel IH]; intros r r_max n; simpl; pres;
    auto using frame_S_succ_key, frame_S_get, rows_S_set.
Qed.

Lemma rows_update_ancestral_state i l r :
  preserves (rows_ok m) (update_ancestral_state i l r).
Proof. apply frame_update_ancestral_state; intros; assumption. Qed.

Lemma rows_record_mutations i l r o :
  preserves (rows_ok m) (record_mutations i l r o).
Proof. apply frame_record_mutations; intros; assumption. Qed.

Lemma rows_check_or_record_node i :
  preserves (rows_ok m) (check_or_record_node i).
Proof.
  unfold check_or_record_node. pres; apply preserves_modify; intros; assumption.
Qed.

Lemma rows_overlap_endpoint fuel i l r_max n u :
  preserves (rows_ok m) (overlap_endpoint fuel i l r_max n u).
Proof.
  unfold overlap_endpoint.
  apply preserves_bind; [apply rows_S_ensure|intros _].
  apply preserves_bind; [apply rows_S_ensure|intros _].
  apply preserves_bind; [apply frame_S_get|intros v].
  destruct (v =? n).
  - apply preserves_bind; [apply rows_S_set|intros _].
    apply preserves_bind; [apply frame_S_succ_key|intros r].
    apply preserves_bind; [apply rows_update_ancestral_state|intros _].
    apply preserves_ret.
  - apply preserves_bind; [apply rows_overlap_walk|intros r].
    apply preserves_bind; [apply frame_alloc; intros; assumption|intros a].
    apply preserves_ret.
Qed.

(** The right endpoint of an overlap lies within the genome, also in
    the branch that allocates nothing, where it is the next key of the
    overlap map. *)
Lemma overlap_endpoint_within fuel i l r_max n u s r alpha s' :
  overlap_endpoint fuel i l r_max n u s = Ok (r, alpha, s') ->
  rows_ok m s -> l < r_max -> r_max <= m ->
  l < r <= m.
Proof.
  intros He (_ & _ & HS) Hlt Hle.
  destruct (overlap_endpoint_bounds _ _ _ _ _ _ _ _ _ _ He Hlt) as [Hlr Hr].
  split; [exact Hlr|].
  destruct alpha as [a|]; [assert (r <= r_max) by (apply Hr; discriminate); lia|].
  clear Hr. unfold overlap_endpoint in He.
  apply bind_ok in He as (u1 & s1 & He1 & He).
  apply bind_ok in He as (u2 & s2 & He2 & He).
  apply bind_ok in He as (v & s3 & He3 & He).
  apply S_ensure_dom in He1 as [_ Hd1]. apply S_ensure_dom in He2 as [_ Hd2].
  apply S_get_ok in He3 as [-> Hv].
  destruct (v =? n).
  - apply bind_ok in He as (u3 & s4 & Hset & He). apply S_set_ok in Hset as ->.
    apply bind_ok in He as (r' & s5 & Hsucc & He).
    apply S_succ_key_ok in Hsucc as [-> Hsucc].
    apply succ_key_spec in Hsucc as (_ & _ & Hleast).
    apply bind_ok in He as (u4 & s6 & _ & He).
    apply ret_ok in He as [[= ->] _].
    apply Hleast; [|lia]. simpl.
    rewrite lookup_insert_ne by lia. auto.
  - apply bind_ok in He as (r' & s4 & _ & He).
    apply bind_ok in He as (a & s5 & _ & He).
    apply ret_ok in He as [He _]. discriminate He.
Qed.

Lemma rows_record_edgeset l r p c :
  l < r <= m -> preserves (rows_ok m) (record_edgeset l r p c).
Proof.
  intros Hlr s v s' (Hm & HR & HS) He.
  unfold record_edgeset, bind, get, modify in He.
  unfold rows_ok, emitted in *.
  destruct (self_last_edgeset s) as [last|];
    [destruct (squash_condition _ _ _ _) eqn:Ec|]; injection He as _ <-;
    simpl in *; (split; [exact Hm|]); (split; [|exact HS]).
  - apply squash_condition_spec in Ec as (_ & _ & Er).
    apply Forall_app in HR as [HR Hlast].
    apply Forall_app. split; [exact HR|].
    rewrite Forall_singleton in Hlast. unfold row_valid in *.
    constructor; [simpl; lia|constructor].
  - apply Forall_app. split; [exact HR|].
    constructor; [exact Hlr|constructor].
  - apply Forall_app. split; [rewrite app_nil_r in HR; exact HR|].
    constructor; [exact Hlr|constructor].
Qed.

Lemma rows_merge_overlap fuel i l r_max H X c u s q s' :
  merge_overlap fuel i l r_max H X c u s = Ok (q, s') ->
  rows_ok m s -> l < r_max -> r_max <= m -> rows_ok m s'.
Proof.
  unfold merge_overlap. intros Hm HP Hlt Hle.
  apply bind_ok in Hm as (u1 & s1 & Hc & Hm).
  assert (HP1 : rows_ok m s1).
  { destruct c; simpl in Hc.
    - apply ret_ok in Hc as [_ ->]. exact HP.
    - apply bind_ok in Hc as (v & s2 & Hc & Hr). apply ret_ok in Hr as [_ ->].
      exact (rows_check_or_record_node _ _ _ _ HP Hc). }
  destruct u1 as [u1|]; [|discriminate Hm].
  apply bind_ok in Hm as ([r alpha] & s2 & He & Hm).
  pose proof (overlap_endpoint_within _ _ _ _ _ _ _ _ _ _ He HP1 Hlt Hle) as Hlr.
  apply (rows_overlap_endpoint _ _ _ _ _ _ _ _ _ HP1) in He.
  apply bind_ok in Hm as ([H' cs] & s3 & Ho & Hm).
  assert (HP3 : rows_ok m s3).
  { refine (frame_overlap_update (rows_ok m) _ _ _ _ _ _ _ _ _ _ He Ho);
      intros; assumption. }
  apply bind_ok in Hm as (u2 & s4 & Hr & Hm).
  apply (rows_record_edgeset _ _ _ _ Hlr _ _ _ HP3) in Hr.
  apply ret_ok in Hm as [_ ->]. exact Hr.
Qed.

Lemma rows_merge_tail i alpha z : preserves (rows_ok m) (merge_tail i alpha z).
Proof.
  apply frame_merge_tail; try (intros; assumption).
  intros. apply rows_record_mutations.
Qed.
End Rows.

(** The bounds of the overlap that an iteration at [l] looks at. *)
Lemma drain_bounds l loc s H1 X r0 s1 PA PH x0 T :
  drain l (loc_H loc) [] (self_m s + 1) s = Ok (H1, X, r0, s1) ->
  loc_H loc = (l, x0) :: T ->
  swf s (loc_H loc) PA PH -> keys_sorted (loc_H loc) ->
  s1 = s /\ l < tighten r0 H1 /\ tighten r0 H1 <= self_m s.
Proof.
  intros Hd EH Hw Hs.
  apply drain_split in Hd as (-> & X1 & EX & Hsplit & Hr0 & Hall & Hmin & Hhead).
  simpl in EX. subst X1. split; [reflexivity|].
  assert (Hkeys : forall e, e ∈ loc_H loc -> l <= e.1).
  { intros e He. rewrite EH in Hs, He. apply (keys_sorted_head _ _ _ Hs He). }
  assert (Hvalid : forall x, x ∈ X ->
            exists sx, self_store s !! x = Some sx /\
                       l < Segment.right sx /\ Segment.right sx <= self_m s /\
                       r0 <= Segment.right sx).
  { intros x Hx. destruct (Hall x Hx) as (sx & Hsx & Hle).
    assert (Hin : (l, x) ∈ loc_H loc).
    { rewrite Hsplit. apply elem_of_app. left.
      apply list_elem_of_fmap. exists x. auto. }
    destruct (wf_heads _ _ _ _ _ _ Hw _ Hin) as (HxH & (sg & Hsg & Hk) & _).
    simpl in *. rewrite Hsx in Hsg. injection Hsg as <-.
    destruct (linked_lookup _ _ _ _ _ (wf_PH _ _ _ _ _ _ Hw x HxH) Hsx)
      as ([Hv Hm] & _).
    exists sx. split; [exact Hsx|]. split; [lia|]. split; [exact Hm|exact Hle]. }
  assert (HXne : exists x, x ∈ X).
  { destruct X as [|x X]; [|exists x; apply elem_of_cons; auto].
    simpl in Hsplit. rewrite EH in Hsplit. subst H1. simpl in Hhead.
    congruence. }
  rewrite Hsplit in Hs, Hkeys.
  pose proof (keys_sorted_app _ _ Hs) as Hs1.
  destruct HXne as [x Hx]. destruct (Hvalid x Hx) as (sx & Hsx & Hlx & Hm & Hle).
  assert (Hlr0 : l < r0).
  { destruct Hmin as [->|(x' & sx' & Hx' & Hsx' & ->)]; [lia|].
    destruct (Hvalid x' Hx') as (sx2 & Hsx2 & ? & _).
    rewrite Hsx' in Hsx2. injection Hsx2 as <-. lia. }
  destruct H1 as [|[k x1] T1]; simpl; [lia|].
  assert (l <= k).
  { apply (Hkeys (k, x1)). apply elem_of_app. right. apply elem_of_cons. auto. }
  lia.
Qed.

Lemma rows_merge_iteration fuel i l loc m s loc' s' PA PH x0 T :
  merge_iteration fuel i l loc s = Ok (loc', s') ->
  loc_H loc = (l, x0) :: T ->
  swf s (loc_H loc) PA PH -> keys_sorted (loc_H loc) ->
  rows_ok m s -> rows_ok m s'.
Proof.
  unfold merge_iteration. intros Hr EH Hw Hs HP.
  apply bind_ok in Hr as (s0 & s1 & Hg & Hr). apply get_ok in Hg as [-> ->].
  apply bind_ok in Hr as ([[H1 X] r0] & s1 & Hd & Hr).
  destruct (drain_bounds _ _ _ _ _ _ _ _ _ _ _ Hd EH Hw Hs) as (-> & Hlt & Hle).
  assert (Em : self_m s = m) by (destruct HP as [Em _]; exact Em).
  rewrite Em in Hle.
  assert (Hover : forall X',
    (q <- merge_overlap fuel i l (tighten r0 H1) H1 X'
            (loc_coalescence loc) (loc_u loc) ;;
     let '(H', alpha, u') := q in
     z' <- merge_tail i alpha (loc_z loc) ;;
     ret (mkLocals H' true z' u')) s = Ok (loc', s') ->
    rows_ok m s').
  { intros X' Hq.
    apply bind_ok in Hq as ([[H' alpha] u'] & s2 & Ho & Hq).
    apply bind_ok in Hq as (z' & s3 & Ht & Hq).
    apply ret_ok in Hq as [_ <-].
    apply (rows_merge_overlap _ _ _ _ _ _ _ _ _ _ _ _ Ho HP Hlt) in Hle.
    exact (rows_merge_tail _ _ _ _ _ _ _ Hle Ht). }
  destruct X as [|x [|x' X]]; [exact (Hover _ Hr)| |exact (Hover _ Hr)].
  apply bind_ok in Hr as ([H' alpha] & s2 & Hsing & Hr).
  apply bind_ok in Hr as (z' & s3 & Ht & Hr).
  apply ret_ok in Hr as [_ <-].
  assert (HP2 : rows_ok m s2).
  { refine (frame_merge_singleton (rows_ok m) _ _ _ _ _ _ _ HP Hsing);
      intros; assumption. }
  exact (rows_merge_tail _ _ _ _ _ _ _ HP2 Ht).
Qed.

Lemma rows_merge_loop i m : forall fuel loc s u s' PA PH,
  merge_loop fuel i loc s = Ok (u, s') ->
  swf s (loc_H loc) PA PH -> keys_sorted (loc_H loc) ->
  z_ok (self_store s) PA (loc_z loc) (loc_H loc) ->
  rows_ok m s -> rows_ok m s'.
Proof.
  induction fuel as [|fuel IH]; intros loc s u s' PA PH Hr Hw Hs Hz HP;
    simpl in Hr; destruct (loc_H loc) as [|[l x0] T] eqn:EH;
    try discriminate Hr.
  - apply ret_ok in Hr as [_ ->]. exact HP.
  - apply ret_ok in Hr as [_ ->]. exact HP.
  - apply bind_ok in Hr as (loc1 & s1 & Hit & Hr).
    rewrite <- EH in Hw, Hs, Hz.
    pose proof (rows_merge_iteration _ _ _ _ _ _ _ _ _ _ _ _ Hit EH Hw Hs HP)
      as HP1.
    eapply merge_iteration_wf in Hit as (M1 & PA1 & PH1 & W1 & S1 & Z1);
      [|exact EH|exact Hw|exact Hs|exact Hz].
    exact (IH _ _ _ _ _ _ Hr W1 S1 Z1 HP1).
Qed.

Lemma rows_main_loop fuel m : forall parents s u s',
  Inv s [] -> rows_ok m s ->
  main_loop fuel parents s = Ok (u, s') -> rows_ok m s'.
Proof.
  induction parents as [|[t i] rest IH]; intros s u s' Hi HP; simpl.
  - intros Hr. apply ret_ok in Hr as [_ ->]. exact HP.
  - intros Hr. apply bind_ok in Hr as (s0 & s1 & Hg & Hr).
    apply get_ok in Hg as [-> ->].
    destruct (bool_decide (self_A s = ∅)).
    + apply ret_ok in Hr as [_ ->]. exact HP.
    + apply bind_ok in Hr as (u1 & s1 & Hp & Hr).
      assert (H1 : Inv s1 [] /\ rows_ok m s1).
      { unfold process_parent in Hp.
        apply bind_ok in Hp as (s0 & s2 & Hg & Hp).
        apply get_ok in Hg as [-> ->].
        destruct (filter _ _) as [|e es].
        - apply ret_ok in Hp as [_ ->]. auto.
        - apply bind_ok in Hp as (H & s2 & Hrem & Hmerge).
          assert (HP2 : rows_ok m s2).
          { refine (frame_remove_ancestry (rows_ok m) _ _ _ _ _ _ _ _ HP Hrem);
              intros; assumption. }
          apply remove_ancestry_Inv in Hrem as [Hi2 _]; [|exact Hi].
          split.
          + exact (proj1 (merge_labeled_ancestors_Inv _ _ _ _ _ _ Hmerge Hi2)).
          + destruct Hi2 as (PA & PH & Hw & Hs).
            unfold merge_labeled_ancestors in Hmerge.
            refine (rows_merge_loop _ _ _ _ _ _ _ _ _ Hmerge Hw Hs _ HP2).
            intros za Hza. discriminate Hza. }
      destruct H1 as [Hi1 HP1]. exact (IH _ _ _ Hi1 HP1 Hr).
Qed.

(** X18. On an input with a positive sequence length, every row of
    the edgeset table that [simplify] returns covers a non-empty
    interval that ends within the genome:
    [left < right <= sequence_length]. *)
Theorem simplify_edgesets_within_genome :
  forall fuel ts sample t s,
    0 < sequence_length ts ->
    simplify fuel ts sample = Ok (t, s) ->
    Forall (row_valid (sequence_length ts)) (edgesets t).
Proof.
  intros fuel ts sample t s Hpos Hs.
  apply simplify_inv in Hs as (s0 & u & s1 & Hi & Hl & Hf).
  destruct (init_Inv _ _ _ Hpos Hi) as [Hinv Em].
  assert (HP : rows_ok (sequence_length ts) s0).
  { apply init_inv in Hi as (u0 & s2 & Hi & ->).
    apply init_samples_tables in Hi
      as (G1 & G2 & G3 & G4 & G5 & G6 & G7 & G8 & G9 & rows & G10 & G11).
    simpl in *. unfold rows_ok, emitted. simpl.
    rewrite G4, G5, G6. simpl. split; [reflexivity|]. split; [constructor|].
    rewrite lookup_insert_eq. eauto. }
  apply (rows_main_loop _ _ _ _ _ _ Hinv HP) in Hl.
  apply finalise_inv in Hf as (last & st & mt & El & -> & _ & ->). simpl.
  destruct Hl as (_ & HR & _). unfold emitted in HR.
  rewrite El in HR. exact HR.
Qed.

Lemma simplify_edgesets_within_genome_witness :
  exists t s,
    simplify 50 (ts_two_sites no_allele) [0; 1]%nat = Ok (t, s) /\
    edgesets t <> [] /\
    Forall (row_valid (sequence_length (ts_two_sites no_allele))) (edgesets t).
Proof.
  destruct (simplify 50 (ts_two_sites no_allele) [0; 1]%nat) as [[t s]|e|] eqn:E;
    [|vm_compute in E; discriminate..].
  exists t, s. split; [reflexivity|]. split.
  - vm_compute in E. injection E as <- _. discriminate.
  - refine (simplify_edgesets_within_genome _ _ _ _ _ _ E). simpl. lia.
Defined.

(** ** The order of the edgeset rows *)

Lemma node_time_app tbl rows u t :
  node_time tbl u = Some t -> node_time (tbl ++ rows) u = Some t.
Proof.
  unfold node_time. destruct (tbl !! u) as [row|] eqn:E; [|discriminate].
  rewrite (lookup_app_l_Some _ _ _ _ E). auto.
Qed.

Lemma parent_times_app tbl extra rows times :
  parent_times tbl rows times -> parent_times (tbl ++ extra) rows times.
Proof.
  unfold parent_times. intros HT. eapply Forall2_impl; [exact HT|].
  intros row tm. apply node_time_app.
Qed.

Lemma sorted_snoc l b t :
  Sorted Z.le l -> Forall (fun x => x <= b) l -> b <= t ->
  Sorted Z.le (l ++ [t]).
Proof.
  intros Hs Hb Ht. induction l as [|a l IH]; simpl.
  - repeat constructor.
  - inversion Hs as [|? ? Hs' Hh]; subst.
    apply Forall_cons in Hb as [Ha Hb].
    constructor; [apply IH; assumption|].
    destruct l as [|a' l]; simpl; constructor.
    + simpl in Ha. lia.
    + inversion Hh; assumption.
Qed.

Lemma sorted_app_l (l1 l2 : list Z) : Sorted Z.le (l1 ++ l2) -> Sorted Z.le l1.
Proof.
  induction l1 as [|a l1 IH]; simpl; intros Hs; [constructor|].
  inversion Hs as [|? ? Hs' Hh]; subst. constructor; [apply IH; exact Hs'|].
  destruct l1; simpl in *; constructor. inversion Hh; assumption.
Qed.

Lemma timed_mono ts sample b b' s :
  b <= b' -> timed ts sample b s -> timed ts sample b' s.
Proof.
  intros Hb (E1 & E2 & E3 & E4 & times & HT & Hs & HB).
  repeat (split; [assumption|]). exists times.
  split; [exact HT|]. split; [exact Hs|].
  eapply Forall_impl; [exact HB|]. simpl. intros. lia.
Qed.

Lemma timed_snoc tbl rows times row b t :
  parent_times tbl rows times -> Sorted Z.le times ->
  Forall (fun tm => tm <= b) times -> b <= t ->
  node_time tbl (row_parent row) = Some t ->
  exists times',
    parent_times tbl (rows ++ [row]) times' /\ Sorted Z.le times' /\
    Forall (fun tm => tm <= t) times'.
Proof.
  intros HT Hs HB Hb Hrow. exists (times ++ [t]). split.
  - apply Forall2_app; [exact HT|]. constructor; [exact Hrow|constructor].
  - split; [eapply sorted_snoc; eassumption|].
    apply Forall_app. split.
    + eapply Forall_impl; [exact HB|]. simpl. intros. lia.
    + constructor; [lia|constructor].
Qed.

Lemma timed_record_edgeset ts sample b t l r u c s v s' :
  timed ts sample b s -> node_time (self_node_table s) u = Some t -> b <= t ->
  record_edgeset l r u c s = Ok (v, s') -> timed ts sample t s'.
Proof.
  intros (E1 & E2 & E3 & E4 & times & HT & Hs & HB) Hu Hb He.
  unfold record_edgeset, bind, get, modify in He. unfold emitted in HT.
  unfold timed, emitted.
  destruct (self_last_edgeset s) as [last|];
    [destruct (squash_condition _ _ _ _)|]; injection He as _ <-; simpl in *;
    repeat (split; [assumption|]).
  - apply Forall2_app_inv_l in HT as (t1 & t2 & H1 & H2 & ->).
    apply sorted_app_l in Hs. apply Forall_app in HB as [HB _].
    eapply timed_snoc; eassumption.
  - eapply timed_snoc; eassumption.
  - rewrite app_nil_r in HT. eapply timed_snoc; eassumption.
Qed.

Lemma timed_check_or_record_node ts sample b i node s u s' :
  timed ts sample b s -> ts_nodes ts !! i = Some node ->
  check_or_record_node i s = Ok (u, s') ->
  timed ts sample b s' /\
  node_time (self_node_table s') u = Some (Node.time node).
Proof.
  intros HP Hn Hc. pose proof HP as (E1 & E2 & E3 & E4 & times & HT & Hs & HB).
  unfold check_or_record_node in Hc.
  apply bind_ok in Hc as (s0 & s1 & Hg & Hc). apply get_ok in Hg as [-> ->].
  destruct (in_list i (self_sample s)) eqn:Ei; simpl in Hc.
  - unfold lift in Hc.
    destruct (list_index i (self_sample s)) as [j|] eqn:Ej; simpl in Hc;
      [|discriminate].
    injection Hc as <- <-. split; [exact HP|].
    apply list_index_spec in Ej as [Ej _]. rewrite E2 in Ej.
    destruct (E4 _ _ Ej) as (node' & Hn' & Ht). congruence.
  - apply bind_ok in Hc as (node0 & s1 & Hl & Hc).
    unfold lift, ts_node in Hl. rewrite E1, Hn in Hl. simpl in Hl.
    injection Hl as <- <-.
    apply bind_ok in Hc as (u1 & s1 & Hm1 & Hc). apply modify_ok in Hm1 as ->.
    apply bind_ok in Hc as (u2 & s1 & Hm2 & Hc). apply modify_ok in Hm2 as ->.
    apply bind_ok in Hc as (s2 & s3 & Hg & Hc). apply get_ok in Hg as [-> ->].
    apply ret_ok in Hc as [-> ->]. simpl. split.
    + unfold timed, emitted in *. simpl.
      split; [exact E1|]. split; [exact E2|].
      split; [rewrite length_app; simpl; lia|]. split.
      * intros j id Hj. destruct (E4 j id Hj) as (nd & Hnd & Ht).
        exists nd. split; [exact Hnd|]. apply node_time_app. exact Ht.
      * exists times. split; [apply parent_times_app; exact HT|]. auto.
    + unfold node_time. rewrite E3.
      replace (length (self_node_table s) + 1 - 1)%nat
        with (length (self_node_table s) + 0)%nat by lia.
      rewrite lookup_app_r by lia.
      replace (length (self_node_table s) + 0 - length (self_node_table s))%nat
        with 0%nat by lia.
      reflexivity.
Qed.

Section Timed.
Variable ts : TreeSequence.
Variable sample : list nat.
Variable b : Z.

Lemma timed_record_mutations i l r o :
  preserves (timed ts sample b) (record_mutations i l r o).
Proof. apply frame_record_mutations; intros; assumption. Qed.

Lemma timed_update_ancestral_state i l r :
  preserves (timed ts sample b) (update_ancestral_state i l r).
Proof. apply frame_update_ancestral_state; intros; assumption. Qed.

Lemma timed_merge_tail i alpha z :
  preserves (timed ts sample b) (merge_tail i alpha z).
Proof.
  apply frame_merge_tail; try (intros; assumption).
  intros. apply timed_record_mutations.
Qed.

Lemma timed_overlap_endpoint fuel i l r_max n u :
  preserves (timed ts sample b) (overlap_endpoint fuel i l r_max n u).
Proof.
  unfold overlap_endpoint.
  apply preserves_bind; [apply frame_S_ensure; intros; assumption|intros _].
  apply preserves_bind; [apply frame_S_ensure; intros; assumption|intros _].
  apply preserves_bind; [apply frame_S_get|intros v].
  destruct (v =? n).
  - apply preserves_bind; [apply frame_S_set; intros; assumption|intros _].
    apply preserves_bind; [apply frame_S_succ_key|intros r].
    apply preserves_bind; [apply timed_update_ancestral_state|intros _].
    apply preserves_ret.
  - apply preserves_bind;
      [apply frame_overlap_walk; intros; assumption|intros r].
    apply preserves_bind; [apply frame_alloc; intros; assumption|intros a].
    apply preserves_ret.
Qed.
End Timed.

(** One overlap records its edgeset on the node of the parent that is
    being processed, whose time is [t]. *)
Lemma timed_merge_overlap ts sample b t fuel i node l r_max H X c u s q s' :
  timed ts sample b s -> b <= t ->
  ts_nodes ts !! i = Some node -> Node.time node = t ->
  (forall u0, u = Some u0 -> node_time (self_node_table s) u0 = Some t) ->
  merge_overlap fuel i l r_max H X c u s = Ok (q, s') ->
  timed ts sample t s' /\
  forall u0, q.2 = Some u0 -> node_time (self_node_table s') u0 = Some t.
Proof.
  intros HP Hb Hn Ht Hu Hm. unfold merge_overlap in Hm.
  apply bind_ok in Hm as (u1 & s1 & Hc & Hm).
  assert (H1 : timed ts sample b s1 /\
               forall u0, u1 = Some u0 ->
                 node_time (self_node_table s1) u0 = Some t).
  { destruct c; simpl in Hc.
    - apply ret_ok in Hc as [-> ->]. auto.
    - apply bind_ok in Hc as (v & s2 & Hc & Hr). apply ret_ok in Hr as [-> ->].
      destruct (timed_check_or_record_node _ _ _ _ _ _ _ _ HP Hn Hc)
        as [HP1 Hv].
      split; [exact HP1|]. intros u0 [= <-]. rewrite Hv, Ht. reflexivity. }
  destruct H1 as [HP1 Hu1]. destruct u1 as [u1|]; [|discriminate Hm].
  specialize (Hu1 _ eq_refl).
  apply bind_ok in Hm as ([r alpha] & s2 & He & Hm).
  pose proof (overlap_endpoint_same_nodes _ _ _ _ _ _ s1 _ _ _
                (same_nodes_refl s1) He) as (N2 & _).
  apply (timed_overlap_endpoint _ _ _ _ _ _ _ _ _ _ _ _ HP1) in He.
  apply bind_ok in Hm as ([H' cs] & s3 & Ho & Hm).
  assert (HP3 : timed ts sample b s3 /\
                self_node_table s3 = self_node_table s1).
  { refine (frame_overlap_update
              (fun s => timed ts sample b s /\
                        self_node_table s = self_node_table s1)
              _ _ _ _ _ _ _ _ _ _ (conj He N2) Ho); intros; assumption. }
  destruct HP3 as [HP3 N3].
  apply bind_ok in Hm as (u2 & s4 & Hr & Hm).
  pose proof (record_edgeset_same_nodes _ _ _ _ s3 _ _ _
                (same_nodes_refl s3) Hr) as (N4 & _).
  rewrite <- N3 in Hu1.
  apply (timed_record_edgeset _ _ _ _ _ _ _ _ _ _ _ HP3 Hu1 Hb) in Hr.
  apply ret_ok in Hm as [-> ->]. simpl. split; [exact Hr|].
  intros u0 [= <-]. rewrite N4. exact Hu1.
Qed.

Lemma timed_merge_iteration ts sample t fuel i node l loc s loc' s' :
  timed ts sample t s ->
  ts_nodes ts !! i = Some node -> Node.time node = t ->
  (forall u0, loc_u loc = Some u0 ->
     node_time (self_node_table s) u0 = Some t) ->
  merge_iteration fuel i l loc s = Ok (loc', s') ->
  timed ts sample t s' /\
  forall u0, loc_u loc' = Some u0 ->
    node_time (self_node_table s') u0 = Some t.
Proof.
  intros HP Hn Ht Hu Hm. unfold merge_iteration in Hm.
  apply bind_ok in Hm as (s0 & s1 & Hg & Hm). apply get_ok in Hg as [-> ->].
  apply bind_ok in Hm as ([[H X] r0] & s1 & Hd & Hm).
  apply drain_ok in Hd as [-> _].
  assert (Hover : forall X',
    (q <- merge_overlap fuel i l (tighten r0 H) H X'
            (loc_coalescence loc) (loc_u loc) ;;
     let '(H', alpha, u') := q in
     z' <- merge_tail i alpha (loc_z loc) ;;
     ret (mkLocals H' true z' u')) s = Ok (loc', s') ->
    timed ts sample t s' /\
    forall u0, loc_u loc' = Some u0 ->
      node_time (self_node_table s') u0 = Some t).
  { intros X' Hq.
    apply bind_ok in Hq as ([[H' alpha] u'] & s2 & Ho & Hq).
    apply bind_ok in Hq as (z' & s3 & Htl & Hq).
    apply ret_ok in Hq as [-> <-].
    destruct (timed_merge_overlap _ _ _ _ _ _ _ _ _ _ _ _ _ _ _ _
                HP (Z.le_refl t) Hn Ht Hu Ho) as [HP2 Hu2].
    simpl in Hu2.
    pose proof (merge_tail_same_nodes _ _ _ s2 _ _ _
                  (same_nodes_refl s2) Htl) as (N3 & _).
    split; [exact (timed_merge_tail _ _ _ _ _ _ _ _ _ HP2 Htl)|].
    simpl. intros u0 E. rewrite N3. auto. }
  destruct X as [|x [|x' X]]; [exact (Hover _ Hm)| |exact (Hover _ Hm)].
  apply bind_ok in Hm as ([H' alpha] & s2 & Hsing & Hm).
  apply bind_ok in Hm as (z' & s3 & Htl & Hm).
  apply ret_ok in Hm as [-> <-].
  assert (HP2 : timed ts sample t s2 /\
                self_node_table s2 = self_node_table s).
  { refine (frame_merge_singleton
              (fun s1 => timed ts sample t s1 /\
                         self_node_table s1 = self_node_table s)
              _ _ _ _ _ _ _ (conj HP eq_refl) Hsing); intros; assumption. }
  destruct HP2 as [HP2 N2].
  pose proof (merge_tail_same_nodes _ _ _ s2 _ _ _
                (same_nodes_refl s2) Htl) as (N3 & _).
  split; [exact (timed_merge_tail _ _ _ _ _ _ _ _ _ HP2 Htl)|].
  simpl. intros u0 E. rewrite N3, N2. auto.
Qed.

Lemma timed_merge_loop ts sample t i node : forall fuel loc s u s',
  timed ts sample t s ->
  ts_nodes ts !! i = Some node -> Node.time node = t ->
  (forall u0, loc_u loc = Some u0 ->
     node_time (self_node_table s) u0 = Some t) ->
  merge_loop fuel i loc s = Ok (u, s') ->
  timed ts sample t s'.
Proof.
  induction fuel as [|fuel IH]; intros loc s u s' HP Hn Ht Hu; simpl;
    destruct (loc_H loc) as [|[l x] Hrest].
  - intros Hr. apply ret_ok in Hr as [_ ->]. exact HP.
  - discriminate.
  - intros Hr. apply ret_ok in Hr as [_ ->]. exact HP.
  - intros Hm. apply bind_ok in Hm as (loc' & s1 & Hi & Hm).
    destruct (timed_merge_iteration _ _ _ _ _ _ _ _ _ _ _ HP Hn Ht Hu Hi)
      as [HP1 Hu1].
    exact (IH _ _ _ _ HP1 Hn Ht Hu1 Hm).
Qed.

Lemma timed_main_loop ts sample fuel : forall parents b s u s',
  StronglySorted (fun p q : Z * nat => p.1 <= q.1) parents ->
  Forall (fun p => b <= p.1 /\
            exists node, ts_nodes ts !! p.2 = Some node /\
                         Node.time node = p.1) parents ->
  timed ts sample b s ->
  main_loop fuel parents s = Ok (u, s') ->
  exists b', timed ts sample b' s'.
Proof.
  induction parents as [|[t i] rest IH]; intros b s u s' Hso Hall HP; simpl.
  - intros Hr. apply ret_ok in Hr as [_ ->]. eauto.
  - intros Hm. apply bind_ok in Hm as (s0 & s1 & Hg & Hm).
    apply get_ok in Hg as [-> ->].
    destruct (bool_decide (self_A s = ∅)).
    + apply ret_ok in Hm as [_ ->]. eauto.
    + apply bind_ok in Hm as (u1 & s1 & Hp & Hm).
      apply Forall_cons in Hall as [(Hb & node & Hn & Ht) Hall].
      simpl in Hb, Hn, Ht.
      inversion Hso as [|? ? Hso' Hle]; subst.
      assert (HP1 : timed ts sample (Node.time node) s1).
      { apply (timed_mono _ _ _ _ _ Hb) in HP.
        unfold process_parent in Hp.
        apply bind_ok in Hp as (s0 & s2 & Hg & Hp).
        apply get_ok in Hg as [-> ->].
        destruct (filter _ _) as [|e es].
        - apply ret_ok in Hp as [_ ->]. exact HP.
        - apply bind_ok in Hp as (H & s2 & Hrem & Hmerge).
          assert (HP2 : timed ts sample (Node.time node) s2).
          { refine (frame_remove_ancestry (timed ts sample (Node.time node))
                      _ _ _ _ _ _ _ _ HP Hrem); intros; assumption. }
          unfold merge_labeled_ancestors in Hmerge.
          refine (timed_merge_loop _ _ _ _ _ _ _ _ _ _ HP2 Hn eq_refl _ Hmerge).
          simpl. intros u0 Hu0. discriminate Hu0. }
      refine (IH _ _ _ _ Hso' _ HP1 Hm).
      apply Forall_forall. intros p Hp'.
      split.
      * rewrite Forall_forall in Hle. apply (Hle p). exact Hp'.
      * rewrite Forall_forall in Hall. apply (Hall p Hp').
Qed.

Lemma the_parents_by_time ts :
  StronglySorted (fun p q : Z * nat => p.1 <= q.1) (the_parents ts).
Proof.
  apply Sorted_StronglySorted.
  - intros p q r. simpl. lia.
  - unfold the_parents. apply sort_by_Sorted; intros [t1 i1] [t2 i2];
      unfold parent_le; simpl; destruct (Z.eqb_spec t1 t2) as [->|Hne]; simpl.
    + intros _. lia.
    + rewrite Z.ltb_lt. lia.
    + intros _. lia.
    + rewrite Z.ltb_ge. lia.
Qed.

Lemma the_parents_nodes ts t i :
  (t, i) ∈ the_parents ts ->
  exists node, ts_nodes ts !! i = Some node /\ Node.time node = t.
Proof.
  unfold the_parents. rewrite elem_of_sort_by, list_elem_of_fmap.
  intros ([j nd] & [= -> ->] & Hin). simpl.
  apply elem_of_enumerate_from in Hin as [_ Hl].
  rewrite Nat.sub_0_r in Hl. exists nd. auto.
Qed.

Lemma timed_init ts sample s b :
  init ts sample = Ok s -> timed ts sample b s.
Proof.
  intros Hi. apply init_inv in Hi as (u & s1 & Hs & ->).
  apply init_samples_tables in Hs
    as (G1 & G2 & G3 & G4 & G5 & G6 & G7 & G8 & G9 & rows & G10 & G11).
  simpl in *. unfold timed, emitted. simpl.
  rewrite G5, G6, G9, G10. simpl.
  split; [exact G1|]. split; [exact G2|].
  split; [exact (Forall2_length _ _ _ G11)|]. split.
  - intros j id Hj.
    destruct (Forall2_lookup_l _ _ _ _ _ G11 Hj) as (row & Hrow & node & Hn & ->).
    exists node. split; [exact Hn|]. unfold node_time. rewrite Hrow.
    reflexivity.
  - exists []. split; [constructor|]. split; constructor.
Qed.

(** X19. The edgeset table that [simplify] returns is in
    nondecreasing order of the time of the parent: every row has a
    parent in the returned node table, and the times of these parents,
    read row by row, never decrease. *)
Theorem simplify_edgesets_by_parent_time :
  forall fuel ts sample t s,
    simplify fuel ts sample = Ok (t, s) ->
    exists times,
      parent_times (nodes t) (edgesets t) times /\ Sorted Z.le times.
Proof.
  intros fuel ts sample t s Hs.
  apply simplify_inv in Hs as (s0 & u & s1 & Hi & Hl & Hf).
  assert (Ets : self_ts s0 = ts).
  { pose proof (timed_init _ _ _ 0 Hi) as (E1 & _). exact E1. }
  rewrite Ets in Hl.
  destruct (the_parents ts) as [|[t0 i0] rest] eqn:Ep.
  - simpl in Hl. apply ret_ok in Hl as [_ ->].
    apply (timed_init _ _ _ 0) in Hi.
    apply finalise_inv in Hf as (last & st & mt & El & -> & _ & ->). simpl.
    destruct Hi as (_ & _ & _ & _ & times & HT & Hso & _).
    unfold emitted in HT. rewrite El in HT. eauto.
  - apply (timed_init _ _ _ t0) in Hi.
    assert (Hex : exists b', timed ts sample b' s1).
    { refine (timed_main_loop ts sample fuel _ t0 _ _ _ _ _ Hi Hl).
      - rewrite <- Ep. apply the_parents_by_time.
      - pose proof (the_parents_by_time ts) as Hso. rewrite Ep in Hso.
        inversion Hso as [|? ? Hso' Hle]; subst.
        apply Forall_forall. intros [t1 i1] Hin. split.
        + apply elem_of_cons in Hin as [[= -> ->]|Hin]; [simpl; lia|].
          rewrite Forall_forall in Hle. apply (Hle _ Hin).
        + apply the_parents_nodes. rewrite Ep. exact Hin. }
    destruct Hex as (b' & _ & _ & _ & _ & times & HT & Hso & _).
    apply finalise_inv in Hf as (last & st & mt & El & -> & _ & ->). simpl.
    unfold emitted in HT. rewrite El in HT. eauto.
Qed.

Lemma simplify_edgesets_by_parent_time_witness :
  exists t s,
    simplify 50 (ts_two_sites no_allele) [0; 1]%nat = Ok (t, s) /\
    edgesets t <> [] /\
    exists times,
      parent_times (nodes t) (edgesets t) times /\ Sorted Z.le times.
Proof.
  destruct (simplify 50 (ts_two_sites no_allele) [0; 1]%nat) as [[t s]|e|] eqn:E;
    [|vm_compute in E; discriminate..].
  exists t, s. split; [reflexivity|]. split.
  - vm_compute in E. injection E as <- _. discriminate.
  - apply (simplify_edgesets_by_parent_time _ _ _ _ _ E).
Defined.

(** ** [remove_ancestry] on a segment that contains the interval *)

Lemma with_store_self s :
  with_store s (self_store s) (self_num_used_segments s) = s.
Proof. destruct s; reflexivity. Qed.

Lemma bind_Ok {T U : Type} (c : M T) (k : T -> M U) s v s1 :
  c s = Ok (v, s1) -> bind c k s = k v s1.
Proof. unfold bind. intros ->. reflexivity. Qed.

Lemma load_with_store a s st u x :
  st !! a = Some x -> load a (with_store s st u) = Ok (x, with_store s st u).
Proof. unfold load. simpl. intros ->. reflexivity. Qed.

Lemma update_with_store a f s st u x :
  st !! a = Some x ->
  update a f (with_store s st u) = Ok (tt, with_store s (<[a := f x]> st) u).
Proof. unfold update. simpl. intros ->. reflexivity. Qed.

Lemma alloc_with_store l r nd p q s st u :
  alloc_segment l r nd p q (with_store s st u)
  = Ok (length st, with_store s (st ++ [Segment.mk l r nd p q]) (u + 1)).
Proof. reflexivity. Qed.

Lemma free_with_store a s st u :
  free_segment a (with_store s st u) = Ok (tt, with_store s st (u - 1)).
Proof. reflexivity. Qed.

(** The first loop on a segment that starts before [e_left] and ends
    after it: the segment is cut at [e_left]. *)
Lemma remove_left_cuts fuel e_left s st u xa xs :
  st !! xa = Some xs ->
  Segment.left xs < e_left -> e_left < Segment.right xs ->
  remove_left (S fuel) e_left (Some xa) None (with_store s st u)
  = Ok ((Some (length st), Some xa),
        with_store s
          (<[xa := Segment.mk (Segment.left xs) e_left (Segment.node xs)
                     (Segment.prev xs) None]> st ++
           [Segment.mk e_left (Segment.right xs) (Segment.node xs) None
              (Segment.next xs)])
          (u + 1)).
Proof.
  intros Hxa Hl Hr.
  assert (Hlt : (xa < length st)%nat) by (eapply lookup_lt_Some; exact Hxa).
  cbn [remove_left].
  rewrite (bind_Ok _ _ _ _ _ (load_with_store _ _ _ _ _ Hxa)).
  replace (Segment.left xs <? e_left) with true by (symmetry; apply Z.ltb_lt; lia).
  replace (Segment.right xs >? e_left) with true by (symmetry; apply Z.gtb_lt; lia).
  rewrite (bind_Ok _ _ _ _ _ (alloc_with_store _ _ _ _ _ _ _ _)).
  erewrite bind_Ok;
    [|apply update_with_store; rewrite lookup_app_l by exact Hlt; exact Hxa].
  rewrite insert_app_l by exact Hlt.
  erewrite bind_Ok;
    [|apply update_with_store;
      rewrite lookup_app_l by (rewrite length_insert; exact Hlt);
      apply list_lookup_insert_eq; exact Hlt].
  rewrite insert_app_l by (rewrite length_insert; exact Hlt).
  rewrite list_insert_insert_eq.
  assert (Hn : (<[xa := Segment.set_next None (Segment.set_right e_left xs)]> st ++
                [Segment.mk e_left (Segment.right xs) (Segment.node xs) None
                   (Segment.next xs)]) !! length st
               = Some (Segment.mk e_left (Segment.right xs) (Segment.node xs)
                         None (Segment.next xs))).
  { rewrite lookup_app_r by (rewrite length_insert; lia).
    rewrite length_insert, Nat.sub_diag. reflexivity. }
  destruct fuel; cbn [remove_left];
    rewrite (bind_Ok _ _ _ _ _ (load_with_store _ _ _ _ _ Hn)); simpl;
    rewrite Z.ltb_irrefl; reflexivity.
Qed.

(** The second loop on a segment that starts before [e_right] and
    ends after it: the part up to [e_right] is copied into a new
    segment, which goes on the heap, and the segment now starts at
    [e_right]. *)
Lemma remove_inside_cuts fuel e_right s st u x xs :
  st !! x = Some xs ->
  Segment.left xs < e_right -> e_right < Segment.right xs ->
  remove_inside (S fuel) e_right (Some x) None [] (with_store s st u)
  = Ok ((Some x, Some (length st), [(Segment.left xs, length st)]),
        with_store s
          (<[x := Segment.set_left e_right xs]> st ++
           [Segment.mk (Segment.left xs) e_right (Segment.node xs) None None])
          (u + 1)).
Proof.
  intros Hx Hl Hr.
  assert (Hlt : (x < length st)%nat) by (eapply lookup_lt_Some; exact Hx).
  cbn [remove_inside].
  rewrite (bind_Ok _ _ _ _ _ (load_with_store _ _ _ _ _ Hx)).
  replace (Segment.left xs <? e_right) with true by (symmetry; apply Z.ltb_lt; lia).
  replace (Z.min e_right (Segment.right xs)) with e_right by lia.
  rewrite (bind_Ok _ _ _ _ _ (alloc_with_store _ _ _ _ _ _ _ _)).
  erewrite bind_Ok; cycle 1.
  { erewrite bind_Ok; [reflexivity|].
    apply load_with_store. apply list_lookup_middle. reflexivity. }
  erewrite bind_Ok;
    [|apply load_with_store; rewrite lookup_app_l by exact Hlt; exact Hx].
  replace (Segment.right xs <=? e_right) with false
    by (symmetry; apply Z.leb_gt; lia).
  erewrite bind_Ok;
    [|apply update_with_store; rewrite lookup_app_l by exact Hlt; exact Hx].
  rewrite insert_app_l by exact Hlt. reflexivity.
Qed.

(** The wrap-up when both a segment before and a segment after the
    interval are left: the two are linked. *)
Lemma remove_stitch_links child s st u xa ya w xs ys :
  st !! ya = Some ys -> st !! xa = Some xs -> ya <> xa ->
  remove_stitch child (Some xa) (Some ya) (Some w) (with_store s st u)
  = Ok (tt, with_store s
              (<[xa := Segment.set_prev (Some ya) xs]>
                 (<[ya := Segment.set_next (Some xa) ys]> st)) u).
Proof.
  intros Hy Hx Hne. unfold remove_stitch.
  rewrite (bind_Ok _ _ _ _ _ (update_with_store _ _ _ _ _ _ Hy)).
  erewrite bind_Ok;
    [|apply update_with_store; rewrite list_lookup_insert_ne by exact Hne;
      exact Hx].
  reflexivity.
Qed.

(** X20. [remove_ancestry] of the interval [[left, right)] from a
    child whose first segment [xs] strictly contains the interval
    splits the segment in three.  The segment itself keeps the part
    [[xs.left, left)], a new segment holds [[right, xs.right)] and is
    linked after it, with the old successor of [xs] as its successor,
    and a third new segment [[left, right)] without neighbours is the
    only entry of the returned heap.  All three carry the node of
    [xs]; [A] and every other segment are unchanged, and two more
    segments are in use. *)
Theorem remove_ancestry_splits_segment :
  forall fuel e_left e_right parent child s xa xs,
    self_A s !! child = Some xa ->
    self_store s !! xa = Some xs ->
    Segment.left xs < e_left -> e_left < e_right ->
    e_right < Segment.right xs ->
    remove_ancestry (S fuel) [Edgeset.mk e_left e_right parent [child]] s
    = Ok ([(e_left, S (length (self_store s)))],
          with_store s
            (<[xa := Segment.mk (Segment.left xs) e_left (Segment.node xs)
                       (Segment.prev xs) (Some (length (self_store s)))]>
               (self_store s) ++
             [Segment.mk e_right (Segment.right xs) (Segment.node xs)
                (Some xa) (Segment.next xs);
              Segment.mk e_left e_right (Segment.node xs) None None])
            (self_num_used_segments s + 2)).
Proof.
  intros fuel e_left e_right parent child s xa xs HA Hxa Hl Hlr Hr.
  assert (Hlt : (xa < length (self_store s))%nat)
    by (eapply lookup_lt_Some; exact Hxa).
  pose proof (remove_left_cuts fuel e_left s _ (self_num_used_segments s)
                _ _ Hxa Hl ltac:(lia)) as Hleft.
  rewrite with_store_self in Hleft.
  assert (Hn : (<[xa := Segment.mk (Segment.left xs) e_left (Segment.node xs)
                          (Segment.prev xs) None]> (self_store s) ++
                [Segment.mk e_left (Segment.right xs) (Segment.node xs) None
                   (Segment.next xs)]) !! length (self_store s)
               = Some (Segment.mk e_left (Segment.right xs) (Segment.node xs)
                         None (Segment.next xs))).
  { rewrite lookup_app_r by (rewrite length_insert; lia).
    rewrite length_insert, Nat.sub_diag. reflexivity. }
  pose proof (remove_inside_cuts fuel e_right s _
                (self_num_used_segments s + 1) _ _ Hn
                ltac:(simpl; lia) ltac:(simpl; lia)) as Hin.
  rewrite length_app, length_insert in Hin. simpl in Hin.
  rewrite insert_app_r_alt in Hin by (rewrite length_insert; lia).
  rewrite length_insert, Nat.sub_diag in Hin. simpl in Hin.
  rewrite <- app_assoc in Hin. simpl in Hin.
  assert (Hchild :
    remove_child (S fuel) (Edgeset.mk e_left e_right parent [child]) child [] s
    = Ok ([(e_left, S (length (self_store s)))],
          with_store s
            (<[xa := Segment.mk (Segment.left xs) e_left (Segment.node xs)
                       (Segment.prev xs) (Some (length (self_store s)))]>
               (self_store s) ++
             [Segment.mk e_right (Segment.right xs) (Segment.node xs)
                (Some xa) (Segment.next xs);
              Segment.mk e_left e_right (Segment.node xs) None None])
            (self_num_used_segments s + 2))).
  { unfold remove_child. cbn [Edgeset.left Edgeset.right].
    rewrite (bind_Ok get _ s s s eq_refl), HA.
    rewrite (bind_Ok _ _ _ _ _ Hleft).
    rewrite (bind_Ok _ _ _ _ _ Hin).
    erewrite bind_Ok; cycle 1.
    { apply remove_stitch_links with
        (xs := Segment.mk e_right (Segment.right xs) (Segment.node xs) None
                 (Segment.next xs))
        (ys := Segment.mk (Segment.left xs) e_left (Segment.node xs)
                 (Segment.prev xs) None); [| |lia].
      - rewrite lookup_app_l by (rewrite length_insert; exact Hlt).
        apply list_lookup_insert_eq. exact Hlt.
      - rewrite lookup_app_r by (rewrite length_insert; lia).
        rewrite length_insert, Nat.sub_diag. reflexivity. }
    unfold ret, Segment.set_prev, Segment.set_next. simpl.
    rewrite (insert_app_l _ _ xa) by (rewrite length_insert; exact Hlt).
    rewrite list_insert_insert_eq.
    rewrite insert_app_r_alt by (rewrite length_insert; lia).
    rewrite length_insert, Nat.sub_diag. simpl.
    replace (length (self_store s) + 1)%nat
      with (S (length (self_store s))) by lia.
    replace (self_num_used_segments s + 1 + 1)
      with (self_num_used_segments s + 2) by lia.
    reflexivity. }
  unfold remove_ancestry.
  cbn [remove_edgesets remove_children Edgeset.children].
  rewrite (bind_Ok _ _ _ _ _ (bind_Ok _ _ _ _ _ Hchild)). reflexivity.
Qed.

Lemma remove_ancestry_splits_segment_witness :
  exists s0 s1,
    init ts_pairwise [0; 1]%nat = Ok s0 /\
    remove_ancestry 1 [Edgeset.mk 2 5 4 [1%nat]] s0
    = Ok ([(2, 3%nat)], s1) /\
    self_store s1
    = [Segment.mk 0 10 0 None None;
       Segment.mk 0 2 1 None (Some 2%nat);
       Segment.mk 5 10 1 (Some 1%nat) None;
       Segment.mk 2 5 1 None None].
Proof.
  destruct (init ts_pairwise [0; 1]%nat) as [s0|e|] eqn:E;
    [|vm_compute in E; discriminate..].
  assert (HA : self_A s0 !! 1%nat = Some 1%nat)
    by (vm_compute in E; injection E as <-; reflexivity).
  assert (Hst : self_store s0
                = [Segment.mk 0 10 0 None None; Segment.mk 0 10 1 None None])
    by (vm_compute in E; injection E as <-; reflexivity).
  assert (Hx : self_store s0 !! 1%nat = Some (Segment.mk 0 10 1 None None))
    by (rewrite Hst; reflexivity).
  eexists s0, _. split; [reflexivity|].
  pose proof (remove_ancestry_splits_segment 0 2 5 4 1%nat s0 1%nat _ HA Hx
                ltac:(simpl; lia) ltac:(lia) ltac:(simpl; lia)) as Hr.
  rewrite Hst in Hr. simpl in Hr. split; [exact Hr|]. reflexivity.
Defined.
